(** * AI-Mafia: the game state and turn engine, embedded and verified

    A shallow embedding of [mafia_core.py] (players, night kill, mention
    ranking, plurality tally, win detection), of the discussion helpers, the
    rule-based AI votes and the vote step of [main.py], and of the
    sanitizing pass and the update functions of the store of [memory.py].

    Conventions of the embedding:
    - a Python [str] used as a name or a transcript line is a [string]
      (its UTF-8 bytes): equality, substring search and lexicographic
      comparison on UTF-8 bytes agree with Python's on code points;
    - a [dict] whose iteration order is observable is an association list
      in insertion order; a [dict] used only through lookups is a [gmap];
    - the [random] module is an explicit source of draws that every
      randomized operation consumes and returns;
    - the reply of the text service is a JSON value of which the code
      inspects the type: a string, or a value of another type with its
      truth value; an exception is [None]. *)

From Stdlib Require Import ZArith Lia.
From stdpp Require Import base option list list_numbers strings gmap sorting.

Open Scope string_scope.

(** ** The random source *)

Module Random.

(** An infinite sequence of raw draws. *)
Definition Rng := nat → nat.

Definition next (g : Rng) : Rng := λ i, g (S i).

(** [random._randbelow(n)] for [n > 0]. *)
Definition randbelow (n : nat) (g : Rng) : nat * Rng :=
  (g 0 mod n, next g).

(** [random.choice(seq)]: [None] stands for the [IndexError] raised on an
    empty sequence. *)
Definition choice {A} (seq : list A) (g : Rng) : option (A * Rng) :=
  match seq with
  | [] => None
  | _ => let '(i, g') := randbelow (length seq) g in
         (λ x, (x, g')) <$> seq !! i
  end.

(** [x[i], x[j] = x[j], x[i]] *)
Definition swap {A} (x : list A) (i j : nat) : list A :=
  match x !! i, x !! j with
  | Some a, Some b => <[j:=a]> (<[i:=b]> x)
  | _, _ => x
  end.

(** [for i in reversed(range(1, len(x))): j = randbelow(i + 1); swap] *)
Fixpoint shuffle_from {A} (i : nat) (x : list A) (g : Rng) : list A * Rng :=
  match i with
  | 0 => (x, g)
  | S i' => let '(j, g') := randbelow (S i) g in
            shuffle_from i' (swap x i j) g'
  end.

(** [random.shuffle(x)] *)
Definition shuffle {A} (x : list A) (g : Rng) : list A * Rng :=
  shuffle_from (length x - 1) x g.

End Random.

(** ** String helpers of the Python runtime *)

Module PyStr.

(** [sub in line] *)
Fixpoint contains (sub line : string) : bool :=
  String.prefix sub line ||
  match line with
  | EmptyString => false
  | String _ rest => contains sub rest
  end.

(** [line.count(sub)] for a non-empty [sub]: non-overlapping occurrences,
    scanning from the left.  [skip] is the number of characters still
    covered by the occurrence found last. *)
Fixpoint count_from (sub : string) (skip : nat) (line : string) : nat :=
  match line with
  | EmptyString => 0
  | String _ rest =>
      match skip with
      | S k => count_from sub k rest
      | 0 => if String.prefix sub line
             then S (count_from sub (String.length sub - 1) rest)
             else count_from sub 0 rest
      end
  end.

Definition count (sub line : string) : nat := count_from sub 0 line.

(** The order of [sorted] on names. *)
Definition le (a b : string) : Prop := String.leb a b = true.

#[global] Instance le_dec a b : Decision (le a b).
Proof. unfold le. apply _. Defined.

(** Python's slice [l[i:]] for an integer [i]. *)
Definition slice_from {A} (i : Z) (l : list A) : list A :=
  if (i <? 0)%Z
  then drop (Z.to_nat (Z.max 0 (Z.of_nat (length l) + i))) l
  else drop (Z.to_nat i) l.

End PyStr.

(** ** mafia_core.py *)

Module MafiaCore.

Inductive Phase := NIGHT | DAY_DISCUSS | DAY_VOTE | END.

Record Player := mkPlayer {
  name : string;
  role : string;   (* "MAFIA" | "CITIZEN" *)
  alive : bool
}.

Record GameState := mkGameState {
  round : Z;
  phase : Phase;
  (* dict name -> Player, in insertion order *)
  players : list (string * Player);
  log : list string;
  dialogue_history : list string;
  last_line_by_name : gmap string string;
  dialogue_round_start_idx : Z
}.

(** [GameState()] *)
Definition GameState_default : GameState :=
  mkGameState 1 NIGHT [] [] [] ∅ 0.

Definition human : string := "당신".

Definition alive_players (gs : GameState) : list string :=
  name <$> filter (λ p, alive p = true) (players gs).*2.

Definition alive_ai (gs : GameState) : list string :=
  filter (λ n, n ≠ human) (alive_players gs).

Definition mafia_alive (gs : GameState) : nat :=
  length (filter (λ p, alive p = true ∧ role p = "MAFIA") (players gs).*2).

Definition citizen_alive (gs : GameState) : nat :=
  length (filter (λ p, alive p = true ∧ role p = "CITIZEN") (players gs).*2).

Definition start_new_day (gs : GameState) : GameState :=
  mkGameState (round gs) (phase gs) (players gs) (log gs)
    (dialogue_history gs) (last_line_by_name gs)
    (Z.of_nat (length (dialogue_history gs))).

Definition _count_name_in_line (name line : string) : nat :=
  if bool_decide (name = "") || bool_decide (line = "") then 0
  else PyStr.count name line.

(** [counts[n] += k]; the key is always present where this is used. *)
Definition bump (n : string) (k : nat) (counts : gmap string nat)
  : gmap string nat :=
  <[n := default 0 (counts !! n) + k]> counts.

Definition mention_counts_for_today (gs : GameState) : gmap string nat :=
  let window := PyStr.slice_from (dialogue_round_start_idx gs)
                  (dialogue_history gs) in
  let alive := filter (λ n, n ≠ human) (alive_players gs) in
  let counts := foldl (λ c n, <[n := 0]> c) ∅ alive in
  foldl (λ c line,
           foldl (λ c n, bump n (_count_name_in_line n line) c) c alive)
        counts window.

Definition get_current_mafia (gs : GameState) : option string :=
  fst <$> head (filter (λ kp, alive kp.2 = true ∧ role kp.2 = "MAFIA")
                       (players gs)).

(** ** check_win *)

Definition check_win (gs : GameState) : option string :=
  let m := mafia_alive gs in
  let c := citizen_alive gs in
  if bool_decide (m = 0) then Some "CITIZEN_WIN"
  else if bool_decide (c ≤ m)%nat then Some "MAFIA_WIN"   (* m >= c *)
  else None.

(** ** create_default_game *)

Definition names : list string :=
  ["당신"; "민수"; "지연"; "현우"; "수아"; "하린"; "태훈"].

(** [gs.players[key] = p]: an existing key keeps its position. *)
Fixpoint players_set (key : string) (p : Player)
    (ps : list (string * Player)) : list (string * Player) :=
  match ps with
  | [] => [(key, p)]
  | (k, q) :: rest =>
      if bool_decide (k = key) then (k, p) :: rest
      else (k, q) :: players_set key p rest
  end.

Definition players_get (key : string) (ps : list (string * Player))
  : option Player :=
  snd <$> head (filter (λ kp, kp.1 = key) ps).

Definition set_players (ps : list (string * Player)) (gs : GameState)
  : GameState :=
  mkGameState (round gs) (phase gs) ps (log gs)
    (dialogue_history gs) (last_line_by_name gs)
    (dialogue_round_start_idx gs).

Definition log_append (entry : string) (gs : GameState) : GameState :=
  mkGameState (round gs) (phase gs) (players gs) (log gs ++ [entry])
    (dialogue_history gs) (last_line_by_name gs)
    (dialogue_round_start_idx gs).

(** [gs.players[key].role = r]; [None] is the [KeyError]. *)
Definition set_role (key r : string) (gs : GameState) : option GameState :=
  p ← players_get key (players gs);
  Some (set_players
          (players_set key (mkPlayer (name p) r (alive p)) (players gs)) gs).

(** [gs.players[key].alive = b]; [None] is the [KeyError]. *)
Definition set_alive (key : string) (b : bool) (gs : GameState)
  : option GameState :=
  p ← players_get key (players gs);
  Some (set_players
          (players_set key (mkPlayer (name p) (role p) b) (players gs)) gs).

(** [None] stands for an exception; the function never raises. *)
Definition create_default_game (g : Random.Rng)
  : option (GameState * Random.Rng) :=
  let gs := foldl (λ gs n,
              set_players (players_set n (mkPlayer n "CITIZEN" true)
                             (players gs)) gs)
              GameState_default names in
  let ai_alive := filter (λ n, n ≠ human) names in
  '(pick, g') ← Random.choice ai_alive g;
  gs' ← set_role pick "MAFIA" gs;
  Some (gs', g').

(** ** mafia_kill *)

Definition first_night_entry : string := "첫 밤은 평화롭게 지나갔습니다.".

(** [counts[n] = v] on a dict kept in insertion order. *)
Fixpoint odict_set (n : string) (v : nat) (d : list (string * nat))
  : list (string * nat) :=
  match d with
  | [] => [(n, v)]
  | (k, w) :: rest =>
      if bool_decide (k = n) then (k, v) :: rest
      else (k, w) :: odict_set n v rest
  end.

Definition odict_get (n : string) (d : list (string * nat)) : nat :=
  default 0 (snd <$> head (filter (λ kv, kv.1 = n) d)).

(** The result is the returned name, the state after the call and the
    rest of the random source; the outer [None] stands for an exception
    ([random.choice] on an empty pool), which never happens. *)
Definition mafia_kill (gs : GameState) (g : Random.Rng)
  : option (option string * GameState * Random.Rng) :=
  if bool_decide (round gs = 1%Z) then
    Some (None, log_append first_night_entry gs, g)
  else
    match get_current_mafia gs with
    | None | Some "" => Some (None, gs, g)
    | Some mafia_name =>
        let living := alive_players gs in
        let candidates := filter (λ n, n ≠ mafia_name) living in
        match candidates with
        | [] => Some (None, gs, g)
        | _ =>
            let counts := foldl (λ c n, odict_set n 0 c) [] candidates in
            let hist := dialogue_history gs in
            let window := drop (length hist - 30) hist in
            let counts :=
              foldl (λ c line,
                       foldl (λ c n,
                                if PyStr.contains n line
                                then odict_set n (odict_get n c + 1) c
                                else c) c candidates)
                    counts window in
            '(pick, g') ←
              (if bool_decide (Exists (λ kv, kv.2 ≠ 0) counts) then
                 let top := max_list counts.*2 in
                 let pool := (filter (λ kv, kv.2 = top) counts).*1 in
                 Random.choice pool g
               else Random.choice candidates g);
            match players_get pick (players gs) with
            | None => Some (None, gs, g')
            | Some p =>
                if negb (alive p) then Some (None, gs, g')
                else
                  gs1 ← set_alive pick false gs;
                  Some (Some pick,
                        log_append ("밤에 " +:+ pick +:+ "이(가) 사망했습니다.")
                          gs1,
                        g')
            end
        end
    end.

(** ** top_two_mentions *)

(** [counts.get(x, 0)] *)
Definition get0 (counts : gmap string nat) (x : string) : nat :=
  default 0 (counts !! x).

(** The order of the sort key [(-counts.get(x, 0), x)]. *)
Definition rank_le (counts : gmap string nat) (a b : string) : Prop :=
  (get0 counts b < get0 counts a)%nat ∨
  (get0 counts a = get0 counts b ∧ PyStr.le a b).

#[global] Instance rank_le_dec counts a b : Decision (rank_le counts a b).
Proof. unfold rank_le. apply _. Defined.

Definition top_two_mentions (gs : GameState) (g : Random.Rng)
  : list string * Random.Rng :=
  let living := filter (λ n, n ≠ human) (alive_players gs) in
  if bool_decide (length living ≤ 2)%nat then (living, g)
  else
    let counts := mention_counts_for_today gs in
    let ranked := merge_sort (rank_le counts) living in
    let top2 := take 2 (filter (λ n, (0 < get0 counts n)%nat) ranked) in
    if bool_decide (length top2 < 2)%nat then
      let pool := filter (λ n, n ∉ top2) living in
      let '(pool', g') := Random.shuffle pool g in
      ((top2 ++ take (2 - length top2) pool')%list, g')
    else (top2, g).

(** ** tally_votes_plurality *)

Definition default_no_lynch_label : string := "무처형".

(** [counter[t] = counter.get(t, 0) + 1] *)
Definition count_vote (t : string) (counter : gmap string nat)
  : gmap string nat :=
  <[t := (get0 counter t + 1)%nat]> counter.

(** One iteration of the loop over [v_dict.items()]. *)
Definition tally_step (valid_targets : gset string) (no_lynch_label : string)
    (counter : gmap string nat) (ballot : string * string)
  : gmap string nat :=
  let target := ballot.2 in
  if bool_decide (target = no_lynch_label) then
    count_vote no_lynch_label counter
  else if bool_decide (target ∈ valid_targets) then
    count_vote target counter
  else counter.

(** [v_dict] is given by its items [(voter, target)] in iteration order. *)
Definition tally_votes_plurality (v_dict : list (string * string))
    (alive_people : list string) (allow_no_lynch : bool)
    (no_lynch_label : string) : option string * gmap string nat :=
  let valid_targets : gset string := list_to_set alive_people in
  let counter := foldl (tally_step valid_targets no_lynch_label) ∅ v_dict in
  if bool_decide (counter = ∅) then (None, ∅)
  else
    let top_cnt := max_list (map_to_list counter).*2 in
    let top_names :=
      merge_sort PyStr.le
        (filter (λ nc, nc.2 = top_cnt) (map_to_list counter)).*1 in
    match top_names with
    | [top_name] =>
        if allow_no_lynch && bool_decide (top_name = no_lynch_label)
        then (None, counter)
        else
          let executed :=
            if bool_decide (top_name ∈ valid_targets)
            then Some top_name else None in
          (executed, counter)
    | _ => (None, counter)   (* len(top_names) != 1 *)
    end.

End MafiaCore.

(** ** main.py: the discussion helpers *)

Module Main.
Import MafiaCore.

Definition FALLBACKS : list string :=
  ["(주위를 살핀다.)";
   "(눈을 피한다.)";
   "(작게 한숨을 쉰다.)";
   "(입술을 깨문다.)";
   "(아무 말 없이 분위기를 살핀다.)";
   "(잠시 침묵이 흐른다...)";
   "(의심스러운 표정으로 주변을 바라본다.)"].

Definition GENERIC_PHRASES : gset string :=
  list_to_set
    ["저도 마찬가지입니다."; "동의합니다."; "단결해서 이 위기를 헤쳐나가자구요.";
     "항상 경계심을 가져야 합니다."; "조심해야 해요."; "믿고 단합합시다."].

(** A JSON value of the reply, as [day_discuss] looks at it: a string, or
    a value of another type (null, a boolean, a number, a list, an object),
    of which only the truth value matters. *)
Inductive Value := VStr (s : string) | VOther (truth : bool).

(** One element of the reply's [character_lines].  On an object,
    [item.get("name")] and [item.get("line")] give the value under the key,
    [None] when the key is absent; on an element of any other type
    [item.get] raises. *)
Inductive Item :=
  | mkItem (item_name item_line : option Value)
  | NotAnObject.

(** [data.get("character_lines", [])], as the [for] loop sees it.  A list
    gives its elements, a string its characters and an object its keys
    (none of these is an object); an absent key gives no element; a number,
    a boolean or null cannot be iterated. *)
Inductive CharacterLines :=
  | Elements (items : list Item)
  | NotIterable.

(** [bool(v)] for the result of [item.get]. *)
Definition truthy (v : option Value) : bool :=
  match v with
  | None => false
  | Some (VStr s) => negb (bool_decide (s = ""))
  | Some (VOther truth) => truth
  end.

Section Discuss.

(** [str.strip] of the runtime. *)
Variable strip : string → string.

(** [None] stands for an exception; the function never raises. *)
Definition _anti_repeat_line (gs : GameState) (name line : string)
    (g : Random.Rng) : option (string * Random.Rng) :=
  let last := default "" (last_line_by_name gs !! name) in
  let norm := strip line in
  if bool_decide (norm = "") || bool_decide (norm ∈ GENERIC_PHRASES)
     || bool_decide (norm = last)
  then Random.choice FALLBACKS g
  else Some (norm, g).

(** The first loop of [_ensure_all_speak]. *)
Fixpoint fix_lines (gs : GameState) (pairs : list (string * string))
    (out : list (string * string)) (g : Random.Rng)
  : option (list (string * string) * Random.Rng) :=
  match pairs with
  | [] => Some (out, g)
  | (n, l) :: rest =>
      '(fixed, g') ← _anti_repeat_line gs n l g;
      fix_lines gs rest (out ++ [(n, fixed)]) g'
  end.

(** The second loop of [_ensure_all_speak]. *)
Fixpoint backfill (spoken : gset string) (living : list string)
    (out : list (string * string)) (g : Random.Rng)
  : option (list (string * string) * Random.Rng) :=
  match living with
  | [] => Some (out, g)
  | name :: rest =>
      if bool_decide (name = human) then backfill spoken rest out g
      else if bool_decide (name ∉ spoken) then
        '(line, g') ← Random.choice FALLBACKS g;
        backfill spoken rest (out ++ [(name, line)]) g'
      else backfill spoken rest out g
  end.

Definition _ensure_all_speak (gs : GameState)
    (pairs : list (string * string)) (g : Random.Rng)
  : option (list (string * string) * Random.Rng) :=
  let spoken : gset string := list_to_set pairs.*1 in
  '(out, g') ← fix_lines gs pairs [] g;
  backfill spoken (alive_players gs) out g'.

(** The first loop of [day_discuss]; [None] stands for the exception of
    [item.get] on an element that is not an object.  A name that is not a
    string is not in [gs.alive_players()]. *)
Fixpoint collect (gs : GameState) (items : list Item)
    (pairs : list (string * Value)) : option (list (string * Value)) :=
  match items with
  | [] => Some pairs
  | NotAnObject :: _ => None
  | mkItem name line :: rest =>
      match name, line with
      | Some (VStr n), Some l =>
          if bool_decide (n ∈ alive_players gs) && bool_decide (n ≠ human)
             && truthy line
          then collect gs rest (pairs ++ [(n, l)])
          else collect gs rest pairs
      | _, _ => collect gs rest pairs
      end
  end.

(** The pairs as [_ensure_all_speak] is annotated to take them.  A line
    that is not a string lets its first loop raise, at
    [(line or "").strip()] in [_anti_repeat_line]: the line is truthy, and
    no value of another JSON type has a [strip].  [None] stands for this
    exception; [day_discuss] has written nothing when it is raised. *)
Definition typed (pairs : list (string * Value))
  : option (list (string * string)) :=
  mapM (λ nl, match nl.2 with
              | VStr l => Some (nl.1, l)
              | VOther _ => None
              end) pairs.

(** The pairs [day_discuss] hands to [_ensure_all_speak]. *)
Definition accepted (gs : GameState) (items : list Item)
  : option (list (string * string)) :=
  pairs ← collect gs items []; typed pairs.

(** [gs.dialogue_history.append(f"{name}: {line}");
     gs.last_line_by_name[name] = line] *)
Definition say (gs : GameState) (nl : string * string) : GameState :=
  mkGameState (round gs) (phase gs) (players gs) (log gs)
    (dialogue_history gs ++ [nl.1 +:+ ": " +:+ nl.2])
    (<[nl.1 := nl.2]> (last_line_by_name gs))
    (dialogue_round_start_idx gs).

(** [day_discuss], with the reply of the text service ([data], the
    value of [character_lines]) as an input.  The result carries the
    pairs written to the transcript in this turn; [None] stands for an
    exception, which leaves the state as it was. *)
Definition day_discuss (gs : GameState) (data : CharacterLines)
    (g : Random.Rng)
  : option (list (string * string) * GameState * Random.Rng) :=
  match data with
  | NotIterable => None
  | Elements items =>
      pairs ← accepted gs items;
      '(pairs, g') ← _ensure_all_speak gs pairs g;
      Some (pairs, foldl say gs pairs, g')
  end.

End Discuss.

End Main.

(** ** memory.py: the sanitizing pass

    Here a Python [str] is the list of its code points, because the pass is
    about code points that UTF-8 cannot encode (lone surrogates). *)

Module Memory.

Open Scope Z_scope.

Definition is_surrogate (c : Z) : bool := (0xD800 <=? c) && (c <=? 0xDFFF).

(** The UTF-8 encoding of one code point; the empty list where the
    [ignore] handler drops it (a surrogate).  Values outside
    [0 .. 0x10FFFF] are not code points; a [str] never holds one. *)
Definition utf8_encode_cp (c : Z) : list Z :=
  if c <? 0 then []
  else if c <? 0x80 then [c]
  else if c <? 0x800 then [0xC0 + c / 64; 0x80 + c mod 64]
  else if c <? 0x10000 then
    if is_surrogate c then []
    else [0xE0 + c / 4096; 0x80 + (c / 64) mod 64; 0x80 + c mod 64]
  else if c <? 0x110000 then
    [0xF0 + c / 262144; 0x80 + (c / 4096) mod 64;
     0x80 + (c / 64) mod 64; 0x80 + c mod 64]
  else [].

(** [s.encode("utf-8", "ignore")] *)
Definition encode_ignore (s : list Z) : list Z :=
  flat_map utf8_encode_cp s.

Definition is_cont (b : Z) : bool := (0x80 <=? b) && (b <=? 0xBF).

Definition in_range (lo hi b : Z) : bool := (lo <=? b) && (b <=? hi).

(** The second byte allowed after a three-byte lead. *)
Definition second3 (b0 b1 : Z) : bool :=
  if b0 =? 0xE0 then in_range 0xA0 0xBF b1
  else if b0 =? 0xED then in_range 0x80 0x9F b1
  else is_cont b1.

(** The second byte allowed after a four-byte lead. *)
Definition second4 (b0 b1 : Z) : bool :=
  if b0 =? 0xF0 then in_range 0x90 0xBF b1
  else if b0 =? 0xF4 then in_range 0x80 0x8F b1
  else is_cont b1.

(** [b.decode("utf-8", "ignore")]: a byte that does not start a
    well-formed sequence is skipped. *)
Fixpoint decode_ignore (bs : list Z) : list Z :=
  match bs with
  | [] => []
  | b0 :: r0 =>
      if in_range 0 0x7F b0 then b0 :: decode_ignore r0
      else if in_range 0xC2 0xDF b0 then
        match r0 with
        | b1 :: r1 =>
            if is_cont b1
            then ((b0 - 0xC0) * 64 + (b1 - 0x80)) :: decode_ignore r1
            else decode_ignore r0
        | _ => decode_ignore r0
        end
      else if in_range 0xE0 0xEF b0 then
        match r0 with
        | b1 :: b2 :: r2 =>
            if second3 b0 b1 && is_cont b2
            then ((b0 - 0xE0) * 4096 + (b1 - 0x80) * 64 + (b2 - 0x80))
                   :: decode_ignore r2
            else decode_ignore r0
        | _ => decode_ignore r0
        end
      else if in_range 0xF0 0xF4 b0 then
        match r0 with
        | b1 :: b2 :: b3 :: r3 =>
            if second4 b0 b1 && is_cont b2 && is_cont b3
            then ((b0 - 0xF0) * 262144 + (b1 - 0x80) * 4096
                  + (b2 - 0x80) * 64 + (b3 - 0x80)) :: decode_ignore r3
            else decode_ignore r0
        | _ => decode_ignore r0
        end
      else decode_ignore r0
  end.

(** The code points that UTF-8 encodes: all but the surrogates. *)
Definition encodable (c : Z) : bool :=
  (0 <=? c) && (c <? 0x110000) && negb (is_surrogate c).

(** [_clean_str] on a [str] argument. *)
Definition _clean_str (s : list Z) : list Z :=
  decode_ignore (encode_ignore s).

Section Objects.

(** Every value that is not [None], a [str], a [dict], a [list], a
    [tuple] or a [set]: numbers and booleans, but also frozensets, byte
    strings and objects of other classes, with the equality that
    dictionaries and sets use on such values. *)
Variable atom : Type.
Variable atom_eqb : atom → atom → bool.

Unset Elimination Schemes.
Inductive pyobj :=
| PNone
| PStr (s : list Z)
| PDict (items : list (pyobj * pyobj))   (* in insertion order *)
| PList (xs : list pyobj)
| PTuple (xs : list pyobj)
| PSet (xs : list pyobj)                 (* in iteration order *)
| PAtom (a : atom).
Set Elimination Schemes.

(** The comparison a dictionary or a set makes between two keys.
    Lists, dictionaries and sets are unhashable and never are keys. *)
Fixpoint key_eqb (a b : pyobj) {struct a} : bool :=
  match a, b with
  | PNone, PNone => true
  | PStr s, PStr t => bool_decide (s = t)
  | PAtom x, PAtom y => atom_eqb x y
  | PTuple xs, PTuple ys =>
      (fix all2 (xs ys : list pyobj) {struct xs} : bool :=
         match xs, ys with
         | [], [] => true
         | x :: xs', y :: ys' => key_eqb x y && all2 xs' ys'
         | _, _ => false
         end) xs ys
  | _, _ => false
  end.

(** [d[k] = v]: an equal key keeps its place and its key object. *)
Fixpoint dict_set (k v : pyobj) (d : list (pyobj * pyobj))
  : list (pyobj * pyobj) :=
  match d with
  | [] => [(k, v)]
  | (k', v') :: rest =>
      if key_eqb k' k then (k', v) :: rest
      else (k', v') :: dict_set k v rest
  end.

(** [{k: v for k, v in items}] *)
Definition dict_of (items : list (pyobj * pyobj)) : list (pyobj * pyobj) :=
  foldl (λ d kv, dict_set kv.1 kv.2 d) [] items.

(** [s.add(x)] *)
Fixpoint set_add (x : pyobj) (s : list pyobj) : list pyobj :=
  match s with
  | [] => [x]
  | y :: rest => if key_eqb y x then y :: rest else y :: set_add x rest
  end.

(** [set(t)] *)
Definition set_of (t : list pyobj) : list pyobj :=
  foldl (λ s x, set_add x s) [] t.

Fixpoint _sanitize (obj : pyobj) : pyobj :=
  match obj with
  | PNone => PNone
  | PStr s => PStr (_clean_str s)
  | PDict items =>
      PDict (dict_of (map (λ kv, (_sanitize kv.1, _sanitize kv.2)) items))
  | PList xs => PList (map _sanitize xs)
  | PTuple xs => PTuple (map _sanitize xs)
  | PSet xs => PSet (set_of (map _sanitize xs))
  | PAtom a => PAtom a
  end.

(** No element is equal, as a key, to one inserted before it. *)
Definition distinct (s : list pyobj) : Prop :=
  ∀ i x, s !! i = Some x → existsb (λ y, key_eqb y x) (take i s) = false.

(** The structural shape of a value. *)
Inductive Shape :=
  SNone | SStr | SMapping | SList | STuple | SSet | SAtom.

Definition shape (obj : pyobj) : Shape :=
  match obj with
  | PNone => SNone
  | PStr _ => SStr
  | PDict _ => SMapping
  | PList _ => SList
  | PTuple _ => STuple
  | PSet _ => SSet
  | PAtom _ => SAtom
  end.

End Objects.

Arguments PNone {atom}.
Arguments PStr {atom} s.
Arguments PDict {atom} items.
Arguments PList {atom} xs.
Arguments PTuple {atom} xs.
Arguments PSet {atom} xs.
Arguments PAtom {atom} a.
Arguments shape {atom} obj.

End Memory.

(** ** Notions used to state the properties *)

Module Votes.

(** A ballot counts when its target is the no-lynch label or is living. *)
Definition valid_target (living : list string) (label t : string) : Prop :=
  t = label ∨ t ∈ living.

#[global] Instance valid_target_dec living label t :
  Decision (valid_target living label t).
Proof. unfold valid_target. apply _. Defined.

(** The ballots of [v_dict] that count. *)
Definition valid_votes (v_dict : list (string * string))
    (living : list string) (label : string) : list (string * string) :=
  filter (λ b, valid_target living label b.2) v_dict.

(** The number of valid ballots cast for [t]. *)
Definition votes_for (v_dict : list (string * string))
    (living : list string) (label t : string) : nat :=
  length (filter (λ b, b.2 = t) (valid_votes v_dict living label)).

(** Every key of the counter holds a positive count. *)
Definition positive (c : gmap string nat) : Prop :=
  ∀ k n, c !! k = Some n → (0 < n)%nat.

(** The counter that the loop of [tally_votes_plurality] builds. *)
Definition counter_of (living : list string) (label : string)
    (v : list (string * string)) : gmap string nat :=
  foldl (MafiaCore.tally_step (list_to_set living) label) ∅ v.

(** The names that hold the highest count of a counter. *)
Definition top_names_of (c : gmap string nat) : list string :=
  merge_sort PyStr.le
    (filter (λ nc, nc.2 = max_list (map_to_list c).*2) (map_to_list c)).*1.

End Votes.

(** ** Concrete game states *)

Module Scenarios.
Import MafiaCore.

(** The opening state of a game in which 수아 drew the mafia role. *)
Definition opening_state : GameState :=
  mkGameState 1 NIGHT
    [("당신", mkPlayer "당신" "CITIZEN" true);
     ("민수", mkPlayer "민수" "CITIZEN" true);
     ("지연", mkPlayer "지연" "CITIZEN" true);
     ("현우", mkPlayer "현우" "CITIZEN" true);
     ("수아", mkPlayer "수아" "MAFIA" true);
     ("하린", mkPlayer "하린" "CITIZEN" true);
     ("태훈", mkPlayer "태훈" "CITIZEN" true)]
    [] [] ∅ 0.

(** The second day.  In the day window, which opened at index 1, the names
    민수 and 지연 occur twice each (a speaker prefix counts) and 태훈 once. *)
Definition second_day_state : GameState :=
  mkGameState 2 DAY_DISCUSS
    [("당신", mkPlayer "당신" "CITIZEN" true);
     ("민수", mkPlayer "민수" "CITIZEN" true);
     ("지연", mkPlayer "지연" "CITIZEN" true);
     ("현우", mkPlayer "현우" "CITIZEN" false);
     ("수아", mkPlayer "수아" "MAFIA" true);
     ("하린", mkPlayer "하린" "CITIZEN" true);
     ("태훈", mkPlayer "태훈" "CITIZEN" true)]
    ["첫 밤은 평화롭게 지나갔습니다."; "밤에 현우이(가) 사망했습니다."]
    ["하린: 수아가 수상합니다.";
     "당신: 지연 씨, 어젯밤에 뭐 했어요?";
     "민수: 지연이 말을 돌리네요.";
     "태훈: 민수도 조용했습니다."]
    ∅ 1.

(** A day on which only the human player has spoken yet.  In the day
    window, which opened at index 1, the only name of a living AI player
    is 민수; the line before the window names 하린 and 수아. *)
Definition quiet_day_state : GameState :=
  mkGameState 2 DAY_DISCUSS
    [("당신", mkPlayer "당신" "CITIZEN" true);
     ("민수", mkPlayer "민수" "CITIZEN" true);
     ("지연", mkPlayer "지연" "CITIZEN" true);
     ("현우", mkPlayer "현우" "CITIZEN" false);
     ("수아", mkPlayer "수아" "MAFIA" true);
     ("하린", mkPlayer "하린" "CITIZEN" true);
     ("태훈", mkPlayer "태훈" "CITIZEN" true)]
    ["첫 밤은 평화롭게 지나갔습니다."; "밤에 현우이(가) 사망했습니다."]
    ["하린: 수아가 수상합니다.";
     "당신: 민수 씨, 어젯밤에 뭐 했어요?"]
    ∅ 1.

(** A roster with a single mafia in which nobody is alive. *)
Definition all_dead_roster : GameState :=
  mkGameState 3 NIGHT
    [("당신", mkPlayer "당신" "CITIZEN" false);
     ("민수", mkPlayer "민수" "MAFIA" false);
     ("지연", mkPlayer "지연" "CITIZEN" false)]
    [] [] ∅ 0.

(** The first reading of the win rule: each outcome is returned exactly
    when its condition holds. *)
Definition check_win_as_stated (gs : GameState) : Prop :=
  (check_win gs = Some "CITIZEN_WIN" ↔ mafia_alive gs = 0%nat) ∧
  (check_win gs = Some "MAFIA_WIN" ↔
     (citizen_alive gs ≤ mafia_alive gs)%nat) ∧
  (check_win gs = None ↔
     mafia_alive gs ≠ 0%nat ∧ (mafia_alive gs < citizen_alive gs)%nat).

End Scenarios.

(** ** Counting transcript entries *)

Module Turn.
Import MafiaCore Main.

(** How often [n] occurs in a list of names. *)
Definition occurrences (n : string) (l : list string) : nat :=
  length (filter (λ x, x = n) l).


(** A reply is well typed when [character_lines] is a list of objects in
    which every line offered for a living AI player is a string, or is
    absent or falsy. *)
Definition well_typed_item (gs : GameState) (it : Item) : Prop :=
  match it with
  | NotAnObject => False
  | mkItem (Some (VStr n)) (Some (VOther true)) => n ∉ alive_ai gs
  | mkItem _ _ => True
  end.

#[global] Instance well_typed_item_dec gs it : Decision (well_typed_item gs it).
Proof. destruct it as [[[n|b]|] [[l|[|]]|]|]; simpl; apply _. Defined.

Definition well_typed (gs : GameState) (data : CharacterLines) : Prop :=
  match data with
  | NotIterable => False
  | Elements items => Forall (well_typed_item gs) items
  end.

(** The line that an element of the reply proposes: a non-empty string
    for a living AI player. *)
Definition proposal (gs : GameState) (it : Item) : option (string * string) :=
  match it with
  | mkItem (Some (VStr n)) (Some (VStr l)) =>
      if decide (n ∈ alive_ai gs ∧ l ≠ "") then Some (n, l) else None
  | _ => None
  end.


(** A proposal is kept, stripped, when it is then neither empty nor a generic
    phrase nor the last line of its speaker; otherwise a fallback phrase
    replaces it. *)
Definition kept (strip : string → string) (gs : GameState)
    (pr : string * string) : Prop :=
  strip pr.2 ≠ "" ∧ (strip pr.2 ∉ GENERIC_PHRASES) ∧
  strip pr.2 ≠ default "" (last_line_by_name gs !! pr.1).

#[global] Instance kept_dec strip gs pr : Decision (kept strip gs pr).
Proof. unfold kept. apply _. Defined.

(** The random source after [k] draws. *)
Definition later (k : nat) (g : Random.Rng) : Random.Rng := λ i, g (k + i)%nat.

(** The phrase of the fallback pool that a raw draw selects. *)
Definition fallback (draw : nat) : string :=
  default "" (FALLBACKS !! (draw mod length FALLBACKS)%nat).

(** One fallback phrase for each name, by successive draws. *)
Definition backfilled (missing : list string) (g : Random.Rng)
  : list (string * string) :=
  imap (λ k n, (n, fallback (g k))) missing.




(** A reply that holds one line, for 지연. *)
Definition reply_with_one : CharacterLines :=
  Elements [mkItem (Some (VStr "지연")) (Some (VStr "민수가 수상합니다."))].


(** A reply in which the line for 민수 is a number. *)
Definition reply_with_number : CharacterLines :=
  Elements [mkItem (Some (VStr "민수")) (Some (VOther true))].

End Turn.

(** ** The night kill, taken apart *)

Module Night.
Import MafiaCore.

(** The transcript lines that [mafia_kill] scans: the last 30. *)
Definition window (gs : GameState) : list string :=
  drop (length (dialogue_history gs) - 30) (dialogue_history gs).

(** The number of lines that contain the name [n]. *)
Definition mentions (n : string) (w : list string) : nat :=
  length (filter (λ line, PyStr.contains n line = true) w).

(** The inner loop of [mafia_kill] for one line. *)
Definition tick (candidates : list string) (c : list (string * nat))
    (line : string) : list (string * nat) :=
  foldl (λ c n, if PyStr.contains n line
                then odict_set n (odict_get n c + 1) c else c) c candidates.

(** The counts [mafia_kill] holds after its loops. *)
Definition night_counts (candidates w : list string) : list (string * nat) :=
  foldl (tick candidates) (foldl (λ c n, odict_set n 0 c) [] candidates) w.

(** The choice of the victim among the candidates. *)
Definition pick_victim (candidates w : list string) (g : Random.Rng)
  : option (string * Random.Rng) :=
  let counts := night_counts candidates w in
  if bool_decide (Exists (λ kv, kv.2 ≠ 0) counts) then
    let top := max_list counts.*2 in
    let pool := (filter (λ kv, kv.2 = top) counts).*1 in
    Random.choice pool g
  else Random.choice candidates g.

(** The log entry of a night kill. *)
Definition death_entry (pick : string) : string :=
  "밤에 " +:+ pick +:+ "이(가) 사망했습니다.".

(** The state after [pick], stored as [p], died in the night. *)
Definition after_kill (pick : string) (p : Player) (gs : GameState)
  : GameState :=
  log_append (death_entry pick)
    (set_players
       (players_set pick (mkPlayer (name p) (role p) false) (players gs)) gs).

End Night.

(** ** The day window *)

Module Mentions.
Import MafiaCore.

(** The day window: the transcript from the day's start index on. *)
Definition day_window (gs : GameState) : list string :=
  PyStr.slice_from (dialogue_round_start_idx gs) (dialogue_history gs).

(** The occurrences of a name in all lines of a window. *)
Definition total_count (n : string) (w : list string) : nat :=
  sum_list (_count_name_in_line n <$> w).

End Mentions.

(** ** The draws of a shuffle *)

Module Draws.

(** The bounded draws that [shuffle_from i] makes, [randbelow(i + 1)] down
    to [randbelow(2)]. *)
Fixpoint draws_from (i : nat) (g : Random.Rng) : list nat :=
  match i with
  | 0 => []
  | S i' => (g 0 mod S i)%nat :: draws_from i' (Random.next g)
  end.

(** The bounded draws of [random.shuffle] on a list of length [n]. *)
Definition draws_of (n : nat) (g : Random.Rng) : list nat :=
  draws_from (n - 1) g.

(** All values that the draws of [shuffle_from i] can take. *)
Fixpoint vectors_from (i : nat) : list (list nat) :=
  match i with
  | 0 => [[]]
  | S i' => j ← seq 0 (S (S i')); (cons j) <$> vectors_from i'
  end.

(** All values that the draws of [random.shuffle] on a list of length [n]
    can take. *)
Definition draw_vectors (n : nat) : list (list nat) := vectors_from (n - 1).

(** A random source that yields the given draws. *)
Definition source_of (js : list nat) : Random.Rng := λ k, nth k js 0%nat.

End Draws.

(** ** The ranking by mentions *)

Module Ranking.
Import MafiaCore Turn Mentions.

(** The position at which Python's slice [l[i:]] starts on a list of length
    [len]: [i] itself, or [len + i] for a negative [i], and 0 when that is
    negative too. *)
Definition slice_start (i : Z) (len : nat) : nat :=
  Z.to_nat (if decide (i < 0)%Z then Z.of_nat len + i else i).

(** The lines of the transcript from the day's start index on. *)
Definition lines_today (gs : GameState) : list string :=
  drop (slice_start (dialogue_round_start_idx gs)
          (length (dialogue_history gs)))
       (dialogue_history gs).

(** The mention count of a name: its occurrences in the lines of today,
    once for each living AI player of that name, so none for a name that
    no living AI player bears. *)
Definition mentions (gs : GameState) (n : string) : nat :=
  (occurrences n (alive_ai gs) * total_count n (lines_today gs))%nat.

(** [a] is ranked no later than [b]: by descending count, then ascending
    name. *)
Definition ranks_before (count : string → nat) (a b : string) : Prop :=
  (count b < count a)%nat ∨ (count a = count b ∧ PyStr.le a b).

End Ranking.

(** ** Lines of a discussion turn *)

Module Lines.
Import Main.

(** A line that may be written: not empty and not a generic phrase. *)
Definition presentable (l : string) : Prop := l ≠ "" ∧ l ∉ GENERIC_PHRASES.

#[global] Instance presentable_dec l : Decision (presentable l).
Proof. unfold presentable. apply _. Defined.

End Lines.

(** ** main.py: the day vote *)

Module Vote.
Import MafiaCore.

(** [d[k] = v] on a dict of strings kept in insertion order. *)
Fixpoint vdict_set (k v : string) (d : list (string * string))
  : list (string * string) :=
  match d with
  | [] => [(k, v)]
  | (k', v') :: rest =>
      if bool_decide (k' = k) then (k', v) :: rest
      else (k', v') :: vdict_set k v rest
  end.

(** The order of the sort key [(-x[1], x[0])] on the items of a count
    table. *)
Definition item_le (a b : string * nat) : Prop :=
  (b.2 < a.2)%nat ∨ (a.2 = b.2 ∧ PyStr.le a.1 b.1).

#[global] Instance item_le_dec a b : Decision (item_le a b).
Proof. unfold item_le. apply _. Defined.

(** The counting loops of [ai_votes_by_rule]. *)
Definition rule_counts (candidates lines : list string)
  : list (string * nat) :=
  foldl (λ c line,
           foldl (λ c name,
                    if negb (bool_decide (name = ""))
                       && PyStr.contains name line
                    then odict_set name (odict_get name c + 1) c
                    else c) c candidates)
        (foldl (λ c n, odict_set n 0 c) [] candidates) lines.

(** The target that all AI players vote for. *)
Definition rule_top1 (gs : GameState) (allowed_choices : list string)
  : string :=
  let today_lines := dialogue_history gs in
  let candidates := filter (λ c, c ≠ "무처형") allowed_choices in
  let counts := rule_counts candidates today_lines in
  let ranked := merge_sort item_le counts in
  let first := match candidates with c :: _ => c | [] => "무처형" end in
  let top1 :=
    match ranked with
    | (n, c) :: _ => if bool_decide (0 < c)%nat then n else first
    | [] => first
    end in
  if bool_decide (top1 ∈ allowed_choices) then top1 else "무처형".

Definition ai_votes_by_rule (gs : GameState) (allowed_choices : list string)
  : list (string * string) :=
  let voters := filter (λ n, n ≠ human) (alive_players gs) in
  match voters with
  | [] => []
  | _ => let top1 := rule_top1 gs allowed_choices in
         foldl (λ d v, vdict_set v top1 d) [] voters
  end.

Definition set_phase (ph : Phase) (gs : GameState) : GameState :=
  mkGameState (round gs) ph (players gs) (log gs) (dialogue_history gs)
    (last_line_by_name gs) (dialogue_round_start_idx gs).

(** The ballots that the vote step of [main] hands to the tally, for the
    human's input [your]. *)
Definition ballots (gs : GameState) (your : string) : list (string * string) :=
  let alive_people := alive_players gs in
  let targets := filter (λ n, n ≠ human) alive_people in
  let allowed_choices := (targets ++ ["무처형"])%list in
  let your := if bool_decide (your ∈ allowed_choices) then your
              else "무처형" in
  let rule_votes := ai_votes_by_rule gs allowed_choices in
  foldl (λ d vt,
           if bool_decide (vt.1 ∈ targets)
              && bool_decide (vt.2 ∈ allowed_choices)
           then vdict_set vt.1 vt.2 d else d)
        [("당신", your)] rule_votes.

Definition executed_entry (x : string) : string :=
  "낮 투표로 " +:+ x +:+ "이(가) 처형되었습니다.".

Definition no_lynch_entry : string := "낮 투표 무처형.".

(** The vote step of the loop of [main], from [gs.phase = Phase.DAY_VOTE]
    to the log entry, for the human's input [your].  The result is the
    name the tally returned, the count table and the state; [None] stands
    for the [KeyError] of [gs.players[executed]]. *)
Definition day_vote (gs : GameState) (your : string)
  : option (option string * gmap string nat * GameState) :=
  let gs := set_phase DAY_VOTE gs in
  let alive_people := alive_players gs in
  let '(executed, counter) :=
    tally_votes_plurality (ballots gs your) alive_people true "무처형" in
  match executed with
  | None | Some "" => Some (executed, counter, log_append no_lynch_entry gs)
  | Some x =>
      gs1 ← set_alive x false gs;
      Some (executed, counter, log_append (executed_entry x) gs1)
  end.

End Vote.

(** ** memory.py: the store *)

Module Store.
Import Memory.

Open Scope Z_scope.

(** Python's slice [l[:i]] for an integer [i]. *)
Definition slice_to {A} (i : Z) (l : list A) : list A :=
  if i <? 0
  then take (Z.to_nat (Z.max 0 (Z.of_nat (length l) + i))) l
  else take (Z.to_nat i) l.

(** [sub] starts [l]. *)
Fixpoint starts_with (sub l : list Z) : bool :=
  match sub, l with
  | [], _ => true
  | a :: sub', b :: l' => (a =? b) && starts_with sub' l'
  | _ :: _, [] => false
  end.

(** [sub in l] *)
Fixpoint contains (sub l : list Z) : bool :=
  starts_with sub l ||
  match l with
  | [] => false
  | _ :: l' => contains sub l'
  end.

(** [l.split(sep, 1)] when [sep] occurs in [l]; [None] when it does not. *)
Fixpoint split_once (sep l : list Z) : option (list Z * list Z) :=
  if starts_with sep l then Some ([], drop (length sep) l)
  else match l with
       | [] => None
       | a :: l' => (λ ht, (a :: ht.1, ht.2)) <$> split_once sep l'
       end.

(** The fields of [MemoryStore.data] that the update functions below read
    or write.  The [quietness] table holds floats and is left out; none of
    these functions touches it. *)
Record Data := mkData {
  dialogue_history : list (list Z);
  dead : list (list Z);                    (* facts.dead *)
  revealed_roles : gmap (list Z) (list Z); (* facts.revealed_roles *)
  suspicions : gmap (list Z) Z;
  round_summaries : gmap (list Z) (list Z)
}.

(** [MemoryStore.__init__] before [_load]. *)
Definition empty_data : Data := mkData [] [] ∅ ∅ ∅.

Definition append_dialogue (line : list Z) (max_keep : Z) (d : Data) : Data :=
  let line := _clean_str line in
  let h := (dialogue_history d ++ [line])%list in
  let h := if Z.of_nat (length h) >? max_keep
           then PyStr.slice_from (- max_keep) h else h in
  mkData h (dead d) (revealed_roles d) (suspicions d) (round_summaries d).

Definition mark_dead (name : list Z) (d : Data) : Data :=
  let name := _clean_str name in
  if bool_decide (name ∈ dead d) then d
  else mkData (dialogue_history d) (dead d ++ [name]) (revealed_roles d)
              (suspicions d) (round_summaries d).

Definition reveal_role (name role : list Z) (d : Data) : Data :=
  mkData (dialogue_history d) (dead d)
         (<[_clean_str name := _clean_str role]> (revealed_roles d))
         (suspicions d) (round_summaries d).

Definition targets : list (list Z) :=
  [[0xBBFC; 0xC218]; [0xC9C0; 0xC5F0]; [0xD604; 0xC6B0];
   [0xC218; 0xC544]; [0xD558; 0xB9B0]; [0xD0DC; 0xD6C8]].

Definition marker_susang : list Z := [0xC218; 0xC0C1].   (* "수상" *)
Definition marker_uisim : list Z := [0xC758; 0xC2EC].    (* "의심" *)
Definition colon_space : list Z := [0x3A; 0x20].         (* ": " *)
Definition arrow : list Z := [0x2D; 0x3E].               (* "->" *)
Definition ellipsis : list Z := [0x2026].                (* "…" *)

(** The body of the loop over [targets] for one candidate. *)
Definition suspect (speaker text : list Z) (susp : gmap (list Z) Z)
    (cand : list Z) : gmap (list Z) Z :=
  if negb (bool_decide (cand = speaker)) && contains cand text
     && (contains marker_susang text || contains marker_uisim text)
  then let key := (speaker ++ arrow ++ cand)%list in
       <[key := default 0 (susp !! key) + 1]> susp
  else susp.

(** The body of the loop over [lines]. *)
Definition suspect_line (susp : gmap (list Z) Z) (l : list Z)
  : gmap (list Z) Z :=
  let l := _clean_str l in
  match split_once colon_space l with
  | None => susp                          (* ": " not in l *)
  | Some (speaker, text) => foldl (suspect speaker text) susp targets
  end.

Definition update_suspicions (lines : list (list Z)) (d : Data) : Data :=
  mkData (dialogue_history d) (dead d) (revealed_roles d)
         (foldl suspect_line (suspicions d) lines) (round_summaries d).

Section Formatting.

(** [str.strip] and the decimal form of an integer, of the runtime. *)
Variable strip : list Z → list Z.
Variable str_of_int : Z → list Z.

(** [f"Round{round_no}"] *)
Definition round_key (round_no : Z) : list Z :=
  ([0x52; 0x6F; 0x75; 0x6E; 0x64] ++ str_of_int round_no)%list.

(** The text [set_round_summary] stores; [summary] may be [None]. *)
Definition summary_text (summary : option (list Z)) (max_len : Z) : list Z :=
  let s := strip (_clean_str (default [] summary)) in
  if Z.of_nat (length s) >? max_len
  then (slice_to (max_len - 1) s ++ ellipsis)%list
  else s.

Definition set_round_summary (round_no : Z) (summary : option (list Z))
    (max_len : Z) (d : Data) : Data :=
  mkData (dialogue_history d) (dead d) (revealed_roles d) (suspicions d)
         (<[round_key round_no := summary_text summary max_len]>
            (round_summaries d)).

End Formatting.

End Store.

(** ** The strings of a nested value *)

Module Leaves.
Import Memory.

Section Leaves.

Context {atom : Type}.

(** What [_sanitize] reaches in a value: the strings under dictionaries
    (keys and values), lists, tuples and sets, which are to satisfy [P],
    and the values of every other type, which are to satisfy [Q].  A value
    of another type may hold strings itself (a frozenset, a byte string,
    an object of some class); nothing is said here about what it holds
    beyond [Q]. *)
Fixpoint reached (P : list Z → Prop) (Q : atom → Prop) (obj : pyobj atom)
  : Prop :=
  match obj with
  | PNone => True
  | PStr s => P s
  | PDict items =>
      (fix go (items : list (pyobj atom * pyobj atom)) : Prop :=
         match items with
         | [] => True
         | kv :: rest => reached P Q kv.1 ∧ reached P Q kv.2 ∧ go rest
         end) items
  | PList xs | PTuple xs | PSet xs =>
      (fix go (xs : list (pyobj atom)) : Prop :=
         match xs with
         | [] => True
         | x :: rest => reached P Q x ∧ go rest
         end) xs
  | PAtom a => Q a
  end.

(** A string that UTF-8 can encode. *)
Definition encodable_str (s : list Z) : Prop :=
  Forall (λ c, encodable c = true) s.

End Leaves.

(** A value of another type, for the examples: a frozenset of strings. *)
Definition frozenset_of_strings : Type := list (list Z).

(** A store entry with a lone surrogate in a key, in a list element and in
    a frozenset. *)
Definition tainted_entry : pyobj frozenset_of_strings :=
  PDict [(PStr [0x61; 0xD800],
          PList [PStr [0xDC00; 0x62]; PAtom [[0x61; 0xD800]]])].

End Leaves.

(** * Properties *)

Import MafiaCore Main Votes Scenarios Turn.

(** ** Plurality tally *)

Section Tally.

Context (living : list string) (label : string).

Let V : gset string := list_to_set living.

Lemma get0_insert_eq (c : gmap string nat) t n : get0 (<[t:=n]> c) t = n.
Proof. unfold get0. by rewrite lookup_insert_eq. Qed.

Lemma get0_insert_ne (c : gmap string nat) t u n :
  t ≠ u → get0 (<[t:=n]> c) u = get0 c u.
Proof. intros. unfold get0. by rewrite lookup_insert_ne. Qed.

Lemma tally_step_cases c b :
  (valid_target living label b.2 ∧
     tally_step V label c b = count_vote b.2 c) ∨
  (¬ valid_target living label b.2 ∧ tally_step V label c b = c).
Proof.
  unfold tally_step, valid_target, V.
  repeat case_bool_decide; subst; rewrite ?elem_of_list_to_set in *.
  - left. split; [by left|]. by f_equal.
  - left. split; [by right|done].
  - right. split; [tauto|done].
Qed.

Lemma count_vote_positive t c : positive c → positive (count_vote t c).
Proof.
  intros Hc k n. unfold count_vote.
  destruct (decide (t = k)) as [->|Hne].
  - rewrite lookup_insert_eq. intros [= <-]. lia.
  - rewrite lookup_insert_ne by done. apply Hc.
Qed.

Lemma tally_loop_spec v c :
  positive c →
  let c' := foldl (tally_step V label) c v in
  positive c' ∧
  ∀ t, get0 c' t = (get0 c t + votes_for v living label t)%nat.
Proof.
  revert c. induction v as [|b v IH]; intros c Hc; simpl.
  - split; [done|]. intros t. unfold votes_for. simpl. lia.
  - destruct (tally_step_cases c b) as [[Hv ->]|[Hv ->]].
    + destruct (IH (count_vote b.2 c)) as [Hp Hg];
        [by apply count_vote_positive|].
      split; [done|]. intros t. rewrite Hg.
      unfold votes_for, valid_votes.
      rewrite (filter_cons_True _ b v) by done.
      unfold count_vote.
      destruct (decide (b.2 = t)) as [<-|Hne].
      * rewrite get0_insert_eq, (filter_cons_True _ b) by done.
        simpl. lia.
      * rewrite get0_insert_ne, (filter_cons_False _ b) by done. lia.
    + destruct (IH c Hc) as [Hp Hg]. split; [done|]. intros t. rewrite Hg.
      unfold votes_for, valid_votes.
      by rewrite (filter_cons_False _ b v).
Qed.

Lemma counter_of_lookup v t :
  counter_of living label v !! t =
    if decide (votes_for v living label t = 0)%nat then None
    else Some (votes_for v living label t).
Proof.
  destruct (tally_loop_spec v ∅) as [Hp Hg];
    [by intros k n; rewrite lookup_empty|].
  specialize (Hg t). unfold counter_of. fold V.
  unfold get0 in Hg. rewrite lookup_empty in Hg. simpl in Hg.
  destruct (foldl _ ∅ v !! t) as [n|] eqn:E; simpl in Hg.
  - apply Hp in E. case_decide; [lia|]. by subst.
  - case_decide; [done|lia].
Qed.

Lemma counter_of_empty v :
  counter_of living label v = ∅ ↔ ∀ t, votes_for v living label t = 0%nat.
Proof.
  split.
  - intros E t. pose proof (counter_of_lookup v t) as H.
    rewrite E, lookup_empty in H. by case_decide.
  - intros H. apply map_eq. intros t.
    rewrite counter_of_lookup, lookup_empty, H. done.
Qed.

(** What [max] and the comprehension over [counter.items()] compute. *)
Lemma top_names_of_spec (c : gmap string nat) :
  c ≠ ∅ →
  let top := max_list (map_to_list c).*2 in
  NoDup (top_names_of c) ∧
  (∀ x, x ∈ top_names_of c ↔ c !! x = Some top) ∧
  (∃ k, c !! k = Some top) ∧
  (∀ k n, c !! k = Some n → (n ≤ top)%nat).
Proof.
  intros Hne top.
  assert (Hmem : ∀ x, x ∈ top_names_of c ↔ c !! x = Some top).
  { intros x. unfold top_names_of. rewrite merge_sort_Permutation.
    rewrite list_elem_of_fmap. split.
    - intros [[k n] [-> [Hn Hin]%list_elem_of_filter]]. simpl in *.
      apply elem_of_map_to_list in Hin. by subst.
    - intros Hx. exists (x, top). split; [done|].
      apply list_elem_of_filter. split; [done|].
      by apply elem_of_map_to_list. }
  split; [|split; [done|split]].
  - unfold top_names_of. rewrite merge_sort_Permutation.
    eapply sublist_NoDup; [apply (NoDup_fst_map_to_list c)|].
    apply fmap_sublist, sublist_filter.
  - assert (Hin : top ∈ (map_to_list c).*2).
    { apply max_list_elem_of. intros E.
      apply fmap_nil_inv in E. by apply map_to_list_empty_iff in E. }
    apply list_elem_of_fmap in Hin as [[k n] [-> Hin]].
    exists k. by apply elem_of_map_to_list.
  - intros k n Hk. apply max_list_elem_of_le.
    apply list_elem_of_fmap. exists (k, n). split; [done|].
    by apply elem_of_map_to_list.
Qed.

Lemma singleton_of_NoDup (l : list string) t :
  NoDup l → (∀ x, x ∈ l ↔ x = t) → l = [t].
Proof.
  intros Hnd Hl. apply Permutation_singleton_r.
  apply NoDup_Permutation; [done|apply NoDup_singleton|].
  intros x. by rewrite Hl, list_elem_of_singleton.
Qed.

(** A target strictly ahead of every other one is the only top name. *)
Lemma unique_top v t :
  (∀ t', t' ≠ t → votes_for v living label t' < votes_for v living label t)%nat →
  counter_of living label v ≠ ∅ ∧
  top_names_of (counter_of living label v) = [t].
Proof.
  intros Hmax.
  assert (Hpos : (0 < votes_for v living label t)%nat).
  { destruct (decide (t = "")) as [->|Hne].
    - specialize (Hmax "a" ltac:(done)). lia.
    - specialize (Hmax "" ltac:(done)). lia. }
  assert (Hne : counter_of living label v ≠ ∅).
  { intros E. rewrite counter_of_empty in E. specialize (E t). lia. }
  split; [done|].
  destruct (top_names_of_spec _ Hne) as (Hnd & Hmem & [k Hk] & Hle).
  apply singleton_of_NoDup; [done|]. intros x. rewrite Hmem.
  assert (Ht : counter_of living label v !! t
               = Some (votes_for v living label t)).
  { rewrite counter_of_lookup. case_decide; [lia|done]. }
  assert (Htop : max_list (map_to_list (counter_of living label v)).*2
                 = votes_for v living label t).
  { apply Hle in Ht as Hle1.
    rewrite counter_of_lookup in Hk. case_decide; [done|].
    injection Hk as Hk.
    destruct (decide (k = t)) as [->|Hkt]; [done|].
    specialize (Hmax k Hkt). lia. }
  rewrite Htop. split.
  - intros Hx. destruct (decide (x = t)) as [|Hxt]; [done|].
    rewrite counter_of_lookup in Hx. case_decide; [done|].
    injection Hx as Hx. specialize (Hmax x Hxt). lia.
  - by intros ->.
Qed.

(** Two targets sharing the highest count leave more than one top name. *)
Lemma tied_top v t1 t2 :
  t1 ≠ t2 →
  votes_for v living label t1 = votes_for v living label t2 →
  (∀ t, votes_for v living label t ≤ votes_for v living label t1)%nat →
  counter_of living label v = ∅ ∨
  (2 ≤ length (top_names_of (counter_of living label v)))%nat.
Proof.
  intros Hne Heq Hmax.
  destruct (decide (counter_of living label v = ∅)) as [|Hc]; [by left|].
  right.
  destruct (top_names_of_spec _ Hc) as (Hnd & Hmem & [k Hk] & Hle).
  assert (Htop : max_list (map_to_list (counter_of living label v)).*2
                 = votes_for v living label t1).
  { pose proof Hk as Hk'. rewrite counter_of_lookup in Hk'.
    case_decide; [done|]. injection Hk' as Hk'.
    assert (Hpos : votes_for v living label t1 ≠ 0%nat).
    { specialize (Hmax k). lia. }
    assert (Ht : counter_of living label v !! t1
                 = Some (votes_for v living label t1)).
    { rewrite counter_of_lookup. case_decide; [lia|done]. }
    apply Hle in Ht. specialize (Hmax k). lia. }
  assert (H1 : t1 ∈ top_names_of (counter_of living label v)).
  { apply Hmem. rewrite Htop, counter_of_lookup.
    case_decide as E; [|done].
    rewrite counter_of_lookup in Hk. rewrite Htop in Hk.
    case_decide; [done|]. injection Hk as Hk. specialize (Hmax k). lia. }
  assert (H2 : t2 ∈ top_names_of (counter_of living label v)).
  { apply Hmem. apply Hmem in H1. rewrite Htop in *.
    rewrite counter_of_lookup in *. rewrite <- Heq.
    by case_decide. }
  destruct (top_names_of (counter_of living label v)) as [|a [|b l]];
    simpl; [by apply elem_of_nil in H1| |lia].
  apply list_elem_of_singleton in H1, H2. congruence.
Qed.

Lemma tally_unfold v allow :
  tally_votes_plurality v living allow label =
    if bool_decide (counter_of living label v = ∅) then (None, ∅)
    else
      match top_names_of (counter_of living label v) with
      | [top_name] =>
          if allow && bool_decide (top_name = label)
          then (None, counter_of living label v)
          else
            (if bool_decide (top_name ∈ V) then Some top_name else None,
             counter_of living label v)
      | _ => (None, counter_of living label v)
      end.
Proof. reflexivity. Qed.

End Tally.

Lemma tally_counter v living allow label :
  (tally_votes_plurality v living allow label).2 = counter_of living label v.
Proof.
  rewrite tally_unfold. simpl. case_bool_decide as E; [by rewrite E|].
  destruct (top_names_of _) as [|a [|b l]]; [done| |done].
  by destruct (allow && _).
Qed.

Lemma votes_for_valid_votes v living label t :
  votes_for (valid_votes v living label) living label t
  = votes_for v living label t.
Proof.
  unfold votes_for, valid_votes. do 2 f_equal.
  induction v as [|b v IH]; [done|].
  destruct (decide (valid_target living label b.2)).
  - rewrite !filter_cons_True by done. by f_equal.
  - by rewrite !filter_cons_False by done.
Qed.

(** The vote map of the spec's scenario: B and C vote C, A votes no-lynch. *)
Lemma scenario_votes_for t :
  votes_for [("B", "C"); ("C", "C"); ("A", "무처형")] ["A"; "B"; "C"] "무처형" t
  = if decide (t = "C") then 2%nat
    else if decide (t = "무처형") then 1%nat else 0%nat.
Proof.
  unfold votes_for.
  change (valid_votes _ _ _) with [("B", "C"); ("C", "C"); ("A", "무처형")].
  rewrite !filter_cons, filter_nil. simpl.
  repeat case_decide; subst; try done; congruence.
Qed.

(** C2: a target of the living set, other than the no-lynch label, whose
    count of valid votes is strictly above every other target's is exactly
    the name [tally_votes_plurality] returns as executed. *)
Theorem tally_executes_unique_maximum v living allow label t :
  t ∈ living →
  t ≠ label →
  (∀ t', t' ≠ t →
     votes_for v living label t' < votes_for v living label t)%nat →
  (tally_votes_plurality v living allow label).1 = Some t.
Proof.
  intros Hliv Hlab Hmax. rewrite tally_unfold.
  destruct (unique_top living label v t Hmax) as [Hne ->]. simpl.
  rewrite bool_decide_eq_false_2 by done.
  rewrite (bool_decide_eq_false_2 (t = label)) by done.
  rewrite andb_false_r. simpl.
  rewrite bool_decide_eq_true_2; [done|]. by apply elem_of_list_to_set.
Qed.

Lemma tally_executes_unique_maximum_witness :
  (tally_votes_plurality [("B", "C"); ("C", "C"); ("A", "무처형")]
     ["A"; "B"; "C"] true "무처형").1 = Some "C".
Proof.
  apply tally_executes_unique_maximum.
  - set_solver.
  - done.
  - intros t' Hne. rewrite !scenario_votes_for.
    repeat case_decide; try done; lia.
Defined.

(** C3: when two or more targets share the highest count of valid votes
    nobody is executed, whichever names tie; nobody is executed either when
    the no-lynch label alone holds the highest count and [allow_no_lynch]
    is on. *)
Theorem tally_tie_or_no_lynch_executes_nobody v living allow label :
  (∀ t1 t2,
     t1 ≠ t2 →
     votes_for v living label t1 = votes_for v living label t2 →
     (∀ t, votes_for v living label t ≤ votes_for v living label t1)%nat →
     (tally_votes_plurality v living allow label).1 = None) ∧
  (allow = true →
   (∀ t', t' ≠ label →
      votes_for v living label t' < votes_for v living label label)%nat →
   (tally_votes_plurality v living allow label).1 = None).
Proof.
  split.
  - intros t1 t2 Hne Heq Hmax. rewrite tally_unfold. simpl.
    destruct (tied_top living label v t1 t2 Hne Heq Hmax) as [->|Hlen].
    + done.
    + case_bool_decide; [done|].
      destruct (top_names_of _) as [|a [|b l]]; [done| |done].
      simpl in Hlen. lia.
  - intros -> Hmax. rewrite tally_unfold.
    destruct (unique_top living label v label Hmax) as [Hne ->]. simpl.
    rewrite bool_decide_eq_false_2 by done.
    by rewrite bool_decide_eq_true_2.
Qed.

Lemma tally_tie_or_no_lynch_executes_nobody_witness :
  (tally_votes_plurality [("A", "B"); ("B", "A")] ["A"; "B"] true "무처형").1
    = None ∧
  (tally_votes_plurality [("A", "무처형"); ("B", "무처형"); ("C", "A")]
     ["A"; "B"; "C"] true "무처형").1 = None.
Proof.
  split.
  - apply (proj1 (tally_tie_or_no_lynch_executes_nobody
                    [("A", "B"); ("B", "A")] ["A"; "B"] true "무처형")
             "A" "B").
    + done.
    + reflexivity.
    + intros t. unfold votes_for.
      change (valid_votes _ _ _) with [("A", "B"); ("B", "A")].
      rewrite !filter_cons, filter_nil. simpl.
      repeat case_decide; subst; simpl; try done; try lia; congruence.
  - apply tally_tie_or_no_lynch_executes_nobody; [done|].
    intros t' Hne. unfold votes_for.
    change (valid_votes _ _ _)
      with [("A", "무처형"); ("B", "무처형"); ("C", "A")].
    rewrite !filter_cons, filter_nil. simpl.
    repeat case_decide; subst; simpl; try done; try lia; congruence.
Defined.

(** C7: the returned count map holds, for every target, the number of valid
    ballots cast for it and no key for a target without one; a ballot whose
    target is neither living nor the no-lynch label changes nothing (the
    result is that of the vote map without such ballots); and with no valid
    ballot at all the result is no execution and the empty count map. *)
Theorem tally_counts_only_valid_ballots v living allow label :
  (∀ t, (tally_votes_plurality v living allow label).2 !! t =
          if decide (votes_for v living label t = 0)%nat then None
          else Some (votes_for v living label t)) ∧
  tally_votes_plurality (valid_votes v living label) living allow label
    = tally_votes_plurality v living allow label ∧
  ((∀ b, b ∈ v → ¬ valid_target living label b.2) →
   tally_votes_plurality v living allow label = (None, ∅)).
Proof.
  assert (Hsame : counter_of living label (valid_votes v living label)
                  = counter_of living label v).
  { apply map_eq. intros t.
    by rewrite !counter_of_lookup, votes_for_valid_votes. }
  split; [|split].
  - intros t. rewrite tally_counter. apply counter_of_lookup.
  - by rewrite !tally_unfold, Hsame.
  - intros Hinv. rewrite tally_unfold.
    rewrite bool_decide_eq_true_2; [done|].
    apply counter_of_empty. intros t. unfold votes_for, valid_votes.
    replace (filter _ v) with (@nil (string * string)); [done|].
    symmetry. clear Hsame. induction v as [|b v IH]; [done|].
    rewrite filter_cons_False by (apply Hinv; left).
    apply IH. intros b' Hb'. apply Hinv. by right.
Qed.

Lemma tally_counts_only_valid_ballots_witness :
  tally_votes_plurality [("A", "Z"); ("B", "Q")] ["A"; "B"] true "무처형"
    = (None, ∅).
Proof.
  apply tally_counts_only_valid_ballots.
  apply Forall_forall.
  apply (bool_decide_unpack
           (Forall (λ b, ¬ valid_target ["A"; "B"] "무처형" b.2)
                   [("A", "Z"); ("B", "Q")])).
  vm_compute. exact I.
Defined.

(** C10: a name returned as executed is always a member of the living set
    passed in; so the no-lynch label, when it is not a living name, is
    never returned, whatever [allow_no_lynch] is. *)
Theorem tally_executed_is_living v living allow label :
  (∀ x, (tally_votes_plurality v living allow label).1 = Some x →
        x ∈ living) ∧
  (label ∉ living →
   (tally_votes_plurality v living allow label).1 ≠ Some label).
Proof.
  assert (H : ∀ x, (tally_votes_plurality v living allow label).1 = Some x →
                   x ∈ living).
  { intros x. rewrite tally_unfold.
    case_bool_decide; [done|].
    destruct (top_names_of _) as [|a [|b l]]; [done| |done].
    destruct (allow && _); [done|]. simpl.
    case_bool_decide as Hin; [|done].
    intros [= <-]. by apply elem_of_list_to_set in Hin. }
  split; [done|]. intros Hlab E. by apply H in E.
Qed.

Lemma tally_executed_is_living_witness :
  "C" ∈ ["A"; "B"; "C"] ∧
  (tally_votes_plurality [("A", "무처형"); ("B", "무처형")]
     ["A"; "B"] false "무처형").1 ≠ Some "무처형".
Proof.
  split.
  - apply (proj1 (tally_executed_is_living
                    [("B", "C"); ("C", "C"); ("A", "무처형")]
                    ["A"; "B"; "C"] true "무처형")).
    vm_compute. reflexivity.
  - apply tally_executed_is_living.
    apply (bool_decide_unpack ("무처형" ∉ ["A"; "B"])).
    vm_compute. exact I.
Defined.

(** ** Win detection *)

(** C1 as stated fails where nobody is alive: the citizens are declared
    winners although the living mafia count (0) is not below the living
    citizen count (0). *)
Lemma check_win_as_stated_fails : ¬ check_win_as_stated all_dead_roster.
Proof.
  intros (_ & [_ H] & _).
  assert (E : check_win all_dead_roster = Some "MAFIA_WIN").
  { apply H. vm_compute. lia. }
  vm_compute in E. discriminate.
Qed.

(** C1, amended: [check_win] returns CITIZEN_WIN exactly when no mafia is
    alive, MAFIA_WIN exactly when some mafia is alive and the living mafia
    are at least as many as the living citizens, and no winner otherwise;
    the two conditions "no living mafia" and "living mafia >= living
    citizens" hold together only when no citizen is alive either. *)
Theorem check_win_spec gs :
  (check_win gs = Some "CITIZEN_WIN" ↔ mafia_alive gs = 0%nat) ∧
  (check_win gs = Some "MAFIA_WIN" ↔
     mafia_alive gs ≠ 0%nat ∧ (citizen_alive gs ≤ mafia_alive gs)%nat) ∧
  (check_win gs = None ↔
     mafia_alive gs ≠ 0%nat ∧ (mafia_alive gs < citizen_alive gs)%nat) ∧
  (mafia_alive gs = 0%nat ∧ (citizen_alive gs ≤ mafia_alive gs)%nat ↔
     mafia_alive gs = 0%nat ∧ citizen_alive gs = 0%nat).
Proof.
  unfold check_win. repeat case_bool_decide; repeat split; intros;
    try done; try lia; try (destruct_and?; lia).
Qed.

(** ** Night resolution *)

(** C4: in round 1 [mafia_kill] returns no victim, appends the fixed
    peaceful-first-night entry to the event log and changes nothing else:
    the players (so every alive flag), the round, the phase, the transcript,
    the last-line cache, the day-window index and the random source are the
    same. *)
Theorem mafia_kill_first_night gs g :
  round gs = 1%Z →
  ∃ gs', mafia_kill gs g = Some (None, gs', g) ∧
         log gs' = (log gs ++ [first_night_entry])%list ∧
         players gs' = players gs ∧
         round gs' = round gs ∧
         phase gs' = phase gs ∧
         dialogue_history gs' = dialogue_history gs ∧
         last_line_by_name gs' = last_line_by_name gs ∧
         dialogue_round_start_idx gs' = dialogue_round_start_idx gs.
Proof.
  intros Hr. exists (log_append first_night_entry gs).
  unfold mafia_kill. rewrite bool_decide_eq_true_2 by done.
  repeat split.
Qed.

Lemma mafia_kill_first_night_witness :
  ∃ gs', mafia_kill opening_state (λ _, 0%nat) = Some (None, gs', λ _, 0%nat) ∧
         log gs' = (log opening_state ++ [first_night_entry])%list ∧
         players gs' = players opening_state ∧
         round gs' = round opening_state ∧
         phase gs' = phase opening_state ∧
         dialogue_history gs' = dialogue_history opening_state ∧
         last_line_by_name gs' = last_line_by_name opening_state ∧
         dialogue_round_start_idx gs' = dialogue_round_start_idx opening_state.
Proof. apply mafia_kill_first_night. reflexivity. Defined.

(** ** Game creation *)

Lemma ai_names :
  filter (λ n, n ≠ human) names = ["민수"; "지연"; "현우"; "수아"; "하린"; "태훈"].
Proof. reflexivity. Qed.

Ltac list_cases H :=
  repeat (apply elem_of_cons in H as [H|H]);
  [..|by apply elem_of_nil in H].

Ltac create_case pick :=
  eexists; exists pick;
  split; [reflexivity|];
  split; [reflexivity|];
  split; [reflexivity|];
  split; [apply list_elem_of_In; simpl; tauto|];
  split; [done|];
  split; [intros k p Hin; simpl in Hin; list_cases Hin;
          injection Hin as -> ->; by repeat split|];
  repeat split.

(** C5: [create_default_game] always returns a state; its players are the
    seven fixed names, each stored under its own name and alive; one
    AI-designated name is MAFIA and every other player, the human
    included, is CITIZEN; round is 1, phase is NIGHT, and the transcript,
    the event log and the last-line cache are empty. *)
Theorem create_default_game_spec g :
  ∃ gs pick,
    create_default_game g = Some (gs, Random.next g) ∧
    (players gs).*1 = names ∧
    length (players gs) = 7%nat ∧
    pick ∈ names ∧ pick ≠ human ∧
    (∀ k p, (k, p) ∈ players gs →
            name p = k ∧ alive p = true ∧
            role p = if decide (k = pick) then "MAFIA" else "CITIZEN") ∧
    players_get human (players gs) = Some (mkPlayer human "CITIZEN" true) ∧
    mafia_alive gs = 1%nat ∧ citizen_alive gs = 6%nat ∧
    round gs = 1%Z ∧ phase gs = NIGHT ∧
    dialogue_history gs = [] ∧ log gs = [] ∧
    last_line_by_name gs = ∅ ∧ dialogue_round_start_idx gs = 0%Z.
Proof.
  unfold create_default_game. rewrite ai_names.
  unfold Random.choice, Random.randbelow.
  change (length ["민수"; "지연"; "현우"; "수아"; "하린"; "태훈"]) with 6%nat.
  assert (Hlt : (g 0%nat mod 6 < 6)%nat) by (apply Nat.mod_upper_bound; lia).
  destruct (g 0%nat mod 6)%nat as [|[|[|[|[|[|n]]]]]]; [..|lia];
    simpl option_bind.
  - create_case "민수".
  - create_case "지연".
  - create_case "현우".
  - create_case "수아".
  - create_case "하린".
  - create_case "태훈".
Qed.

(** ** Discussion turn *)

Lemma choice_fallback g :
  ∃ line, Random.choice FALLBACKS g = Some (line, Random.next g).
Proof.
  unfold Random.choice, Random.randbelow, FALLBACKS.
  cbn [length]. 
  assert (Hlt : (g 0%nat mod 7 < 7)%nat) by (apply Nat.mod_upper_bound; lia).
  destruct (g 0%nat mod 7)%nat as [|[|[|[|[|[|[|n]]]]]]]; [..|lia];
    eexists; reflexivity.
Qed.

Section DiscussProofs.

Variable strip : string → string.

Lemma anti_repeat_total gs n l g :
  ∃ fixed g', _anti_repeat_line strip gs n l g = Some (fixed, g').
Proof.
  unfold _anti_repeat_line.
  destruct (_ || _); [|by eauto].
  destruct (choice_fallback g) as [line ->]. eauto.
Qed.

Lemma fix_lines_names gs pairs out g :
  ∃ fixed g', fix_lines strip gs pairs out g = Some ((out ++ fixed)%list, g') ∧
              fixed.*1 = pairs.*1.
Proof.
  revert out g. induction pairs as [|[n l] pairs IH]; intros out g;
    cbn [fix_lines].
  - exists [], g. by rewrite app_nil_r.
  - destruct (anti_repeat_total gs n l g) as (fx & g1 & ->). simpl.
    destruct (IH (out ++ [(n, fx)])%list g1) as (fixed & g2 & -> & Hn).
    exists ((n, fx) :: fixed), g2. split.
    + by rewrite <- app_assoc.
    + simpl. by f_equal.
Qed.

Lemma backfill_names (spoken : gset string) living out g :
  ∃ added g', backfill spoken living out g = Some ((out ++ added)%list, g') ∧
              added.*1 = filter (λ n, n ≠ human ∧ n ∉ spoken) living.
Proof.
  revert out g. induction living as [|n living IH]; intros out g;
    cbn [backfill].
  - exists [], g. by rewrite app_nil_r.
  - case_bool_decide as Hh.
    { destruct (IH out g) as (added & g' & -> & Hn).
      exists added, g'. split; [done|].
      rewrite filter_cons_False; [done|]. tauto. }
    case_bool_decide as Hs.
    + destruct (choice_fallback g) as [line ->]. simpl.
      destruct (IH (out ++ [(n, line)])%list (Random.next g))
        as (added & g' & -> & Hn).
      exists ((n, line) :: added), g'. split.
      * by rewrite <- app_assoc.
      * rewrite filter_cons_True by done. simpl. by f_equal.
    + destruct (IH out g) as (added & g' & -> & Hn).
      exists added, g'. split; [done|].
      rewrite filter_cons_False; [done|]. tauto.
Qed.

(** The speakers of the pairs [_ensure_all_speak] returns: those proposed,
    in order, then the living AI players that were not proposed. *)
Lemma ensure_all_speak_names gs pairs g :
  ∃ out g', _ensure_all_speak strip gs pairs g = Some (out, g') ∧
            out.*1 = (pairs.*1 ++
                      filter (λ n, n ≠ human ∧ n ∉ pairs.*1)
                             (alive_players gs))%list.
Proof.
  unfold _ensure_all_speak.
  destruct (fix_lines_names gs pairs [] g) as (fixed & g1 & -> & Hf). simpl.
  destruct (backfill_names (list_to_set pairs.*1) (alive_players gs) fixed g1)
    as (added & g2 & -> & Ha).
  exists (fixed ++ added)%list, g2. split; [done|].
  rewrite fmap_app, Hf, Ha. f_equal.
  apply list_filter_iff. intros n. by rewrite elem_of_list_to_set.
Qed.

End DiscussProofs.


Lemma occurrences_zero n l : occurrences n l = 0%nat ↔ n ∉ l.
Proof.
  unfold occurrences. induction l as [|x l IH]; simpl.
  - split; [intros _; apply not_elem_of_nil|done].
  - rewrite not_elem_of_cons. destruct (decide (x = n)) as [->|Hne].
    + rewrite filter_cons_True by done. simpl. split; [lia|tauto].
    + rewrite filter_cons_False by done. rewrite IH. split; [|tauto].
      intros H. split; [congruence|done].
Qed.


Lemma occurrences_NoDup n l : NoDup l → n ∈ l → occurrences n l = 1%nat.
Proof.
  induction 1 as [|x l Hx Hnd IH]; [by intros ?%elem_of_nil|].
  intros Hin. unfold occurrences.
  destruct (decide (x = n)) as [->|Hne].
  - rewrite filter_cons_True by done. simpl.
    apply occurrences_zero in Hx. unfold occurrences in Hx. by rewrite Hx.
  - rewrite filter_cons_False by done. apply IH.
    apply elem_of_cons in Hin as [?|?]; [congruence|done].
Qed.

Lemma elem_of_alive_ai gs n :
  n ∈ alive_ai gs ↔ n ≠ human ∧ n ∈ alive_players gs.
Proof. unfold alive_ai. by rewrite list_elem_of_filter. Qed.

Lemma say_history gs pairs :
  dialogue_history (foldl say gs pairs)
  = (dialogue_history gs ++ ((λ nl, nl.1 +:+ ": " +:+ nl.2) <$> pairs))%list.
Proof.
  revert gs. induction pairs as [|nl pairs IH]; intros gs; simpl.
  - by rewrite app_nil_r.
  - rewrite IH. simpl. by rewrite <- app_assoc.
Qed.


(** *** The reply, read *)

Lemma typed_snoc acc sacc n l :
  typed acc = Some sacc →
  typed (acc ++ [(n, VStr l)]) = Some (sacc ++ [(n, l)])%list.
Proof.
  unfold typed. rewrite !mapM_Some. intros H.
  apply Forall2_app; [done|]. by repeat constructor.
Qed.

Lemma typed_snoc_None acc x : typed acc = None → typed (acc ++ [x]) = None.
Proof.
  unfold typed. rewrite !mapM_None, Exists_app. by left.
Qed.

Lemma typed_snoc_other acc n b : typed (acc ++ [(n, VOther b)]) = None.
Proof.
  unfold typed. rewrite mapM_None, Exists_app. right. by constructor.
Qed.

Lemma collect_untyped gs items acc :
  typed acc = None → collect gs items acc ≫= typed = None.
Proof.
  revert acc. induction items as [|[name line|] items IH]; intros acc Hacc;
    cbn [collect]; [by simpl| |done].
  destruct name as [[n|b]|]; [|by apply IH..].
  destruct line as [l|]; [|by apply IH].
  destruct (_ && _); [|by apply IH].
  by apply IH, typed_snoc_None.
Qed.

Lemma elem_of_alive_ai_bool gs n :
  bool_decide (n ∈ alive_players gs) && bool_decide (n ≠ human) = true
  ↔ n ∈ alive_ai gs.
Proof.
  rewrite andb_true_iff, !bool_decide_eq_true, elem_of_alive_ai. tauto.
Qed.

(** The two loops that read the reply succeed exactly on the elements that
    are well typed, and then give the proposals of the reply. *)
Lemma collect_typed gs items acc sacc :
  typed acc = Some sacc →
  collect gs items acc ≫= typed
  = if decide (Forall (well_typed_item gs) items)
    then Some (sacc ++ omap (proposal gs) items)%list
    else None.
Proof.
  revert acc sacc.
  induction items as [|[name line|] items IH]; intros acc sacc Hacc;
    cbn [collect].
  - rewrite decide_True by constructor. simpl. by rewrite app_nil_r.
  - assert (Hskip : well_typed_item gs (mkItem name line) →
                    proposal gs (mkItem name line) = None →
                    collect gs items acc ≫= typed
                    = if decide (Forall (well_typed_item gs)
                                   (mkItem name line :: items))
                      then Some (sacc ++ omap (proposal gs)
                                           (mkItem name line :: items))%list
                      else None).
    { intros Hwt Hp. rewrite (IH acc sacc Hacc). cbn [omap list_omap]. rewrite Hp.
      destruct (decide (Forall (well_typed_item gs) items)) as [Hf|Hf].
      - rewrite decide_True; [done|]. by constructor.
      - rewrite decide_False; [done|]. by intros [_ ?]%Forall_cons_1. }
    destruct name as [[n|b]|]; [|by apply Hskip..].
    destruct line as [l|]; [|by apply Hskip].
    destruct (bool_decide (n ∈ alive_players gs) && bool_decide (n ≠ human))
      eqn:Eai; cbn [andb].
    2:{ assert (Hn : n ∉ alive_ai gs).
        { rewrite <- elem_of_alive_ai_bool. by rewrite Eai. }
        apply Hskip.
        - by destruct l as [l|[|]].
        - destruct l as [l|b]; [|done]. cbn [proposal].
          rewrite decide_False; [done|]. tauto. }
    apply elem_of_alive_ai_bool in Eai.
    destruct l as [l|[|]]; cbn [truthy].
    + destruct (decide (l = "")) as [->|Hl].
      * rewrite bool_decide_eq_true_2 by done. cbn [negb].
        apply Hskip; [done|]. cbn [proposal].
        rewrite decide_False; [done|]. tauto.
      * rewrite bool_decide_eq_false_2 by done. cbn [negb].
        rewrite (IH _ _ (typed_snoc acc sacc n l Hacc)).
        cbn [omap list_omap proposal]. rewrite (decide_True (P := _ ∧ _)) by done.
        destruct (decide (Forall (well_typed_item gs) items)) as [Hf|Hf].
        -- rewrite decide_True by (by constructor).
           by rewrite <- app_assoc.
        -- rewrite decide_False; [done|]. by intros [_ ?]%Forall_cons_1.
    + rewrite collect_untyped by apply typed_snoc_other.
      rewrite decide_False; [done|]. intros [Hwt _]%Forall_cons_1.
      by apply Hwt.
    + by apply Hskip.
  - rewrite decide_False; [done|]. by intros [[] _]%Forall_cons_1.
Qed.

Lemma accepted_spec gs items :
  accepted gs items
  = if decide (Forall (well_typed_item gs) items)
    then Some (omap (proposal gs) items) else None.
Proof. exact (collect_typed gs items [] [] eq_refl). Qed.


(** *** The lines written *)

Lemma later_next k g : later k (Random.next g) = later (S k) g.
Proof. done. Qed.

Lemma later_later j k g : later j (later k g) = later (k + j) g.
Proof.
  revert g. induction k as [|k IH]; intros g; [done|].
  exact (IH (Random.next g)).
Qed.

Lemma choice_fallback_exact g :
  Random.choice FALLBACKS g = Some (fallback (g 0%nat), Random.next g).
Proof.
  unfold Random.choice, Random.randbelow, fallback.
  change (length FALLBACKS) with 7%nat.
  assert (Hlt : (g 0%nat mod 7 < 7)%nat) by (apply Nat.mod_upper_bound; lia).
  destruct (g 0%nat mod 7)%nat as [|[|[|[|[|[|[|n]]]]]]]; [..|lia];
    reflexivity.
Qed.

Lemma fallback_elem draw : fallback draw ∈ FALLBACKS.
Proof.
  unfold fallback.
  destruct (lookup_lt_is_Some_2 FALLBACKS (draw mod length FALLBACKS)%nat)
    as [x Hx].
  { apply Nat.mod_upper_bound. discriminate. }
  rewrite Hx. simpl. by eapply list_elem_of_lookup_2.
Qed.

Lemma backfilled_cons n missing g :
  backfilled (n :: missing) g
  = (n, fallback (g 0%nat)) :: backfilled missing (Random.next g).
Proof. done. Qed.



Section TurnProofs.

Variable strip : string → string.

Lemma anti_repeat_cases gs n l g :
  _anti_repeat_line strip gs n l g
  = if decide (kept strip gs (n, l)) then Some (strip l, g)
    else Some (fallback (g 0%nat), Random.next g).
Proof.
  unfold _anti_repeat_line. rewrite choice_fallback_exact.
  destruct (decide (kept strip gs (n, l))) as [(H1 & H2 & H3)|Hk];
    cbn [fst snd] in *.
  - by rewrite !bool_decide_eq_false_2.
  - destruct (bool_decide (strip l = "")) eqn:E1; [done|].
    destruct (bool_decide (strip l ∈ GENERIC_PHRASES)) eqn:E2; [done|].
    destruct (bool_decide (strip l = default "" (last_line_by_name gs !! n)))
      eqn:E3; [done|].
    apply bool_decide_eq_false in E1, E2, E3.
    destruct Hk. by repeat split.
Qed.

(** The first loop of [_ensure_all_speak] keeps the speakers, writes each
    kept proposal stripped, replaces each other one by a fallback phrase,
    and consumes one draw for each replacement. *)
Lemma fix_lines_spec gs pairs out g :
  ∃ fixed,
    fix_lines strip gs pairs out g
    = Some ((out ++ fixed)%list,
            later (length (filter (λ pr, ¬ kept strip gs pr) pairs)) g) ∧
    Forall2 (λ pr fx, fx.1 = pr.1 ∧
                      if decide (kept strip gs pr) then fx.2 = strip pr.2
                      else fx.2 ∈ FALLBACKS) pairs fixed.
Proof.
  revert out g. induction pairs as [|[n l] pairs IH]; intros out g;
    cbn [fix_lines].
  - exists []. rewrite app_nil_r. split; [done|constructor].
  - rewrite anti_repeat_cases.
    destruct (decide (kept strip gs (n, l))) as [Hk|Hk]; cbn [mbind option_bind].
    + destruct (IH (out ++ [(n, strip l)])%list g) as (fixed & -> & HF).
      exists ((n, strip l) :: fixed). split.
      * rewrite <- app_assoc. rewrite filter_cons_False by tauto. done.
      * constructor; [|done]. split; [done|]. by rewrite decide_True.
    + destruct (IH (out ++ [(n, fallback (g 0%nat))])%list (Random.next g))
        as (fixed & -> & HF).
      exists ((n, fallback (g 0%nat)) :: fixed). split.
      * rewrite <- app_assoc. rewrite filter_cons_True by done.
        by rewrite later_next.
      * constructor; [|done]. split; [done|]. rewrite decide_False by done.
        apply fallback_elem.
Qed.

(** The second loop of [_ensure_all_speak] adds, for each living AI player
    that was not proposed, the phrase selected by the next draw. *)
Lemma backfill_spec (spoken : gset string) living out g :
  let missing := filter (λ n, n ≠ human ∧ n ∉ spoken) living in
  backfill spoken living out g
  = Some ((out ++ backfilled missing g)%list, later (length missing) g).
Proof.
  revert out g. induction living as [|n living IH]; intros out g;
    cbn [backfill].
  - simpl. by rewrite app_nil_r.
  - cbv zeta in *. case_bool_decide as Hh.
    { rewrite filter_cons_False by tauto. apply IH. }
    case_bool_decide as Hs.
    + rewrite choice_fallback_exact. cbn [mbind option_bind].
      rewrite IH, filter_cons_True by done.
      rewrite backfilled_cons, <- app_assoc. cbn [length].
      by rewrite later_next.
    + rewrite filter_cons_False by tauto. apply IH.
Qed.

Lemma ensure_all_speak_lines gs pairs g :
  let missing := filter (λ n, n ∉ pairs.*1) (alive_ai gs) in
  let r := length (filter (λ pr, ¬ kept strip gs pr) pairs) in
  ∃ fixed,
    _ensure_all_speak strip gs pairs g
    = Some ((fixed ++ backfilled missing (later r g))%list,
            later (r + length missing) g) ∧
    Forall2 (λ pr fx, fx.1 = pr.1 ∧
                      if decide (kept strip gs pr) then fx.2 = strip pr.2
                      else fx.2 ∈ FALLBACKS) pairs fixed.
Proof.
  intros missing r. unfold _ensure_all_speak.
  destruct (fix_lines_spec gs pairs [] g) as (fixed & -> & HF).
  exists fixed. split; [|done]. cbn [mbind option_bind].
  rewrite backfill_spec. cbv zeta.
  assert (E : filter (λ n, n ≠ human ∧ n ∉ (list_to_set pairs.*1 : gset string))
                (alive_players gs) = missing).
  { unfold missing, alive_ai. rewrite list_filter_filter.
    apply list_filter_iff. intros n. rewrite elem_of_list_to_set. tauto. }
  rewrite E. by rewrite later_later.
Qed.

End TurnProofs.



(** A reply that is not well typed makes the turn raise, and only such a
    reply does. *)
Lemma day_discuss_raises strip gs data g :
  day_discuss strip gs data g = None ↔ ¬ well_typed gs data.
Proof.
  destruct data as [items|]; cbn [day_discuss well_typed]; [|tauto].
  rewrite accepted_spec.
  destruct (decide (Forall (well_typed_item gs) items)) as [Hf|Hf];
    cbn [mbind option_bind]; [|tauto].
  destruct (ensure_all_speak_lines strip gs (omap (proposal gs) items) g)
    as (fixed & -> & _).
  split; [done|tauto].
Qed.

Example day_discuss_raises_on_number :
  day_discuss (λ s, s) opening_state reply_with_number (λ _, 0%nat) = None.
Proof. reflexivity. Qed.



(** ** The sanitizing pass *)

Section SanitizeProofs.

Import Memory.
Local Open Scope Z_scope.

Lemma in_range_true lo hi b : lo ≤ b ≤ hi → in_range lo hi b = true.
Proof. unfold in_range. lia. Qed.

Lemma in_range_false lo hi b : b < lo ∨ hi < b → in_range lo hi b = false.
Proof. unfold in_range. lia. Qed.

(** The base-64 digits of a code point. *)
Lemma digits64 c :
  0 ≤ c →
  ∃ d0 d1 d2 d3,
    c mod 64 = d0 ∧ (c / 64) mod 64 = d1 ∧ (c / 4096) mod 64 = d2 ∧
    c / 262144 = d3 ∧ c / 4096 = d2 + 64 * d3 ∧
    c / 64 = d1 + 64 * d2 + 4096 * d3 ∧
    c = d0 + 64 * d1 + 4096 * d2 + 262144 * d3 ∧
    0 ≤ d0 < 64 ∧ 0 ≤ d1 < 64 ∧ 0 ≤ d2 < 64 ∧ 0 ≤ d3.
Proof.
  intros Hc. exists (c mod 64), ((c / 64) mod 64), ((c / 4096) mod 64),
    (c / 262144).
  assert (E1 : c / 4096 = c / 64 / 64) by (by rewrite Z.div_div by lia).
  assert (E2 : c / 262144 = c / 4096 / 64) by (by rewrite Z.div_div by lia).
  pose proof (Z.div_mod c 64 ltac:(lia)).
  pose proof (Z.div_mod (c / 64) 64 ltac:(lia)).
  pose proof (Z.div_mod (c / 4096) 64 ltac:(lia)).
  pose proof (Z.mod_pos_bound c 64 ltac:(lia)).
  pose proof (Z.mod_pos_bound (c / 64) 64 ltac:(lia)).
  pose proof (Z.mod_pos_bound (c / 4096) 64 ltac:(lia)).
  assert (0 ≤ c / 262144) by (apply Z.div_pos; lia).
  rewrite <- E1 in *. rewrite <- E2 in *.
  repeat split; lia.
Qed.

Ltac range_solve :=
  repeat match goal with
  | |- context [in_range ?lo ?hi ?b] =>
      first [ rewrite (in_range_true lo hi b) by lia
            | rewrite (in_range_false lo hi b) by lia ]
  | |- context [?a =? ?b] =>
      first [ rewrite (proj2 (Z.eqb_eq a b)) by lia
            | rewrite (proj2 (Z.eqb_neq a b)) by lia
            | destruct (Z.eqb_spec a b) ]
  end.

Lemma decode_encode_cp c rest :
  decode_ignore (utf8_encode_cp c ++ rest)
  = ((if encodable c then [c] else []) ++ decode_ignore rest)%list.
Proof.
  unfold utf8_encode_cp, encodable, is_surrogate.
  destruct (Z.ltb_spec c 0); [by rewrite (proj2 (Z.leb_gt 0 c))|].
  rewrite (proj2 (Z.leb_le 0 c)) by done.
  destruct (digits64 c) as
    (d0 & d1 & d2 & d3 & -> & -> & -> & -> & -> & -> & Hc & ? & ? & ? & ?);
    [done|].
  destruct (Z.ltb_spec c 0x80).
  { rewrite (proj2 (Z.ltb_lt c 0x110000)) by lia.
    rewrite (proj2 (Z.leb_gt 0xD800 c)) by lia. simpl.
    by rewrite in_range_true by lia. }
  destruct (Z.ltb_spec c 0x800).
  { rewrite (proj2 (Z.ltb_lt c 0x110000)) by lia.
    rewrite (proj2 (Z.leb_gt 0xD800 c)) by lia.
    cbn [app decode_ignore andb negb]. unfold is_cont.
    change ((128 <=? ?x) && (?x <=? 191)) with (in_range 128 191 x).
    range_solve. do 2 f_equal. lia. }
  destruct (Z.ltb_spec c 0x10000).
  { rewrite (proj2 (Z.ltb_lt c 0x110000)) by lia.
    destruct (Z.leb_spec 0xD800 c); destruct (Z.leb_spec c 0xDFFF);
      cbn [app decode_ignore andb negb]; try done; try (exfalso; lia).
    all: unfold second3, is_cont;
      change ((128 <=? ?x) && (?x <=? 191)) with (in_range 128 191 x).
    all: range_solve; cbn [andb].
    all: do 2 f_equal; lia. }
  destruct (Z.ltb_spec c 0x110000); [|by rewrite app_nil_l].
  rewrite (proj2 (Z.leb_le 0xD800 c)) by lia.
  rewrite (proj2 (Z.leb_gt c 0xDFFF)) by lia.
  cbn [app decode_ignore andb negb].
  unfold second4, is_cont;
    change ((128 <=? ?x) && (?x <=? 191)) with (in_range 128 191 x).
  range_solve; cbn [andb].
  all: do 2 f_equal; lia.
Qed.

Lemma clean_str_filter s : _clean_str s = filter (λ c, encodable c = true) s.
Proof.
  unfold _clean_str, encode_ignore. induction s as [|c s IH]; [done|].
  simpl. rewrite decode_encode_cp, IH.
  destruct (encodable c) eqn:E.
  - by rewrite filter_cons_True.
  - rewrite filter_cons_False; [done|]. by rewrite E.
Qed.

Lemma clean_str_idempotent s : _clean_str (_clean_str s) = _clean_str s.
Proof.
  rewrite !clean_str_filter, list_filter_filter.
  apply list_filter_iff. tauto.
Qed.

Section PyobjInduction.

Context {atom : Type} (P : pyobj atom → Prop).
Hypothesis HNone : P PNone.
Hypothesis HStr : ∀ s, P (PStr s).
Hypothesis HDict :
  ∀ items, Forall (λ kv, P kv.1 ∧ P kv.2) items → P (PDict items).
Hypothesis HList : ∀ xs, Forall P xs → P (PList xs).
Hypothesis HTuple : ∀ xs, Forall P xs → P (PTuple xs).
Hypothesis HSet : ∀ xs, Forall P xs → P (PSet xs).
Hypothesis HAtom : ∀ a, P (PAtom a).

Lemma pyobj_induction : ∀ obj, P obj.
Proof.
  fix IH 1. intros [| s | items | xs | xs | xs | a].
  - exact HNone.
  - apply HStr.
  - apply HDict. induction items as [|[k v] items IHi]; constructor.
    + split; apply IH.
    + exact IHi.
  - apply HList. induction xs as [|x xs IHx]; constructor; [apply IH|exact IHx].
  - apply HTuple. induction xs as [|x xs IHx]; constructor; [apply IH|exact IHx].
  - apply HSet. induction xs as [|x xs IHx]; constructor; [apply IH|exact IHx].
  - apply HAtom.
Qed.

End PyobjInduction.

Section Containers.

Context {atom : Type} (atom_eqb : atom → atom → bool).

Abbreviation obj := (pyobj atom).
Abbreviation keq := (key_eqb atom atom_eqb).
Abbreviation sadd := (set_add atom atom_eqb).
Abbreviation sof := (set_of atom atom_eqb).
Abbreviation dset := (dict_set atom atom_eqb).
Abbreviation dof := (dict_of atom atom_eqb).
Abbreviation distinct := (Memory.distinct atom atom_eqb).

Lemma set_add_cases x s :
  (existsb (λ y, keq y x) s = true ∧ sadd x s = s) ∨
  (existsb (λ y, keq y x) s = false ∧ sadd x s = (s ++ [x])%list).
Proof.
  induction s as [|y s IH]; simpl; [by right|].
  destruct (keq y x); simpl; [by left|].
  destruct IH as [[-> ->]|[-> ->]]; [by left|by right].
Qed.

Lemma distinct_snoc s x :
  distinct s → existsb (λ y, keq y x) s = false → distinct (s ++ [x]).
Proof.
  intros Hs Hx i z Hi.
  destruct (decide (i < length s)%nat) as [Hlt|Hge].
  - rewrite lookup_app_l in Hi by done.
    rewrite take_app_le by lia. by apply Hs.
  - rewrite lookup_app_r in Hi by lia.
    destruct (i - length s)%nat eqn:E; [|by destruct n].
    injection Hi as <-. assert (i = length s) as -> by lia.
    by rewrite take_app_length.
Qed.

Lemma set_add_distinct x s : distinct s → distinct (sadd x s).
Proof.
  intros Hs. destruct (set_add_cases x s) as [[_ ->]|[Hx ->]]; [done|].
  by apply distinct_snoc.
Qed.

Lemma set_fold_distinct acc t :
  distinct acc → distinct (foldl (λ s x, sadd x s) acc t).
Proof.
  revert acc. induction t as [|x t IH]; intros acc Hacc; simpl; [done|].
  by apply IH, set_add_distinct.
Qed.

Lemma set_fold_id acc t :
  distinct (acc ++ t) → foldl (λ s x, sadd x s) acc t = (acc ++ t)%list.
Proof.
  revert acc. induction t as [|x t IH]; intros acc Hd; simpl.
  - by rewrite app_nil_r.
  - assert (Hx : existsb (λ y, keq y x) acc = false).
    { specialize (Hd (length acc) x).
      rewrite list_lookup_middle, take_app_length in Hd by done. by apply Hd. }
    destruct (set_add_cases x acc) as [[E _]|[_ ->]]; [congruence|].
    rewrite IH; rewrite <- app_assoc; done.
Qed.

Lemma set_of_distinct t : distinct (sof t).
Proof. apply set_fold_distinct. by intros i x ?. Qed.

Lemma set_of_idempotent t : sof (sof t) = sof t.
Proof. apply (set_fold_id [] (sof t)), set_of_distinct. Qed.

Lemma set_add_Forall (Q : obj → Prop) x s :
  Q x → Forall Q s → Forall Q (sadd x s).
Proof.
  intros Hx Hs. destruct (set_add_cases x s) as [[_ ->]|[_ ->]]; [done|].
  apply Forall_app. split; [done|]. by constructor.
Qed.

Lemma set_of_Forall (Q : obj → Prop) t : Forall Q t → Forall Q (sof t).
Proof.
  unfold set_of. assert (Hnil : Forall Q []) by constructor.
  revert Hnil. generalize (@nil obj) as acc.
  induction t as [|x t IH]; intros acc Hacc Ht; simpl; [done|].
  apply Forall_cons in Ht as [Hx Ht]. apply IH; [|done].
  by apply set_add_Forall.
Qed.

Lemma dict_set_keys k v d : (dset k v d).*1 = sadd k d.*1.
Proof.
  induction d as [|[k' v'] d IH]; simpl; [done|].
  destruct (keq k' k); simpl; [done|]. by f_equal.
Qed.

Lemma dict_set_fresh k v d :
  existsb (λ y, keq y k) d.*1 = false → dset k v d = (d ++ [(k, v)])%list.
Proof.
  induction d as [|[k' v'] d IH]; simpl; [done|].
  destruct (keq k' k); simpl; [done|]. intros H. by rewrite IH.
Qed.

Lemma dict_fold_keys acc l :
  (foldl (λ d kv, dset kv.1 kv.2 d) acc l).*1
  = foldl (λ s x, sadd x s) acc.*1 l.*1.
Proof.
  revert acc. induction l as [|[k v] l IH]; intros acc; simpl; [done|].
  by rewrite IH, dict_set_keys.
Qed.

Lemma dict_of_distinct l : distinct (dof l).*1.
Proof.
  unfold dict_of. rewrite dict_fold_keys. apply set_of_distinct.
Qed.

Lemma dict_fold_id (acc l : list (obj * obj)) :
  distinct ((acc ++ l)%list).*1 →
  foldl (λ d kv, dset kv.1 kv.2 d) acc l = (acc ++ l)%list.
Proof.
  revert acc. induction l as [|[k v] l IH]; intros acc Hd; simpl.
  - by rewrite app_nil_r.
  - assert (Hk : existsb (λ y, keq y k) acc.*1 = false).
    { specialize (Hd (length acc.*1) k). rewrite fmap_app in Hd. simpl in Hd.
      rewrite list_lookup_middle, take_app_length in Hd by done.
      by apply Hd. }
    rewrite dict_set_fresh by done.
    rewrite IH; rewrite <- app_assoc; done.
Qed.

Lemma dict_of_idempotent l : dof (dof l) = dof l.
Proof. apply (dict_fold_id [] (dof l)), dict_of_distinct. Qed.

Lemma dict_set_Forall (QK QV : obj → Prop) k v d :
  QK k → QV v →
  Forall (λ kv, QK kv.1 ∧ QV kv.2) d →
  Forall (λ kv, QK kv.1 ∧ QV kv.2) (dset k v d).
Proof.
  intros Hk Hv. induction 1 as [|[k' v'] d [Hk' Hv'] Hd IH]; simpl.
  - by repeat constructor.
  - destruct (keq k' k); constructor; try done.
Qed.

Lemma dict_of_Forall (QK QV : obj → Prop) l :
  Forall (λ kv, QK kv.1 ∧ QV kv.2) l →
  Forall (λ kv, QK kv.1 ∧ QV kv.2) (dof l).
Proof.
  unfold dict_of.
  assert (Hnil : Forall (λ kv : obj * obj, QK kv.1 ∧ QV kv.2) [])
    by constructor.
  revert Hnil. generalize (@nil (obj * obj)) as acc.
  induction l as [|[k v] l IH]; intros acc Hacc Hl; simpl; [done|].
  apply Forall_cons in Hl as [[Hk Hv] Hl]. apply IH; [|done].
  by apply dict_set_Forall.
Qed.

Lemma map_fixed (f : obj → obj) l : Forall (λ x, f x = x) l → map f l = l.
Proof. induction 1 as [|x l Hx _ IH]; simpl; [done|]. by rewrite Hx, IH. Qed.

Lemma map_pair_fixed (f : obj → obj) (l : list (obj * obj)) :
  Forall (λ kv, f kv.1 = kv.1 ∧ f kv.2 = kv.2) l →
  map (λ kv, (f kv.1, f kv.2)) l = l.
Proof.
  induction 1 as [|[k v] l [Hk Hv] _ IH]; simpl in *; [done|].
  by rewrite Hk, Hv, IH.
Qed.

Abbreviation san := (_sanitize atom atom_eqb).

Lemma sanitize_fixed (o : obj) : san (san o) = san o.
Proof.
  induction o as [| s | items IH | xs IH | xs IH | xs IH | a]
    using pyobj_induction; simpl.
  - done.
  - by rewrite clean_str_idempotent.
  - f_equal.
    rewrite map_pair_fixed; [apply dict_of_idempotent|].
    apply (dict_of_Forall (λ x, san x = x) (λ x, san x = x)).
    apply Forall_fmap.
    eapply Forall_impl; [exact IH|]. by intros [k v] [? ?].
  - f_equal. rewrite map_map. apply map_ext_Forall.
    eapply Forall_impl; [exact IH|]. done.
  - f_equal. rewrite map_map. apply map_ext_Forall.
    eapply Forall_impl; [exact IH|]. done.
  - f_equal.
    rewrite map_fixed; [apply set_of_idempotent|].
    apply (set_of_Forall (λ x, san x = x)). apply Forall_fmap.
    eapply Forall_impl; [exact IH|]. done.
  - done.
Qed.

End Containers.

(** C9: for every nested value, sanitizing the sanitized value returns it
    unchanged, and each application keeps the structural shape (a mapping
    stays a mapping, a list a list, a tuple a tuple, a set a set); lists and
    tuples are sanitized element by element, so they keep their length. *)
Theorem sanitize_idempotent_and_shape {atom} (atom_eqb : atom → atom → bool)
    (o : pyobj atom) :
  _sanitize atom atom_eqb (_sanitize atom atom_eqb o)
    = _sanitize atom atom_eqb o ∧
  shape (_sanitize atom atom_eqb o) = shape o ∧
  shape (_sanitize atom atom_eqb (_sanitize atom atom_eqb o)) = shape o ∧
  (∀ xs, _sanitize atom atom_eqb (PList xs)
         = PList (map (_sanitize atom atom_eqb) xs)) ∧
  (∀ xs, _sanitize atom atom_eqb (PTuple xs)
         = PTuple (map (_sanitize atom atom_eqb) xs)).
Proof.
  split; [apply sanitize_fixed|].
  split; [by destruct o|].
  split; [|done].
  rewrite sanitize_fixed. by destruct o.
Qed.

(** The pass is not the identity: a lone surrogate is removed, inside a
    list inside a mapping, and two keys that become equal are merged. *)
Example sanitize_strips_surrogates :
  _sanitize Z Z.eqb
    (PDict [(PStr [0x61; 0xD800], PList [PStr [0xDC00; 0xAC00]; PAtom 1]);
            (PStr [0x61], PNone)])
  = PDict [(PStr [0x61], PNone)].
Proof. reflexivity. Qed.

End SanitizeProofs.

(** ** Mention ranking *)

Import Mentions Draws Ranking.

Lemma swap_Permutation {A} (x : list A) i j : Random.swap x i j ≡ₚ x.
Proof.
  unfold Random.swap.
  destruct (x !! i) as [a|] eqn:Ei; [|done].
  destruct (x !! j) as [b|] eqn:Ej; [|done].
  by apply Permutation_insert_swap.
Qed.

Lemma shuffle_from_Permutation {A} i (x : list A) g :
  (Random.shuffle_from i x g).1 ≡ₚ x.
Proof.
  revert x g. induction i as [|i IH]; intros x g; simpl; [done|].
  rewrite IH. apply swap_Permutation.
Qed.

Lemma shuffle_Permutation {A} (x : list A) g : (Random.shuffle x g).1 ≡ₚ x.
Proof. apply shuffle_from_Permutation. Qed.

#[local] Instance rank_le_total counts : Total (rank_le counts).
Proof.
  intros a b. unfold rank_le, PyStr.le.
  destruct (String.leb_total a b);
    destruct (lt_eq_lt_dec (get0 counts a) (get0 counts b)) as [[?|?]|?];
    auto with lia.
Qed.

Lemma filter_length_split {A} (P : A → Prop) `{∀ x, Decision (P x)} l :
  (length (filter P l) + length (filter (λ x, ¬ P x) l))%nat = length l.
Proof.
  induction l as [|x l IH]; [done|].
  destruct (decide (P x)).
  - rewrite filter_cons_True, (filter_cons_False (λ x, ¬ P x)) by tauto.
    simpl. lia.
  - rewrite filter_cons_False, (filter_cons_True (λ x, ¬ P x)) by tauto.
    simpl. lia.
Qed.

Lemma filter_length_mono {A} (P Q : A → Prop)
    `{∀ x, Decision (P x)} `{∀ x, Decision (Q x)} l :
  (∀ x, x ∈ l → P x → Q x) → (length (filter P l) ≤ length (filter Q l))%nat.
Proof.
  induction l as [|x l IH]; intros HPQ; [done|].
  assert (IH' : (length (filter P l) ≤ length (filter Q l))%nat).
  { apply IH. intros y Hy. apply HPQ. by right. }
  destruct (decide (P x)) as [HP|HP].
  - rewrite filter_cons_True by done.
    rewrite (filter_cons_True Q) by (apply HPQ; [by left|done]).
    simpl. lia.
  - rewrite filter_cons_False by done.
    destruct (decide (Q x)).
    + rewrite (filter_cons_True Q) by done. simpl. lia.
    + by rewrite (filter_cons_False Q) by done.
Qed.

Lemma top_two_unfold gs g :
  (2 < length (alive_ai gs))%nat →
  let counts := mention_counts_for_today gs in
  let ranked := merge_sort (rank_le counts) (alive_ai gs) in
  let pos := filter (λ n, (0 < get0 counts n)%nat) ranked in
  (top_two_mentions gs g).1 =
    if decide (2 ≤ length pos)%nat then take 2 pos
    else (pos ++ take (2 - length pos)
                   (Random.shuffle (filter (λ n, n ∉ pos) (alive_ai gs)) g).1)%list.
Proof.
  intros Hlen counts ranked pos. unfold top_two_mentions.
  change (filter (λ n, n ≠ human) (alive_players gs)) with (alive_ai gs).
  rewrite bool_decide_eq_false_2 by lia.
  fold counts. fold ranked. fold pos.
  destruct (decide (2 ≤ length pos)%nat) as [Hp|Hp].
  - rewrite bool_decide_eq_false_2; [done|]. rewrite length_take. lia.
  - rewrite bool_decide_eq_true_2 by (rewrite length_take; lia).
    rewrite (take_ge pos) by lia.
    by destruct (Random.shuffle _ g) as [pool' g'].
Qed.

(** *** The counts behind the ranking *)

Lemma get0_bump_eq n k (c : gmap string nat) :
  get0 (bump n k c) n = (get0 c n + k)%nat.
Proof. unfold bump. by rewrite get0_insert_eq. Qed.

Lemma get0_bump_ne n m k (c : gmap string nat) :
  n ≠ m → get0 (bump n k c) m = get0 c m.
Proof. intros. unfold bump. by rewrite get0_insert_ne. Qed.

Lemma bump_line_spec (living : list string) line (c : gmap string nat) :
  (∀ m, get0 (foldl (λ c n, bump n (_count_name_in_line n line) c) c living) m
        = (get0 c m + occurrences m living * _count_name_in_line m line)%nat) ∧
  (∀ m, is_Some (foldl (λ c n, bump n (_count_name_in_line n line) c) c living
                 !! m)
        ↔ is_Some (c !! m) ∨ m ∈ living).
Proof.
  revert c. induction living as [|n living IH]; intros c; cbn [foldl].
  - split.
    + intros m. unfold occurrences. simpl. lia.
    + intros m. rewrite elem_of_nil. tauto.
  - destruct (IH (bump n (_count_name_in_line n line) c)) as [Hg Hk].
    split.
    + intros m. rewrite Hg. unfold occurrences.
      destruct (decide (n = m)) as [->|Hne].
      * rewrite get0_bump_eq, filter_cons_True by done. simpl. lia.
      * by rewrite get0_bump_ne, filter_cons_False by done.
    + intros m. rewrite Hk. unfold bump.
      rewrite lookup_insert_is_Some, elem_of_cons.
      destruct (decide (n = m)); split; intros; try tauto;
        destruct_or?; destruct_and?; auto.
Qed.

Lemma bump_window_spec (living w : list string) (c : gmap string nat) :
  (∀ m, get0 (foldl (λ c line,
                foldl (λ c n, bump n (_count_name_in_line n line) c) c living)
              c w) m
        = (get0 c m + occurrences m living * total_count m w)%nat) ∧
  (living ≠ [] ∨ w = [] →
   ∀ m, is_Some (foldl (λ c line,
                   foldl (λ c n, bump n (_count_name_in_line n line) c)
                         c living) c w !! m)
        ↔ is_Some (c !! m) ∨ (m ∈ living ∧ w ≠ [])).
Proof.
  revert c. induction w as [|line w IH]; intros c; cbn [foldl].
  - split.
    + intros m. unfold total_count. simpl. lia.
    + intros _ m. tauto.
  - destruct (IH (foldl (λ c n, bump n (_count_name_in_line n line) c)
                        c living)) as [Hg Hk].
    destruct (bump_line_spec living line c) as [Hg1 Hk1].
    split.
    + intros m. rewrite Hg, Hg1. unfold total_count. simpl.
      change (list_fmap string nat (_count_name_in_line m) w)
        with (_count_name_in_line m <$> w). nia.
    + intros Hl m. destruct Hl as [Hl|Hl]; [|done].
      rewrite Hk by (by left). rewrite Hk1.
      split; [|intros [?|[? _]]; auto].
      intros [[?|?]|[? _]]; auto.
Qed.

Lemma init_zero_spec (living : list string) (c : gmap string nat) :
  (∀ m, foldl (λ c n, <[n := 0%nat]> c) c living !! m
        = if decide (m ∈ living) then Some 0%nat else c !! m).
Proof.
  revert c. induction living as [|n living IH]; intros c m; cbn [foldl].
  - rewrite decide_False; [done|]. apply not_elem_of_nil.
  - rewrite IH. destruct (decide (m ∈ living)) as [Hin|Hin].
    + rewrite decide_True; [done|]. by right.
    + destruct (decide (n = m)) as [->|Hne].
      * rewrite decide_True by (by left). apply lookup_insert_eq.
      * rewrite decide_False by (rewrite elem_of_cons; intros [?|?]; auto).
        by apply lookup_insert_ne.
Qed.

(** *** The shuffle and its draws *)

Section Shuffle.
Context {A : Type}.
Implicit Types x p : list A.

Lemma length_swap x i j : length (Random.swap x i j) = length x.
Proof.
  unfold Random.swap.
  destruct (x !! i); [|done]. destruct (x !! j); [|done].
  by rewrite !length_insert.
Qed.

Lemma swap_lookup x i j k :
  (i < length x)%nat → (j < length x)%nat →
  Random.swap x i j !! k
  = if decide (k = j) then x !! i else if decide (k = i) then x !! j
    else x !! k.
Proof.
  intros Hi Hj. unfold Random.swap.
  destruct (lookup_lt_is_Some_2 x i Hi) as [a Ha].
  destruct (lookup_lt_is_Some_2 x j Hj) as [b Hb].
  rewrite Ha, Hb.
  destruct (decide (k = j)) as [->|Hkj].
  - rewrite list_lookup_insert_eq; [done|]. by rewrite length_insert.
  - rewrite list_lookup_insert_ne by done.
    destruct (decide (k = i)) as [->|Hki].
    + by rewrite list_lookup_insert_eq.
    + by rewrite list_lookup_insert_ne.
Qed.

Lemma swap_lookup_other x i j k :
  k ≠ i → k ≠ j → Random.swap x i j !! k = x !! k.
Proof.
  intros Hi Hj. unfold Random.swap.
  destruct (x !! i); [|done]. destruct (x !! j); [|done].
  by rewrite !list_lookup_insert_ne.
Qed.

Lemma shuffle_from_cons i x g :
  Random.shuffle_from (S i) x g
  = Random.shuffle_from i (Random.swap x (S i) (g 0 mod S (S i))%nat)
      (Random.next g).
Proof. done. Qed.

(** The positions above [i] are not touched. *)
Lemma shuffle_from_lookup_gt i x g k :
  (i < k)%nat → (Random.shuffle_from i x g).1 !! k = x !! k.
Proof.
  revert x g. induction i as [|i IH]; intros x g Hk; [done|].
  rewrite shuffle_from_cons, IH by lia.
  assert (Hlt : (g 0 mod S (S i) < S (S i))%nat) by (apply Nat.mod_upper_bound; lia).
  apply swap_lookup_other; lia.
Qed.

(** The first draw decides what position [i] holds in the end. *)
Lemma shuffle_from_lookup_top i x g :
  (S i < length x)%nat →
  (Random.shuffle_from (S i) x g).1 !! (S i) = x !! (g 0 mod S (S i))%nat.
Proof.
  intros Hi. rewrite shuffle_from_cons, shuffle_from_lookup_gt by lia.
  assert (Hlt : (g 0 mod S (S i) < S (S i))%nat) by (apply Nat.mod_upper_bound; lia).
  rewrite swap_lookup by lia.
  case_decide as E; [by rewrite <- E|]. by rewrite decide_True.
Qed.

(** The result depends on the random source through the bounded draws
    only. *)
Lemma shuffle_from_draws i x g g' :
  draws_from i g = draws_from i g' →
  (Random.shuffle_from i x g).1 = (Random.shuffle_from i x g').1.
Proof.
  revert x g g'. induction i as [|i IH]; intros x g g' Hd; [done|].
  rewrite !shuffle_from_cons. cbn [draws_from] in Hd.
  set (j := (g 0 mod S (S i))%nat) in *.
  set (j' := (g' 0 mod S (S i))%nat) in *. clearbody j j'.
  injection Hd as -> Hd. by apply IH.
Qed.

(** Distinct draws give distinct orders. *)
Lemma shuffle_from_inj i x g g' :
  NoDup x → (i ≤ length x - 1)%nat →
  (Random.shuffle_from i x g).1 = (Random.shuffle_from i x g').1 →
  draws_from i g = draws_from i g'.
Proof.
  revert x g g'. induction i as [|i IH]; intros x g g' Hnd Hi Heq; [done|].
  assert (Hj : (g 0 mod S (S i) < S (S i))%nat)
    by (apply Nat.mod_upper_bound; lia).
  assert (Hj' : (g' 0 mod S (S i) < S (S i))%nat)
    by (apply Nat.mod_upper_bound; lia).
  assert (E : (g 0 mod S (S i) = g' 0 mod S (S i))%nat).
  { pose proof (f_equal (λ l, l !! S i) Heq) as Ht. cbv beta in Ht.
    rewrite !shuffle_from_lookup_top in Ht by lia.
    destruct (lookup_lt_is_Some_2 x (g 0 mod S (S i))%nat) as [a Ha]; [lia|].
    rewrite Ha in Ht. by eapply NoDup_lookup. }
  cbn [draws_from]. rewrite E. f_equal.
  rewrite !shuffle_from_cons, E in Heq.
  eapply IH; [| |exact Heq].
  - by rewrite swap_Permutation.
  - rewrite length_swap. lia.
Qed.

Lemma draws_from_vectors i g : draws_from i g ∈ vectors_from i.
Proof.
  revert g. induction i as [|i IH]; intros g; [by left|].
  cbn [draws_from vectors_from]. apply list_elem_of_bind.
  exists (g 0 mod S (S i))%nat. split.
  - apply list_elem_of_fmap. eexists. split; [done|]. apply IH.
  - assert (Hlt : (g 0 mod S (S i) < S (S i))%nat)
      by (apply Nat.mod_upper_bound; lia).
    apply elem_of_seq. lia.
Qed.

Lemma vectors_from_cons i js :
  js ∈ vectors_from (S i) ↔
  ∃ j js', js = j :: js' ∧ (j < S (S i))%nat ∧ js' ∈ vectors_from i.
Proof.
  cbn [vectors_from]. rewrite list_elem_of_bind. split.
  - intros (j & (js' & -> & Hjs')%list_elem_of_fmap & Hj%elem_of_seq).
    exists j, js'. split; [done|]. split; [lia|done].
  - intros (j & js' & -> & Hj & Hjs'). exists j. split.
    + apply list_elem_of_fmap. eauto.
    + apply elem_of_seq. lia.
Qed.

Lemma draws_from_source i js :
  js ∈ vectors_from i → draws_from i (source_of js) = js.
Proof.
  revert js. induction i as [|i IH]; intros js.
  - by intros ->%list_elem_of_singleton.
  - intros (j & js' & -> & Hj & Hjs')%vectors_from_cons.
    cbn [draws_from]. f_equal.
    + unfold source_of. simpl nth. by apply Nat.mod_small.
    + by apply IH.
Qed.

Lemma NoDup_vectors_from i : NoDup (vectors_from i).
Proof.
  induction i as [|i IH]; [apply NoDup_singleton|].
  cbn [vectors_from]. apply NoDup_bind.
  - intros j1 j2 js _ _ (? & -> & _)%list_elem_of_fmap
      (? & [= ->] & _)%list_elem_of_fmap. done.
  - intros j _. apply NoDup_fmap_2; [|done]. by intros ?? [=].
  - apply NoDup_seq.
Qed.

Lemma length_vectors_from i : length (vectors_from i) = fact (S i).
Proof.
  induction i as [|i IH]; [done|].
  cbn [vectors_from].
  assert (E : ∀ (l : list nat),
            length (l ≫= λ j, cons j <$> vectors_from i)
            = (length l * fact (S i))%nat).
  { induction l as [|a l IHl]; [done|].
    change (length ((cons a <$> vectors_from i)
                    ++ (l ≫= λ j, cons j <$> vectors_from i))
            = (S (length l) * fact (S i))%nat).
    rewrite length_app, length_fmap, IHl, IH, Nat.mul_succ_l. lia. }
  rewrite E, length_seq. change (fact (S (S i))) with (S (S i) * fact (S i))%nat.
  done.
Qed.

(** Every order of the list is reached. *)
Lemma shuffle_from_surj i x p :
  (i ≤ length x - 1)%nat → p ≡ₚ x →
  (∀ k, (i < k)%nat → p !! k = x !! k) →
  ∃ js, js ∈ vectors_from i ∧ (Random.shuffle_from i x (source_of js)).1 = p.
Proof.
  revert x. induction i as [|i IH]; intros x Hi Hp Hk.
  - exists []. split; [by left|]. simpl.
    pose proof (Permutation_length Hp) as Hlen.
    destruct x as [|a x], p as [|b p]; try done.
    assert (Et : p = x).
    { apply list_eq. intros k. apply (Hk (S k)). lia. }
    subst p. f_equal. symmetry.
    apply (Permutation_singleton_inj b a).
    by apply (inj (.++ x)).
  - pose proof (Permutation_length Hp) as Hlen.
    assert (Ed : drop (S (S i)) p = drop (S (S i)) x).
    { apply list_eq. intros k. rewrite !lookup_drop. apply Hk. lia. }
    assert (Et : take (S (S i)) p ≡ₚ take (S (S i)) x).
    { apply (inj (.++ drop (S (S i)) x)).
      rewrite <- Ed at 1. by rewrite !take_drop. }
    destruct (lookup_lt_is_Some_2 p (S i)) as [y Hy]; [lia|].
    assert (Hin : y ∈ take (S (S i)) x).
    { rewrite <- Et. apply elem_of_take. exists (S i). split; [done|lia]. }
    apply elem_of_take in Hin as (j & Hj & Hlt).
    destruct (IH (Random.swap x (S i) j)) as (js & Hjs & Hrun).
    + rewrite length_swap. lia.
    + by rewrite swap_Permutation.
    + intros k Hik. destruct (decide (k = S i)) as [->|Hne].
      * rewrite swap_lookup by (by apply lookup_lt_Some in Hj; lia).
        rewrite Hy. case_decide as E; [by rewrite E|].
        by rewrite decide_True.
      * rewrite swap_lookup_other by lia. apply Hk. lia.
    + exists (j :: js). split.
      * apply vectors_from_cons. eauto 10.
      * rewrite shuffle_from_cons.
        change (source_of (j :: js) 0%nat) with j.
        rewrite Nat.mod_small by lia. exact Hrun.
Qed.

Lemma shuffle_draws x g :
  (Random.shuffle x g).1
  = (Random.shuffle x (source_of (draws_of (length x) g))).1.
Proof.
  apply shuffle_from_draws. symmetry. apply draws_from_source.
  apply draws_from_vectors.
Qed.

Lemma shuffle_surj x p :
  p ≡ₚ x →
  ∃ js, js ∈ draw_vectors (length x) ∧ (Random.shuffle x (source_of js)).1 = p.
Proof.
  intros Hp. apply shuffle_from_surj; [lia|done|].
  intros k Hk. pose proof (Permutation_length Hp).
  rewrite !lookup_ge_None_2; [done|lia..].
Qed.

Lemma shuffle_inj x js js' :
  NoDup x →
  js ∈ draw_vectors (length x) → js' ∈ draw_vectors (length x) →
  (Random.shuffle x (source_of js)).1 = (Random.shuffle x (source_of js')).1 →
  js = js'.
Proof.
  intros Hnd Hjs Hjs' Heq.
  apply shuffle_from_inj in Heq; [|done|lia].
  by rewrite !draws_from_source in Heq.
Qed.

Lemma length_draw_vectors n : length (draw_vectors n) = fact n.
Proof.
  unfold draw_vectors. rewrite length_vectors_from.
  destruct n as [|n]; [done|]. by rewrite Nat.sub_1_r.
Qed.

(** Among all vectors of draws, exactly one gives a chosen order of a list
    without duplicates. *)
Lemma shuffle_order_count `{EqDecision A} x p :
  NoDup x → p ≡ₚ x →
  length (filter (λ js, (Random.shuffle x (source_of js)).1 = p)
            (draw_vectors (length x))) = 1%nat.
Proof.
  intros Hnd Hp.
  destruct (shuffle_surj x p Hp) as (js & Hjs & Hrun).
  assert (E : filter (λ js, (Random.shuffle x (source_of js)).1 = p)
                (draw_vectors (length x)) ≡ₚ [js]).
  { apply NoDup_Permutation.
    - apply NoDup_filter, NoDup_vectors_from.
    - apply NoDup_singleton.
    - intros js'. rewrite list_elem_of_filter, list_elem_of_singleton. split.
      + intros [Hrun' Hjs']. apply (shuffle_inj x); [done..|congruence].
      + by intros ->. }
  by rewrite E.
Qed.

(** Among all vectors of draws, the number of those that put a chosen
    arrangement [q] of [k] members of the list in front is the same for
    every arrangement. *)
Lemma shuffle_fill_count `{EqDecision A} x k q :
  NoDup x → NoDup q → q ⊆ x → length q = k →
  length (filter (λ js, take k (Random.shuffle x (source_of js)).1 = q)
            (draw_vectors (length x))) = fact (length x - k).
Proof.
  intros Hnd Hq Hsub Hk.
  set (rest := filter (λ a, a ∉ q) x).
  assert (Hrest : NoDup rest) by (by apply NoDup_filter).
  assert (Hsplit : (q ++ rest)%list ≡ₚ x).
  { apply NoDup_Permutation; [|done|].
    - apply NoDup_app. split; [done|]. split; [|done].
      intros a Ha [Hna _]%list_elem_of_filter. done.
    - intros a. rewrite elem_of_app. unfold rest.
      rewrite list_elem_of_filter. split.
      + intros [Ha|[_ Ha]]; [by apply Hsub|done].
      + intros Ha. destruct (decide (a ∈ q)); [by left|by right]. }
  assert (Hlen : length rest = (length x - k)%nat).
  { apply Permutation_length in Hsplit. rewrite length_app in Hsplit. lia. }
  rewrite <- Hlen, <- (length_draw_vectors (length rest)).
  set (front := filter (λ js, take k (Random.shuffle x (source_of js)).1 = q)
                  (draw_vectors (length x))).
  rewrite <- (length_fmap (λ js, drop k (Random.shuffle x (source_of js)).1)
               front).
  rewrite <- (length_fmap (λ js, (Random.shuffle rest (source_of js)).1)
               (draw_vectors (length rest))).
  apply Permutation_length, NoDup_Permutation.
  - apply NoDup_fmap_2_strong; [|apply NoDup_filter, NoDup_vectors_from].
    intros js js' [Hf Hjs]%list_elem_of_filter [Hf' Hjs']%list_elem_of_filter
      Hd.
    apply (shuffle_inj x); [done..|].
    rewrite <- (take_drop k (Random.shuffle x (source_of js)).1).
    rewrite <- (take_drop k (Random.shuffle x (source_of js')).1).
    by rewrite Hf, Hf', Hd.
  - apply NoDup_fmap_2_strong; [|apply NoDup_vectors_from].
    intros js js' Hjs Hjs' Heq. by apply (shuffle_inj rest).
  - intros r.
    assert (Hl : r ∈ (λ js, drop k (Random.shuffle x (source_of js)).1)
                       <$> front ↔ r ≡ₚ rest).
    { rewrite list_elem_of_fmap. split.
      - intros (js & -> & [Hf Hjs]%list_elem_of_filter).
        apply (inj (q ++.)). rewrite Hsplit.
        rewrite <- Hf at 1. rewrite take_drop. apply shuffle_Permutation.
      - intros Hr.
        destruct (shuffle_surj x (q ++ r)) as (js & Hjs & Hrun).
        { by rewrite Hr. }
        exists js. split.
        + rewrite Hrun, <- Hk. by rewrite drop_app_length.
        + apply list_elem_of_filter. split; [|done].
          rewrite Hrun, <- Hk. by rewrite take_app_length. }
    assert (Hr : r ∈ (λ js, (Random.shuffle rest (source_of js)).1)
                       <$> draw_vectors (length rest) ↔ r ≡ₚ rest).
    { rewrite list_elem_of_fmap. split.
      - intros (js & -> & _). apply shuffle_Permutation.
      - intros Hr. destruct (shuffle_surj rest r Hr) as (js & Hjs & Hrun).
        eauto. }
    by rewrite Hl, Hr.
Qed.

End Shuffle.

(** *** The order of the ranking *)

Lemma leb_trans a b c :
  String.leb a b = true → String.leb b c = true → String.leb a c = true.
Proof.
  unfold String.leb. revert b c.
  induction a as [|x a IH]; intros [|y b] [|z c]; simpl; try done.
  unfold Ascii.compare.
  destruct (N.compare_spec (Ascii.N_of_ascii x) (Ascii.N_of_ascii y)),
    (N.compare_spec (Ascii.N_of_ascii y) (Ascii.N_of_ascii z)),
    (N.compare_spec (Ascii.N_of_ascii x) (Ascii.N_of_ascii z));
    try done; try lia; eauto.
Qed.

Lemma ranks_before_trans count : Transitive (ranks_before count).
Proof.
  intros a b c [Hab|[Eab Hab]] [Hbc|[Ebc Hbc]]; unfold ranks_before;
    [left; lia..|].
  right. split; [lia|]. by eapply leb_trans.
Qed.

Lemma filter_all {A} (P : A → Prop) `{∀ x, Decision (P x)} l :
  Forall P l → filter P l = l.
Proof.
  induction 1 as [|x l Hx _ IH]; [done|].
  rewrite filter_cons_True by done. by f_equal.
Qed.

Lemma slice_from_drop {A} i (l : list A) :
  PyStr.slice_from i l = drop (slice_start i (length l)) l.
Proof.
  unfold PyStr.slice_from, slice_start.
  destruct (Z.ltb_spec i 0); case_decide; try lia; f_equal; lia.
Qed.

Lemma mentions_get0 gs n :
  get0 (mention_counts_for_today gs) n = mentions gs n.
Proof.
  unfold mention_counts_for_today, mentions, lines_today.
  rewrite slice_from_drop.
  change (filter (λ n, n ≠ human) (alive_players gs)) with (alive_ai gs).
  destruct (bump_window_spec (alive_ai gs)
              (drop (slice_start (dialogue_round_start_idx gs)
                       (length (dialogue_history gs))) (dialogue_history gs))
              (foldl (λ c n, <[n := 0%nat]> c) ∅ (alive_ai gs))) as [-> _].
  unfold get0 at 1. rewrite init_zero_spec, lookup_empty.
  by case_decide.
Qed.

Lemma rank_le_mentions gs a b :
  rank_le (mention_counts_for_today gs) a b ↔ ranks_before (mentions gs) a b.
Proof. unfold rank_le, ranks_before. by rewrite !mentions_get0. Qed.

(** C6: with at least two living non-human players exactly two names are
    returned.  A pool of at most two is returned as it is.  A larger pool
    is ranked by descending mention count, then ascending name, where the
    mention count of a player is the number of occurrences of the name in
    the transcript lines from the day's start index on; when two or more
    players have a positive count the result is the first two of them in
    rank order.  Otherwise the players with a positive count are followed
    by the first names of the shuffled rest of the pool.  The shuffle is
    uniform: its outcome is a function of its bounded draws; there are as
    many vectors of bounded draws as orders of the rest, and among them
    the number of vectors that produce a given fill is the same for every
    arrangement of as many distinct names of the rest.  The names returned
    are living non-human players, distinct when the pool has distinct
    names.  When all counts are zero, as they are over an empty day
    window, both names come from the shuffled pool. *)
Theorem top_two_mentions_spec gs g :
  let living := alive_ai gs in
  let result := (top_two_mentions gs g).1 in
  ((2 ≤ length living)%nat → length result = 2%nat) ∧
  ((length living ≤ 2)%nat → result = living) ∧
  ((2 < length living)%nat →
   ∃ ranked,
     ranked ≡ₚ living ∧ StronglySorted (ranks_before (mentions gs)) ranked ∧
     let pos := filter (λ n, (0 < mentions gs n)%nat) ranked in
     let pool := filter (λ n, n ∉ pos) living in
     let k := (2 - length pos)%nat in
     ((2 ≤ length pos)%nat → result = take 2 pos) ∧
     ((length pos < 2)%nat →
      result = (pos ++ take k (Random.shuffle pool g).1)%list ∧
      (k ≤ length pool)%nat ∧
      (Random.shuffle pool g).1
        = (Random.shuffle pool (source_of (draws_of (length pool) g))).1 ∧
      draws_of (length pool) g ∈ draw_vectors (length pool) ∧
      length (draw_vectors (length pool)) = fact (length pool) ∧
      (NoDup living →
       ∀ q, NoDup q → q ⊆ pool → length q = k →
            length (filter (λ js, take k (Random.shuffle pool
                                            (source_of js)).1 = q)
                      (draw_vectors (length pool)))
            = fact (length pool - k)))) ∧
  (∀ n, n ∈ result → n ∈ living) ∧
  (NoDup living → NoDup result) ∧
  ((2 < length living)%nat → (∀ n, n ∈ living → mentions gs n = 0%nat) →
   result = take 2 (Random.shuffle living g).1) ∧
  (lines_today gs = [] → ∀ n, mentions gs n = 0%nat).
Proof.
  intros living result.
  set (counts := mention_counts_for_today gs).
  set (ranked := merge_sort (rank_le counts) living).
  set (pos := filter (λ n, (0 < mentions gs n)%nat) ranked).
  set (pool := filter (λ n, n ∉ pos) living).
  assert (Epos : filter (λ n, (0 < get0 counts n)%nat) ranked = pos).
  { apply list_filter_iff. intros n. unfold counts.
    by rewrite mentions_get0. }
  assert (Hperm : ranked ≡ₚ living) by apply merge_sort_Permutation.
  assert (Hsmall : (length living ≤ 2)%nat → result = living).
  { intros Hle. unfold result, top_two_mentions.
    change (filter (λ n, n ≠ human) (alive_players gs)) with living.
    by rewrite bool_decide_eq_true_2. }
  assert (Hbig : (2 < length living)%nat →
    result = if decide (2 ≤ length pos)%nat then take 2 pos
             else (pos ++ take (2 - length pos) (Random.shuffle pool g).1)%list).
  { intros Hlen. unfold result. rewrite top_two_unfold by done.
    cbv zeta. fold living counts ranked. by rewrite Epos. }
  assert (Hshuf : (Random.shuffle pool g).1 ≡ₚ pool)
    by apply shuffle_Permutation.
  assert (Hpool : (length living - length pos ≤ length pool)%nat).
  { pose proof (filter_length_split (λ n, (0 < mentions gs n)%nat) living) as Hs.
    assert (Hpl : length pos
                  = length (filter (λ n, (0 < mentions gs n)%nat) living)).
    { unfold pos. by rewrite Hperm. }
    assert (Hm : (length (filter (λ n, ¬ (0 < mentions gs n)%nat) living)
                  ≤ length pool)%nat).
    { apply filter_length_mono. intros x _ Hx Hin.
      apply list_elem_of_filter in Hin as [Hpos _]. done. }
    lia. }
  assert (Hin : ∀ n, n ∈ result → n ∈ living).
  { intros n Hn.
    destruct (decide (length living ≤ 2)%nat) as [Hle|Hgt].
    { by rewrite Hsmall in Hn. }
    rewrite Hbig in Hn by lia.
    assert (Hpos_in : ∀ m, m ∈ pos → m ∈ living).
    { intros m [_ Hm]%list_elem_of_filter. by rewrite <- Hperm. }
    case_decide.
    - by apply Hpos_in, (subseteq_take 2).
    - apply elem_of_app in Hn as [Hn|Hn]; [by apply Hpos_in|].
      apply subseteq_take in Hn. rewrite Hshuf in Hn.
      by apply list_elem_of_filter in Hn as [_ ?]. }
  split; [|split; [done|split; [|split; [done|split; [|split]]]]].
  - intros Hlen.
    destruct (decide (length living ≤ 2)%nat) as [Hle|Hgt].
    { rewrite Hsmall by done. lia. }
    rewrite Hbig by lia. case_decide.
    + rewrite length_take. lia.
    + rewrite length_app, length_take, Hshuf. lia.
  - intros Hlen. exists ranked. split; [done|]. split.
    { apply Sorted_StronglySorted; [apply ranks_before_trans|].
      assert (Hs : Sorted (rank_le counts) ranked)
        by apply Sorted_merge_sort, _.
      clear -Hs. induction Hs as [|a l _ IH Hhd]; constructor; [done|].
      destruct Hhd; constructor. by apply rank_le_mentions. }
    cbv zeta. fold pos. fold pool.
    split.
    + intros Hp. rewrite Hbig by done. by rewrite decide_True.
    + intros Hp. split; [|split; [lia|split; [|split; [|split]]]].
      * rewrite Hbig by done. by rewrite decide_False by lia.
      * apply shuffle_draws.
      * apply draws_from_vectors.
      * apply length_draw_vectors.
      * intros Hnd q Hq Hsub Hk.
        apply shuffle_fill_count; [|done..]. by apply NoDup_filter.
  - intros Hnd.
    destruct (decide (length living ≤ 2)%nat) as [Hle|Hgt].
    { by rewrite Hsmall. }
    rewrite Hbig by lia.
    assert (Hnd_pos : NoDup pos).
    { apply NoDup_filter. by rewrite Hperm. }
    case_decide.
    + eapply sublist_NoDup; [exact Hnd_pos|apply sublist_take].
    + apply NoDup_app. split; [done|]. split.
      * intros x Hx Hx'. apply subseteq_take in Hx'. rewrite Hshuf in Hx'.
        by apply list_elem_of_filter in Hx' as [? _].
      * eapply sublist_NoDup; [|apply sublist_take].
        rewrite Hshuf. by apply NoDup_filter.
  - intros Hlen Hzero.
    assert (E : pos = []).
    { destruct pos as [|a pos'] eqn:Ep; [done|].
      assert (Ha : a ∈ pos) by (rewrite Ep; by left).
      apply list_elem_of_filter in Ha as [Ha Har].
      rewrite Hperm in Har. rewrite (Hzero a Har) in Ha. lia. }
    assert (Epool : pool = living).
    { unfold pool. rewrite E. apply filter_all, Forall_forall.
      intros n _. apply not_elem_of_nil. }
    rewrite Hbig by done. by rewrite Epool, E.
  - intros Hwin n. unfold mentions, total_count. rewrite Hwin. simpl. lia.
Qed.

Lemma top_two_mentions_spec_witness :
  length (top_two_mentions quiet_day_state (λ _, 0%nat)).1 = 2%nat ∧
  (top_two_mentions quiet_day_state (λ _, 0%nat)).1
    = ("민수" :: take 1 (Random.shuffle ["지연"; "수아"; "하린"; "태훈"]
                           (λ _, 0%nat)).1) ∧
  length (filter (λ js, take 1 (Random.shuffle ["지연"; "수아"; "하린"; "태훈"]
                                  (source_of js)).1 = ["태훈"])
            (draw_vectors 4)) = fact 3 ∧
  length (draw_vectors 4) = fact 4 ∧
  (top_two_mentions opening_state (λ _, 0%nat)).1
    = take 2 (Random.shuffle (alive_ai opening_state) (λ _, 0%nat)).1.
Proof.
  destruct (top_two_mentions_spec quiet_day_state (λ _, 0%nat))
    as (Hlen & _ & Hrank & _ & _ & _ & _).
  destruct (top_two_mentions_spec opening_state (λ _, 0%nat))
    as (_ & _ & _ & _ & _ & Hzero & Hempty).
  assert (H5 : (2 < length (alive_ai quiet_day_state))%nat)
    by (vm_compute; lia).
  destruct (Hrank H5) as (ranked & Hperm & _ & _ & Hfill).
  cbv zeta in Hfill.
  assert (Epos : filter (λ n, (0 < mentions quiet_day_state n)%nat) ranked
                 = ["민수"]).
  { apply Permutation_singleton_r. rewrite Hperm.
    vm_compute. reflexivity. }
  rewrite Epos in Hfill.
  assert (Epool : filter (λ n, n ∉ ["민수"]) (alive_ai quiet_day_state)
                  = ["지연"; "수아"; "하린"; "태훈"])
    by (vm_compute; reflexivity).
  rewrite Epool in Hfill.
  destruct Hfill as (Hres & _ & _ & _ & Hall & Hcount); [simpl; lia|].
  split; [apply Hlen; vm_compute; lia|].
  split; [exact Hres|].
  split.
  { apply Hcount.
    - apply (bool_decide_unpack (NoDup (alive_ai quiet_day_state))).
      vm_compute. exact I.
    - apply NoDup_singleton.
    - intros n ->%list_elem_of_singleton.
      apply (bool_decide_unpack ("태훈" ∈ ["지연"; "수아"; "하린"; "태훈"])).
      vm_compute. exact I.
    - reflexivity. }
  split; [exact Hall|].
  apply Hzero; [vm_compute; lia|].
  intros n _. apply Hempty. reflexivity.
Defined.

(** * Further properties *)

Import Night Mentions Lines Vote.

(** ** More on the plurality tally *)

Lemma votes_for_Permutation v v' living label t :
  v ≡ₚ v' → votes_for v living label t = votes_for v' living label t.
Proof. intros Hp. unfold votes_for, valid_votes. by rewrite Hp. Qed.

(** X1: the result of the tally does not depend on the order in which the
    ballots are read. *)
Theorem tally_order_independent v v' living allow label :
  v ≡ₚ v' →
  tally_votes_plurality v living allow label
  = tally_votes_plurality v' living allow label.
Proof.
  intros Hp.
  assert (E : counter_of living label v = counter_of living label v').
  { apply map_eq. intros t.
    by rewrite !counter_of_lookup, (votes_for_Permutation v v'). }
  by rewrite !tally_unfold, E.
Qed.

Lemma tally_order_independent_witness :
  tally_votes_plurality [("B", "C"); ("C", "C"); ("A", "무처형")]
    ["A"; "B"; "C"] true "무처형"
  = tally_votes_plurality [("C", "C"); ("B", "C"); ("A", "무처형")]
      ["A"; "B"; "C"] true "무처형".
Proof. apply tally_order_independent. apply Permutation_swap. Defined.

(** The only way a name is returned: it is the single top name. *)
Lemma executed_top v living allow label x :
  (tally_votes_plurality v living allow label).1 = Some x →
  counter_of living label v ≠ ∅ ∧
  top_names_of (counter_of living label v) = [x] ∧
  (allow = true → x ≠ label) ∧
  x ∈ living.
Proof.
  rewrite tally_unfold. case_bool_decide as Hne; [done|].
  destruct (top_names_of _) as [|a [|b l]] eqn:Etop; [done| |done].
  destruct (allow && bool_decide (a = label)) eqn:Eal; simpl.
  { intros [=]. }
  intros Hax. destruct (bool_decide (a ∈ _)) eqn:Ein; [|done].
  injection Hax as ->. apply bool_decide_eq_true in Ein.
  split; [done|]. split; [done|]. split.
  - intros -> ->. simpl in Eal.
    by rewrite bool_decide_eq_true_2 in Eal by done.
  - by apply elem_of_list_to_set in Ein.
Qed.

(** The single top name holds a positive count, its number of valid
    votes. *)
Lemma top_name_count v living label x :
  counter_of living label v ≠ ∅ →
  top_names_of (counter_of living label v) = [x] →
  max_list (map_to_list (counter_of living label v)).*2
    = votes_for v living label x ∧
  (0 < votes_for v living label x)%nat.
Proof.
  intros Hne Htop.
  destruct (top_names_of_spec _ Hne) as (_ & Hmem & _ & _).
  assert (Hx : counter_of living label v !! x
               = Some (max_list (map_to_list (counter_of living label v)).*2)).
  { apply Hmem. rewrite Htop. by left. }
  rewrite counter_of_lookup in Hx. case_decide as Hz; [done|].
  injection Hx as Hx. split; [done|lia].
Qed.

(** X2: a name is executed only with a strict plurality: it holds more
    valid votes than every other target, the no-lynch label included, and
    it is not the no-lynch label when [allow_no_lynch] is on. *)
Theorem tally_executed_has_strict_plurality v living allow label x :
  (tally_votes_plurality v living allow label).1 = Some x →
  (∀ t, t ≠ x → votes_for v living label t < votes_for v living label x)%nat ∧
  (allow = true → x ≠ label).
Proof.
  intros (Hne & Htop & Hlab & _)%executed_top.
  split; [|done]. intros t Htx.
  destruct (top_name_count v living label x Hne Htop) as [Hmax Hpos].
  destruct (top_names_of_spec _ Hne) as (_ & Hmem & _ & Hle).
  pose proof (counter_of_lookup living label v t) as Ht.
  case_decide as Hz; [lia|].
  apply Hle in Ht as Hle'.
  destruct (decide (votes_for v living label t
                    = votes_for v living label x)) as [E|E]; [|lia].
  exfalso. apply Htx.
  assert (Hin : t ∈ top_names_of (counter_of living label v)).
  { apply Hmem. rewrite Ht. f_equal. lia. }
  rewrite Htop in Hin. by apply list_elem_of_singleton in Hin.
Qed.

Lemma tally_executed_has_strict_plurality_witness :
  (∀ t, t ≠ "C" →
        votes_for [("B", "C"); ("C", "C"); ("A", "무처형")]
                  ["A"; "B"; "C"] "무처형" t
        < votes_for [("B", "C"); ("C", "C"); ("A", "무처형")]
                    ["A"; "B"; "C"] "무처형" "C")%nat ∧
  (true = true → "C" ≠ "무처형").
Proof.
  apply (tally_executed_has_strict_plurality _ _ true). vm_compute. reflexivity.
Defined.

(** ** The living mafia *)

Lemma mafia_filter_fmap (ps : list (string * Player)) :
  filter (λ p, alive p = true ∧ role p = "MAFIA") ps.*2
  = (filter (λ kp, alive kp.2 = true ∧ role kp.2 = "MAFIA") ps).*2.
Proof.
  induction ps as [|[k p] ps IH]; [done|]. simpl.
  destruct (decide (alive p = true ∧ role p = "MAFIA")).
  - rewrite !filter_cons_True by done. simpl. by f_equal.
  - by rewrite !filter_cons_False by done.
Qed.

(** X3: [get_current_mafia] returns nothing exactly when no mafia is
    alive; the name it returns is the key of a living MAFIA player, the
    first one in the roster. *)
Theorem get_current_mafia_spec gs :
  (get_current_mafia gs = None ↔ mafia_alive gs = 0%nat) ∧
  (∀ k, get_current_mafia gs = Some k →
        ∃ before p after,
          players gs = (before ++ (k, p) :: after)%list ∧
          alive p = true ∧ role p = "MAFIA" ∧
          Forall (λ kq, ¬ (alive kq.2 = true ∧ role kq.2 = "MAFIA")) before).
Proof.
  unfold get_current_mafia, mafia_alive. rewrite mafia_filter_fmap. split.
  - rewrite length_fmap.
    destruct (filter _ (players gs)) as [|kp l]; simpl; split; done.
  - intros k Hk. induction (players gs) as [|[k' p'] ps IH]; [done|].
    destruct (decide (alive p' = true ∧ role p' = "MAFIA")) as [[Ha Hr]|Hn].
    + rewrite filter_cons_True in Hk by done. simpl in Hk.
      injection Hk as <-. exists [], p', ps. by repeat split.
    + rewrite filter_cons_False in Hk by done.
      destruct (IH Hk) as (before & p & after & -> & Ha & Hr & Hb).
      exists ((k', p') :: before), p, after. repeat split; try done.
      by constructor.
Qed.

Lemma get_current_mafia_spec_witness :
  get_current_mafia all_dead_roster = None
  ↔ mafia_alive all_dead_roster = 0%nat.
Proof. apply (proj1 (get_current_mafia_spec all_dead_roster)). Defined.

(** ** The roster as a dictionary *)

Lemma players_get_set_eq k p ps : players_get k (players_set k p ps) = Some p.
Proof.
  unfold players_get. induction ps as [|[k' q] ps IH]; simpl.
  - by rewrite filter_cons_True.
  - case_bool_decide as E.
    + subst. by rewrite filter_cons_True.
    + by rewrite filter_cons_False.
Qed.

Lemma players_get_set_ne k k' p ps :
  k ≠ k' → players_get k' (players_set k p ps) = players_get k' ps.
Proof.
  intros Hne. unfold players_get. induction ps as [|[k0 q] ps IH]; simpl.
  - rewrite filter_cons_False; [done|]. simpl. congruence.
  - case_bool_decide as E.
    + subst. by rewrite !(filter_cons_False _ (k, _)) by (simpl; congruence).
    + destruct (decide (k0 = k')) as [->|Hk].
      * by rewrite !filter_cons_True.
      * by rewrite !filter_cons_False.
Qed.

Lemma players_set_keys k p ps :
  is_Some (players_get k ps) → (players_set k p ps).*1 = ps.*1.
Proof.
  unfold players_get. induction ps as [|[k0 q] ps IH]; simpl.
  - by intros [? ?].
  - case_bool_decide as E; [done|].
    rewrite filter_cons_False by done. intros H. simpl. f_equal. by apply IH.
Qed.

Lemma choice_elem {A} (l : list A) g x g' :
  Random.choice l g = Some (x, g') → x ∈ l ∧ g' = Random.next g.
Proof.
  unfold Random.choice, Random.randbelow. destruct l as [|a l]; [done|].
  destruct ((a :: l) !! _) as [y|] eqn:E; [|done]. simpl.
  intros [= <- <-]. split; [|done]. by eapply list_elem_of_lookup_2.
Qed.

Lemma choice_total {A} (l : list A) g :
  l ≠ [] → ∃ x, Random.choice l g = Some (x, Random.next g).
Proof.
  unfold Random.choice, Random.randbelow. destruct l as [|a l]; [done|].
  intros _.
  destruct (lookup_lt_is_Some_2 (a :: l) (g 0%nat mod length (a :: l))%nat)
    as [x Hx].
  { apply Nat.mod_upper_bound. simpl. lia. }
  exists x. by rewrite Hx.
Qed.


Lemma odict_get_set_eq n v d : odict_get n (odict_set n v d) = v.
Proof.
  unfold odict_get. induction d as [|[k w] d IH]; simpl.
  - by rewrite filter_cons_True.
  - case_bool_decide as E.
    + subst. by rewrite filter_cons_True.
    + by rewrite filter_cons_False.
Qed.

Lemma odict_get_set_ne n m v d :
  n ≠ m → odict_get m (odict_set n v d) = odict_get m d.
Proof.
  intros Hne. unfold odict_get. induction d as [|[k w] d IH]; simpl.
  - rewrite filter_cons_False; [done|]. simpl. congruence.
  - case_bool_decide as E.
    + subst. by rewrite !(filter_cons_False _ (n, _)) by (simpl; congruence).
    + destruct (decide (k = m)) as [->|Hk].
      * by rewrite !filter_cons_True.
      * by rewrite !filter_cons_False.
Qed.

Lemma odict_set_keys n v d :
  (odict_set n v d).*1 = if decide (n ∈ d.*1) then d.*1 else (d.*1 ++ [n])%list.
Proof.
  induction d as [|[k w] d IH].
  - destruct (decide (n ∈ _)) as [H|H]; [by apply elem_of_nil in H|done].
  - cbn [odict_set]. case_bool_decide as E.
    + subst. rewrite decide_True; [done|]. by left.
    + rewrite fmap_cons, IH. cbn [fst fmap list_fmap].
      destruct (decide (n ∈ d.*1)) as [Hin|Hin].
      * rewrite decide_True; [done|]. by right.
      * rewrite decide_False; [done|].
        rewrite not_elem_of_cons. split; [congruence|done].
Qed.

Lemma odict_set_elem n v d m :
  m ∈ (odict_set n v d).*1 ↔ m = n ∨ m ∈ d.*1.
Proof.
  rewrite odict_set_keys. case_decide as Hin.
  - split; [by right|]. by intros [->|?].
  - rewrite elem_of_app, list_elem_of_singleton. tauto.
Qed.

Lemma odict_set_NoDup n v d : NoDup d.*1 → NoDup (odict_set n v d).*1.
Proof.
  intros Hnd. rewrite odict_set_keys. case_decide as Hin; [done|].
  apply NoDup_app. split; [done|]. split; [|apply NoDup_singleton].
  intros x Hx ->%list_elem_of_singleton. done.
Qed.

Lemma odict_entry k c d : NoDup d.*1 → (k, c) ∈ d → odict_get k d = c.
Proof.
  unfold odict_get. induction d as [|[k' c'] d IH]; simpl.
  - by intros _ ?%elem_of_nil.
  - intros [Hk Hnd]%NoDup_cons [[= -> ->]|Hin]%elem_of_cons.
    + by rewrite filter_cons_True.
    + rewrite filter_cons_False; [by apply IH|]. simpl. intros ->.
      apply Hk. apply list_elem_of_fmap. by exists (k, c).
Qed.

Lemma odict_has_entry k d : k ∈ d.*1 → (k, odict_get k d) ∈ d.
Proof.
  unfold odict_get. induction d as [|[k' c'] d IH]; simpl.
  - by intros ?%elem_of_nil.
  - destruct (decide (k' = k)) as [->|Hne].
    + intros _. rewrite filter_cons_True by done. by left.
    + rewrite filter_cons_False by done.
      intros [?|Hin]%elem_of_cons; [congruence|]. right. by apply IH.
Qed.

Lemma init_counts_spec cands acc :
  NoDup acc.*1 →
  NoDup (foldl (λ c n, odict_set n 0%nat c) acc cands).*1 ∧
  (∀ m, m ∈ (foldl (λ c n, odict_set n 0%nat c) acc cands).*1
        ↔ m ∈ acc.*1 ∨ m ∈ cands) ∧
  (∀ m, odict_get m (foldl (λ c n, odict_set n 0%nat c) acc cands)
        = if decide (m ∈ cands) then 0%nat else odict_get m acc).
Proof.
  revert acc. induction cands as [|n cands IH]; intros acc Hnd; cbn [foldl].
  - split; [done|]. split.
    + intros m. rewrite elem_of_nil. tauto.
    + intros m. rewrite decide_False; [done|]. apply not_elem_of_nil.
  - destruct (IH (odict_set n 0%nat acc)) as (Hnd' & Hk & Hg);
      [by apply odict_set_NoDup|].
    split; [done|]. split.
    + intros m. rewrite Hk, odict_set_elem, elem_of_cons. tauto.
    + intros m. rewrite Hg.
      destruct (decide (m ∈ cands)) as [Hin|Hin].
      * rewrite decide_True; [done|]. by right.
      * destruct (decide (m = n)) as [->|Hne].
        -- rewrite decide_True by (by left). apply odict_get_set_eq.
        -- rewrite decide_False by (rewrite elem_of_cons; tauto).
           by apply odict_get_set_ne.
Qed.

Lemma tick_spec cands c line :
  (∀ n, n ∈ cands → n ∈ c.*1) →
  (tick cands c line).*1 = c.*1 ∧
  (∀ m, odict_get m (tick cands c line)
        = (odict_get m c
           + if PyStr.contains m line then occurrences m cands else 0)%nat).
Proof.
  unfold tick. revert c. induction cands as [|n cands IH]; intros c Hsub; simpl.
  - split; [done|]. intros m. unfold occurrences. simpl.
    destruct (PyStr.contains m line); lia.
  - assert (Hn : n ∈ c.*1) by (apply Hsub; by left).
    destruct (PyStr.contains n line) eqn:En.
    + destruct (IH (odict_set n (odict_get n c + 1)%nat c)) as [Hk Hg].
      { intros x Hx. apply odict_set_elem. right. apply Hsub. by right. }
      split.
      * rewrite Hk, odict_set_keys. by rewrite decide_True.
      * intros m. rewrite Hg. unfold occurrences.
        destruct (decide (n = m)) as [->|Hne].
        -- rewrite odict_get_set_eq, En, filter_cons_True by done. simpl. lia.
        -- rewrite odict_get_set_ne, filter_cons_False by done. done.
    + destruct (IH c) as [Hk Hg].
      { intros x Hx. apply Hsub. by right. }
      split; [done|]. intros m. rewrite Hg. unfold occurrences.
      destruct (decide (n = m)) as [->|Hne].
      * rewrite En. by destruct (decide (m = m)).
      * by rewrite filter_cons_False.
Qed.

Lemma tick_fold_spec cands w c :
  (∀ n, n ∈ cands → n ∈ c.*1) →
  (foldl (tick cands) c w).*1 = c.*1 ∧
  (∀ m, odict_get m (foldl (tick cands) c w)
        = (odict_get m c + occurrences m cands * mentions m w)%nat).
Proof.
  revert c. induction w as [|line w IH]; intros c Hsub; simpl.
  - split; [done|]. intros m. unfold mentions. simpl. lia.
  - destruct (tick_spec cands c line Hsub) as [Hk Hg].
    destruct (IH (tick cands c line)) as [Hk' Hg'].
    { intros n Hn. rewrite Hk. by apply Hsub. }
    split; [by rewrite Hk'|].
    intros m. rewrite Hg', Hg. unfold mentions.
    destruct (PyStr.contains m line) eqn:Em.
    + rewrite filter_cons_True by done. simpl. lia.
    + rewrite filter_cons_False by (by rewrite Em). lia.
Qed.

(** What the counting loops of [mafia_kill] compute. *)
Lemma night_counts_spec cands w :
  NoDup (night_counts cands w).*1 ∧
  (∀ m, m ∈ (night_counts cands w).*1 ↔ m ∈ cands) ∧
  (∀ m, odict_get m (night_counts cands w)
        = (occurrences m cands * mentions m w)%nat).
Proof.
  unfold night_counts.
  destruct (init_counts_spec cands []) as (Hnd & Hk & Hg); [constructor|].
  destruct (tick_fold_spec cands w
              (foldl (λ c n, odict_set n 0%nat c) [] cands)) as [Hk' Hg'].
  { intros n Hn. apply Hk. by right. }
  split; [by rewrite Hk'|]. split.
  - intros m. rewrite Hk', Hk, elem_of_nil. tauto.
  - intros m. rewrite Hg', Hg. by case_decide.
Qed.

Lemma pick_victim_spec cands w g :
  cands ≠ [] →
  ∃ v, pick_victim cands w g = Some (v, Random.next g) ∧
       v ∈ cands ∧
       ∀ n, n ∈ cands →
            (occurrences n cands * mentions n w
             ≤ occurrences v cands * mentions v w)%nat.
Proof.
  intros Hne. unfold pick_victim.
  destruct (night_counts_spec cands w) as (Hnd & Hk & Hg).
  set (counts := night_counts cands w) in *.
  case_bool_decide as Hex.
  - assert (Htop : max_list counts.*2 ∈ counts.*2).
    { apply max_list_elem_of. intros E. apply fmap_nil_inv in E.
      rewrite E in Hex. by apply Exists_nil in Hex. }
    apply list_elem_of_fmap in Htop as [[k c] [Hc Hin]]. simpl in Hc.
    set (pool := (filter (λ kv, kv.2 = max_list counts.*2) counts).*1).
    assert (Hpool : pool ≠ []).
    { intros E. apply fmap_nil_inv in E.
      assert (Hkc : (k, c) ∈ filter (λ kv, kv.2 = max_list counts.*2) counts).
      { apply list_elem_of_filter. by split. }
      rewrite E in Hkc. by apply elem_of_nil in Hkc. }
    destruct (choice_total pool g Hpool) as [v Hv].
    exists v. split; [done|].
    apply choice_elem in Hv as [Hv _].
    apply list_elem_of_fmap in Hv as [[v' cv] [-> Hv]]. simpl.
    apply list_elem_of_filter in Hv as [Hcv Hv]. simpl in Hcv.
    assert (Hvk : v' ∈ counts.*1).
    { apply list_elem_of_fmap. by exists (v', cv). }
    split; [by apply Hk|].
    intros n Hn. rewrite <- !Hg.
    rewrite (odict_entry v' cv counts Hnd Hv), Hcv.
    apply max_list_elem_of_le. apply list_elem_of_fmap.
    exists (n, odict_get n counts). split; [done|].
    apply odict_has_entry. by apply Hk.
  - destruct (choice_total cands g Hne) as [v Hv].
    exists v. split; [done|].
    apply choice_elem in Hv as [Hv _]. split; [done|].
    intros n Hn. rewrite <- !Hg.
    assert (Hz : odict_get n counts = 0%nat).
    { apply not_Exists_Forall in Hex; [|intros x; apply _].
      rewrite Forall_forall in Hex.
      specialize (Hex (n, odict_get n counts)).
      destruct (decide (odict_get n counts = 0%nat)) as [|Hnz]; [done|].
      exfalso. apply Hex; [|done].
      apply odict_has_entry. by apply Hk. }
    lia.
Qed.

Lemma mafia_kill_unfold gs g :
  round gs ≠ 1%Z →
  mafia_kill gs g =
    match get_current_mafia gs with
    | None | Some "" => Some (None, gs, g)
    | Some m =>
        match filter (λ n, n ≠ m) (alive_players gs) with
        | [] => Some (None, gs, g)
        | cands =>
            '(pick, g') ← pick_victim cands (window gs) g;
            match players_get pick (players gs) with
            | None => Some (None, gs, g')
            | Some p =>
                if negb (alive p) then Some (None, gs, g')
                else
                  gs1 ← set_alive pick false gs;
                  Some (Some pick, log_append (death_entry pick) gs1, g')
            end
        end
    end.
Proof.
  intros Hr. unfold mafia_kill. rewrite bool_decide_eq_false_2 by done.
  destruct (get_current_mafia gs) as [m|]; [|done].
  destruct m as [|a m]; [done|].
  by destruct (filter _ (alive_players gs)).
Qed.

(** The outcomes of a night after the first one. *)
Lemma mafia_kill_cases gs g :
  round gs ≠ 1%Z →
  (∃ g', mafia_kill gs g = Some (None, gs, g')) ∨
  (∃ m v p,
     get_current_mafia gs = Some m ∧
     v ∈ filter (λ n, n ≠ m) (alive_players gs) ∧
     players_get v (players gs) = Some p ∧ alive p = true ∧
     (∀ n, n ∈ filter (λ n, n ≠ m) (alive_players gs) →
           (occurrences n (filter (λ n, n ≠ m) (alive_players gs))
              * mentions n (window gs)
            ≤ occurrences v (filter (λ n, n ≠ m) (alive_players gs))
              * mentions v (window gs))%nat) ∧
     mafia_kill gs g = Some (Some v, after_kill v p gs, Random.next g)).
Proof.
  intros Hr. rewrite mafia_kill_unfold by done.
  destruct (get_current_mafia gs) as [m|] eqn:Em; [|left; eauto].
  destruct m as [|a m]; [left; eauto|].
  set (mn := String a m) in *.
  destruct (filter (λ n, n ≠ mn) (alive_players gs)) as [|c cs] eqn:Ec;
    [left; eauto|].
  destruct (pick_victim_spec (c :: cs) (window gs) g) as (v & -> & Hv & Hmax);
    [done|].
  simpl.
  destruct (players_get v (players gs)) as [p|] eqn:Ep; [|left; eauto].
  destruct (alive p) eqn:Ea; simpl; [|left; eauto].
  right. exists mn, v, p. rewrite Ec. repeat split; try done.
  unfold set_alive. by rewrite Ep.
Qed.

(** X4: [mafia_kill] never raises.  When it returns no victim no player is
    touched, and after the first round the whole state is left as it was. *)
Theorem mafia_kill_never_raises gs g :
  ∃ r gs' g',
    mafia_kill gs g = Some (r, gs', g') ∧
    (r = None → players gs' = players gs ∧ (round gs ≠ 1%Z → gs' = gs)).
Proof.
  destruct (decide (round gs = 1%Z)) as [Hr|Hr].
  - exists None, (log_append first_night_entry gs), g.
    unfold mafia_kill. rewrite bool_decide_eq_true_2 by done. by split.
  - destruct (mafia_kill_cases gs g Hr)
      as [[g' ->]|(m & v & p & _ & _ & _ & _ & _ & ->)].
    + exists None, gs, g'. by split.
    + exists (Some v), (after_kill v p gs), (Random.next g). by split.
Qed.

Lemma mafia_kill_never_raises_witness :
  ∃ r gs' g',
    mafia_kill all_dead_roster (λ _, 0%nat) = Some (r, gs', g') ∧
    (r = None →
     players gs' = players all_dead_roster ∧
     (round all_dead_roster ≠ 1%Z → gs' = all_dead_roster)).
Proof. apply (mafia_kill_never_raises all_dead_roster (λ _, 0%nat)). Defined.

(** X5: the victim of a night kill is a living player other than the
    current mafia; the kill clears the alive flag of the player stored under
    the victim's name, leaves every other player, the roster order and all
    other fields as they were, and appends one entry to the event log. *)
Theorem mafia_kill_victim gs g v gs' g' :
  mafia_kill gs g = Some (Some v, gs', g') →
  v ∈ alive_players gs ∧
  get_current_mafia gs ≠ Some v ∧
  round gs ≠ 1%Z ∧
  (∃ p, players_get v (players gs) = Some p ∧ alive p = true ∧
        players_get v (players gs')
        = Some (mkPlayer (name p) (role p) false)) ∧
  (∀ k, k ≠ v → players_get k (players gs') = players_get k (players gs)) ∧
  (players gs').*1 = (players gs).*1 ∧
  log gs' = (log gs ++ [death_entry v])%list ∧
  round gs' = round gs ∧ phase gs' = phase gs ∧
  dialogue_history gs' = dialogue_history gs ∧
  last_line_by_name gs' = last_line_by_name gs ∧
  dialogue_round_start_idx gs' = dialogue_round_start_idx gs.
Proof.
  intros Hrun.
  assert (Hr : round gs ≠ 1%Z).
  { intros Hr. unfold mafia_kill in Hrun.
    by rewrite bool_decide_eq_true_2 in Hrun by done. }
  destruct (mafia_kill_cases gs g Hr)
    as [[g1 E]|(m & v1 & p & Hm & Hv & Hp & Ha & _ & E)];
    rewrite E in Hrun; [done|].
  injection Hrun as -> <- <-.
  apply list_elem_of_filter in Hv as [Hvm Hv].
  split; [done|]. split; [congruence|]. split; [done|].
  split; [|split; [|split]].
  - exists p. split; [done|]. split; [done|].
    unfold after_kill. simpl. apply players_get_set_eq.
  - intros k Hk. unfold after_kill. simpl. by apply players_get_set_ne.
  - unfold after_kill. simpl. apply players_set_keys. by rewrite Hp.
  - done.
Qed.

Lemma mafia_kill_victim_witness :
  "민수" ∈ alive_players second_day_state ∧
  get_current_mafia second_day_state ≠ Some "민수".
Proof.
  destruct (mafia_kill_victim second_day_state (λ _, 0%nat) "민수"
              (after_kill "민수" (mkPlayer "민수" "CITIZEN" true)
                 second_day_state)
              (Random.next (λ _, 0%nat)))
    as (H1 & H2 & _).
  - vm_compute. reflexivity.
  - exact (conj H1 H2).
Defined.

(** X6: when the living names are distinct, no living player other than
    the mafia is named in more of the last 30 transcript lines than the
    victim. *)
Theorem mafia_kill_victim_most_mentioned gs g v gs' g' :
  NoDup (alive_players gs) →
  mafia_kill gs g = Some (Some v, gs', g') →
  ∀ n, n ∈ alive_players gs → get_current_mafia gs ≠ Some n →
       (mentions n (window gs) ≤ mentions v (window gs))%nat.
Proof.
  intros Hnd Hrun n Hn Hnm.
  assert (Hr : round gs ≠ 1%Z).
  { intros Hr. unfold mafia_kill in Hrun.
    by rewrite bool_decide_eq_true_2 in Hrun by done. }
  destruct (mafia_kill_cases gs g Hr)
    as [[g1 E]|(m & v1 & p & Hm & Hv & Hp & Ha & Hmax & E)];
    rewrite E in Hrun; [done|].
  injection Hrun as -> <- <-.
  assert (Hndc : NoDup (filter (λ n, n ≠ m) (alive_players gs)))
    by by apply NoDup_filter.
  assert (Hnc : n ∈ filter (λ n, n ≠ m) (alive_players gs)).
  { apply list_elem_of_filter. split; [congruence|done]. }
  specialize (Hmax n Hnc).
  by rewrite !occurrences_NoDup, !Nat.mul_1_l in Hmax.
Qed.

Lemma mafia_kill_victim_most_mentioned_witness :
  (mentions "지연" (window second_day_state)
   ≤ mentions "민수" (window second_day_state))%nat.
Proof.
  apply (mafia_kill_victim_most_mentioned second_day_state (λ _, 0%nat) "민수"
           (after_kill "민수" (mkPlayer "민수" "CITIZEN" true)
              second_day_state)
           (Random.next (λ _, 0%nat))).
  - apply (bool_decide_unpack (NoDup (alive_players second_day_state))).
    vm_compute. exact I.
  - vm_compute. reflexivity.
  - apply (bool_decide_unpack ("지연" ∈ alive_players second_day_state)).
    vm_compute. exact I.
  - vm_compute. discriminate.
Defined.


(** ** Mention counts *)

(** X7: [mention_counts_for_today] has exactly the living non-human names
    as keys, and the count of a name is the number of its occurrences in
    the lines of the day window (once per living player of that name). *)
Theorem mention_counts_spec gs :
  (∀ n, is_Some (mention_counts_for_today gs !! n) ↔ n ∈ alive_ai gs) ∧
  (∀ n, get0 (mention_counts_for_today gs) n
        = (occurrences n (alive_ai gs) * total_count n (day_window gs))%nat) ∧
  (NoDup (alive_players gs) →
   ∀ n, n ∈ alive_ai gs →
        mention_counts_for_today gs !! n
        = Some (total_count n (day_window gs))).
Proof.
  unfold mention_counts_for_today.
  change (filter (λ n, n ≠ human) (alive_players gs)) with (alive_ai gs).
  change (PyStr.slice_from _ _) with (day_window gs).
  set (c0 := foldl (λ c n, <[n := 0%nat]> c) ∅ (alive_ai gs)).
  assert (Hc0 : ∀ m, c0 !! m = if decide (m ∈ alive_ai gs) then Some 0%nat
                               else None).
  { intros m. unfold c0. rewrite init_zero_spec. by rewrite lookup_empty. }
  destruct (bump_window_spec (alive_ai gs) (day_window gs) c0) as [Hg Hk].
  assert (Hkeys : ∀ n, is_Some
     (foldl (λ c line,
        foldl (λ c n, bump n (_count_name_in_line n line) c) c (alive_ai gs))
        c0 (day_window gs) !! n) ↔ n ∈ alive_ai gs).
  { intros n.
    destruct (alive_ai gs) as [|a l] eqn:El.
    - assert (E : ∀ (w : list string) (c : gmap string nat),
                foldl (λ c line, foldl (λ c n,
                  bump n (_count_name_in_line n line) c) c []) c w = c).
      { induction w as [|? w IHw]; intros c; simpl; [done|]. apply IHw. }
      rewrite E, Hc0. rewrite decide_False by apply not_elem_of_nil.
      split; [by intros [? ?]|by intros ?%elem_of_nil].
    - rewrite Hk by (by left). rewrite Hc0.
      case_decide as Hin; split; try tauto; eauto.
      + intros [[? ?]|[? _]]; done. }
  split; [done|]. split.
  - intros n. rewrite Hg. unfold get0 at 1. rewrite Hc0.
    by case_decide.
  - intros Hnd n Hn. pose proof (proj2 (Hkeys n) Hn) as [x Hx].
    pose proof (Hg n) as Hgn. unfold get0 at 1 in Hgn. rewrite Hx in Hgn.
    simpl in Hgn. unfold get0 in Hgn. rewrite Hc0 in Hgn.
    rewrite decide_True in Hgn by done. simpl in Hgn.
    rewrite occurrences_NoDup in Hgn; [| by apply NoDup_filter | done].
    rewrite Hx. f_equal. lia.
Qed.

Lemma mention_counts_spec_witness :
  mention_counts_for_today second_day_state !! "민수"
  = Some (total_count "민수" (day_window second_day_state)).
Proof.
  apply (proj2 (proj2 (mention_counts_spec second_day_state))).
  - apply (bool_decide_unpack (NoDup (alive_players second_day_state))).
    vm_compute. exact I.
  - apply (bool_decide_unpack ("민수" ∈ alive_ai second_day_state)).
    vm_compute. exact I.
Defined.

(** X8: [start_new_day] changes only the start index; right after it the
    day window is empty, and once lines have been appended to the
    transcript the day window holds exactly those lines. *)
Theorem start_new_day_window gs :
  day_window (start_new_day gs) = [] ∧
  (∀ new gs',
     dialogue_history gs' = (dialogue_history gs ++ new)%list →
     dialogue_round_start_idx gs'
       = dialogue_round_start_idx (start_new_day gs) →
     day_window gs' = new) ∧
  (0 ≤ dialogue_round_start_idx (start_new_day gs)
     ≤ Z.of_nat (length (dialogue_history (start_new_day gs))))%Z ∧
  players (start_new_day gs) = players gs ∧
  dialogue_history (start_new_day gs) = dialogue_history gs ∧
  log (start_new_day gs) = log gs ∧
  round (start_new_day gs) = round gs ∧
  phase (start_new_day gs) = phase gs ∧
  last_line_by_name (start_new_day gs) = last_line_by_name gs.
Proof.
  assert (Hslice : ∀ (h new : list string),
            PyStr.slice_from (Z.of_nat (length h)) (h ++ new)%list = new).
  { intros h new. unfold PyStr.slice_from.
    destruct (Z.ltb_spec (Z.of_nat (length h)) 0); [lia|].
    rewrite Nat2Z.id. apply drop_app_length. }
  split; [|split; [|split]].
  - unfold day_window. simpl.
    specialize (Hslice (dialogue_history gs) []).
    by rewrite app_nil_r in Hslice.
  - intros new gs' Hh Hi. unfold day_window. rewrite Hi, Hh. simpl.
    apply Hslice.
  - simpl. lia.
  - done.
Qed.

Lemma start_new_day_window_witness :
  day_window
    (mkGameState 2 DAY_DISCUSS (players opening_state) []
       (dialogue_history (start_new_day second_day_state)
        ++ ["민수: 태훈이 수상합니다."])
       ∅ (dialogue_round_start_idx (start_new_day second_day_state)))
  = ["민수: 태훈이 수상합니다."].
Proof.
  apply (proj1 (proj2 (start_new_day_window second_day_state))); reflexivity.
Defined.

(** ** Occurrences and containment *)

Lemma prefix_nonempty_false sub :
  sub ≠ "" → String.prefix sub "" = false.
Proof. by destruct sub. Qed.

Lemma count_pos_iff_contains sub line :
  sub ≠ "" → (0 < PyStr.count sub line)%nat ↔ PyStr.contains sub line = true.
Proof.
  intros Hsub. unfold PyStr.count.
  induction line as [|a rest IH].
  - destruct sub; [done|]. simpl. split; [lia|done].
  - cbn [PyStr.count_from PyStr.contains].
    destruct (String.prefix sub (String a rest)) eqn:E.
    + simpl. split; [done|lia].
    + simpl. exact IH.
Qed.

(** X9: a line adds to the mention count of a name exactly when the name is
    not empty and the line contains it, so the count of a name over a
    window is at least the number of lines of the window that contain
    it. *)
Theorem count_name_agrees_with_containment n :
  (∀ line, (0 < _count_name_in_line n line)%nat
           ↔ n ≠ "" ∧ PyStr.contains n line = true) ∧
  (n ≠ "" → ∀ w, (mentions n w ≤ total_count n w)%nat).
Proof.
  assert (H : ∀ line, (0 < _count_name_in_line n line)%nat
                      ↔ n ≠ "" ∧ PyStr.contains n line = true).
  { intros line. unfold _count_name_in_line.
    case_bool_decide as Hn; simpl.
    - split; [lia|]. by intros [? _].
    - case_bool_decide as Hl; simpl.
      + subst. split; [lia|]. intros [_ Hc]. by destruct n.
      + rewrite count_pos_iff_contains by done. tauto. }
  split; [done|].
  intros Hn w. unfold mentions, total_count.
  induction w as [|line w IH]; [done|].
  simpl.
  change (list_fmap string nat (_count_name_in_line n) w)
    with (_count_name_in_line n <$> w).
  destruct (PyStr.contains n line) eqn:E.
  - rewrite filter_cons_True by done. simpl.
    assert (0 < _count_name_in_line n line)%nat by (by apply H).
    lia.
  - rewrite filter_cons_False by (by rewrite E). lia.
Qed.

Lemma count_name_agrees_with_containment_witness :
  (mentions "민수" (day_window second_day_state)
   ≤ total_count "민수" (day_window second_day_state))%nat.
Proof.
  apply (proj2 (count_name_agrees_with_containment "민수")). discriminate.
Defined.

(** ** Lines written in a discussion turn *)


Lemma fallbacks_presentable : Forall presentable FALLBACKS.
Proof.
  apply (bool_decide_unpack (Forall presentable FALLBACKS)).
  vm_compute. exact I.
Qed.

Section LineProofs.

Variable strip : string → string.

(** X10: [_anti_repeat_line] never raises and never returns an empty line or
    a generic phrase; it returns either a fallback phrase or the stripped
    proposal, and the latter only when it differs from the speaker's last
    line, in which case no random draw is consumed. *)
Theorem anti_repeat_line_spec gs n l g :
  ∃ r g',
    _anti_repeat_line strip gs n l g = Some (r, g') ∧
    presentable r ∧
    (r ∈ FALLBACKS ∨
     (r = strip l ∧ g' = g ∧
      r ≠ default "" (last_line_by_name gs !! n))).
Proof.
  unfold _anti_repeat_line.
  destruct (bool_decide (strip l = "")) eqn:E1; simpl.
  { destruct (choice_total FALLBACKS g) as [r Hr]; [done|].
    exists r, (Random.next g). split; [done|].
    apply choice_elem in Hr as [Hr _].
    split; [|by left].
    by eapply (proj1 (Forall_forall _ _) fallbacks_presentable). }
  destruct (bool_decide (strip l ∈ GENERIC_PHRASES)) eqn:E2; simpl.
  { destruct (choice_total FALLBACKS g) as [r Hr]; [done|].
    exists r, (Random.next g). split; [done|].
    apply choice_elem in Hr as [Hr _].
    split; [|by left].
    by eapply (proj1 (Forall_forall _ _) fallbacks_presentable). }
  destruct (bool_decide (strip l = default "" (last_line_by_name gs !! n)))
    eqn:E3; simpl.
  { destruct (choice_total FALLBACKS g) as [r Hr]; [done|].
    exists r, (Random.next g). split; [done|].
    apply choice_elem in Hr as [Hr _].
    split; [|by left].
    by eapply (proj1 (Forall_forall _ _) fallbacks_presentable). }
  apply bool_decide_eq_false in E1, E2, E3.
  exists (strip l), g. split; [done|]. split; [by split|]. by right.
Qed.

Lemma anti_repeat_presentable gs n l g :
  ∃ r g', _anti_repeat_line strip gs n l g = Some (r, g') ∧ presentable r.
Proof.
  rewrite anti_repeat_cases. case_decide as Hk.
  - exists (strip l), g. split; [done|]. destruct Hk as (? & ? & _). by split.
  - eexists _, _. split; [done|].
    eapply (proj1 (Forall_forall _ _) fallbacks_presentable), fallback_elem.
Qed.

Lemma fix_lines_presentable gs pairs out g out' g' :
  Forall (λ nl, presentable nl.2) out →
  fix_lines strip gs pairs out g = Some (out', g') →
  Forall (λ nl, presentable nl.2) out'.
Proof.
  revert out g. induction pairs as [|[n l] pairs IH]; intros out g Hout;
    cbn [fix_lines].
  - by intros [= <- <-].
  - destruct (anti_repeat_presentable gs n l g) as (r & g1 & -> & Hr).
    simpl. apply IH. apply Forall_app. split; [done|]. by constructor.
Qed.

Lemma backfill_presentable (spoken : gset string) living out g out' g' :
  Forall (λ nl, presentable nl.2) out →
  backfill spoken living out g = Some (out', g') →
  Forall (λ nl, presentable nl.2) out'.
Proof.
  revert out g. induction living as [|n living IH]; intros out g Hout;
    cbn [backfill].
  - by intros [= <- <-].
  - case_bool_decide; [by apply IH|].
    case_bool_decide; [|by apply IH].
    destruct (choice_total FALLBACKS g) as [r Hr]; [done|].
    rewrite Hr. simpl. apply IH. apply Forall_app. split; [done|].
    constructor; [|done]. simpl. apply choice_elem in Hr as [Hr _].
    by eapply (proj1 (Forall_forall _ _) fallbacks_presentable).
Qed.

(** X11: [_ensure_all_speak] never raises; it returns the proposed speakers
    in their order, followed by the living AI players that were not
    proposed, in roster order; and every line it returns is neither empty
    nor a generic phrase. *)
Theorem ensure_all_speak_spec gs pairs g :
  ∃ out g',
    _ensure_all_speak strip gs pairs g = Some (out, g') ∧
    out.*1 = (pairs.*1 ++
              filter (λ n, n ≠ human ∧ n ∉ pairs.*1) (alive_players gs))%list ∧
    Forall (λ nl, presentable nl.2) out.
Proof.
  destruct (ensure_all_speak_names strip gs pairs g) as (out & g' & E & Hn).
  exists out, g'. split; [done|]. split; [done|].
  unfold _ensure_all_speak in E.
  destruct (fix_lines strip gs pairs [] g) as [[fixed g1]|] eqn:Ef; [|done].
  simpl in E.
  eapply backfill_presentable; [|exact E].
  eapply fix_lines_presentable; [|exact Ef]. constructor.
Qed.

Lemma say_frame gs pairs :
  players (foldl say gs pairs) = players gs ∧
  log (foldl say gs pairs) = log gs ∧
  round (foldl say gs pairs) = round gs ∧
  phase (foldl say gs pairs) = phase gs ∧
  dialogue_round_start_idx (foldl say gs pairs) = dialogue_round_start_idx gs.
Proof.
  revert gs. induction pairs as [|nl pairs IH]; intros gs; simpl; [done|].
  destruct (IH (say gs nl)) as (-> & -> & -> & -> & ->). done.
Qed.

Lemma say_last_line gs pairs n :
  last_line_by_name (foldl say gs pairs) !! n
  = match last (filter (λ nl, nl.1 = n) pairs) with
    | Some nl => Some nl.2
    | None => last_line_by_name gs !! n
    end.
Proof.
  induction pairs as [|nl pairs IH] using rev_ind; [done|].
  rewrite foldl_app, filter_app. simpl.
  destruct (decide (nl.1 = n)) as [E|E].
  - rewrite (filter_cons_True _ nl) by done. rewrite filter_nil, last_snoc.
    rewrite E. apply lookup_insert_eq.
  - rewrite (filter_cons_False _ nl) by done. rewrite filter_nil, app_nil_r.
    rewrite lookup_insert_ne by done. apply IH.
Qed.

(** X12: a discussion turn only appends to the transcript and updates the
    last-line cache: players, event log, round, phase and day-window index
    stay as they were, every transcript line of before is kept in place,
    and afterwards the cache holds, for each speaker of the turn, the last
    line written for that speaker, and the old entry for everybody else. *)
Theorem day_discuss_frame gs data g pairs gs' g' :
  day_discuss strip gs data g = Some (pairs, gs', g') →
  players gs' = players gs ∧ log gs' = log gs ∧
  round gs' = round gs ∧ phase gs' = phase gs ∧
  dialogue_round_start_idx gs' = dialogue_round_start_idx gs ∧
  take (length (dialogue_history gs)) (dialogue_history gs')
    = dialogue_history gs ∧
  length (dialogue_history gs')
    = (length (dialogue_history gs) + length pairs)%nat ∧
  ∀ n, last_line_by_name gs' !! n
       = match last (filter (λ nl, nl.1 = n) pairs) with
         | Some nl => Some nl.2
         | None => last_line_by_name gs !! n
         end.
Proof.
  destruct data as [items|]; [|done]. cbn [day_discuss].
  destruct (accepted gs items) as [prs|]; [|done].
  cbn [mbind option_bind].
  destruct (_ensure_all_speak strip gs prs g) as [[out g1]|]; [|done].
  simpl. intros [= <- <- <-].
  destruct (say_frame gs out) as (-> & -> & -> & -> & ->).
  rewrite say_history.
  repeat split; try done.
  - by rewrite take_app_length.
  - by rewrite length_app, length_fmap.
  - apply say_last_line.
Qed.

End LineProofs.

Lemma day_discuss_frame_witness :
  ∃ pairs gs' g',
    day_discuss (λ s, s) opening_state reply_with_one (λ _, 0%nat)
      = Some (pairs, gs', g') ∧
    players gs' = players opening_state.
Proof.
  destruct (day_discuss (λ s, s) opening_state reply_with_one (λ _, 0%nat))
    as [[[pairs gs'] g']|] eqn:E; [|vm_compute in E; discriminate].
  exists pairs, gs', g'. split; [reflexivity|].
  apply (day_discuss_frame (λ s, s) opening_state reply_with_one
           (λ _, 0%nat) pairs gs' g' E).
Defined.

(** ** The day vote *)

Lemma vdict_set_values (Q : string → Prop) k v d :
  Q v → Forall (λ b, Q b.2) d → Forall (λ b, Q b.2) (vdict_set k v d).
Proof.
  intros Hv. induction 1 as [|[k' v'] d Hb Hd IH]; simpl.
  - by repeat constructor.
  - case_bool_decide; constructor; done.
Qed.

Lemma vdict_set_fresh k v d :
  k ∉ d.*1 → vdict_set k v d = (d ++ [(k, v)])%list.
Proof.
  induction d as [|[k' v'] d IH]; simpl; [done|].
  intros [Hne Hd]%not_elem_of_cons.
  rewrite bool_decide_eq_false_2 by done. by rewrite IH.
Qed.

Lemma vdict_fold_fresh t voters d :
  NoDup voters → (∀ v, v ∈ voters → v ∉ d.*1) →
  foldl (λ d v, vdict_set v t d) d voters
  = (d ++ ((λ v, (v, t)) <$> voters))%list.
Proof.
  intros Hnd. revert d. induction Hnd as [|v voters Hv Hnd IH]; intros d Hd;
    simpl.
  - by rewrite app_nil_r.
  - rewrite vdict_set_fresh by (apply Hd; by left).
    rewrite IH.
    + by rewrite <- app_assoc.
    + intros w Hw. rewrite fmap_app. simpl.
      rewrite elem_of_app, list_elem_of_singleton.
      intros [Hin| ->]; [|done]. apply (Hd w); [by right|done].
Qed.

Lemma rule_tick_keys cands line c :
  (∀ n, n ∈ cands → n ∈ c.*1) →
  (foldl (λ c name,
            if negb (bool_decide (name = "")) && PyStr.contains name line
            then odict_set name (odict_get name c + 1) c else c)
         c cands).*1 = c.*1.
Proof.
  revert c. induction cands as [|n cands IH]; intros c Hsub; simpl; [done|].
  assert (Hn : n ∈ c.*1) by (apply Hsub; by left).
  destruct (negb _ && _).
  - rewrite IH.
    + rewrite odict_set_keys. by rewrite decide_True.
    + intros x Hx. apply odict_set_elem. right. apply Hsub. by right.
  - apply IH. intros x Hx. apply Hsub. by right.
Qed.

Lemma rule_counts_keys cands lines m :
  m ∈ (rule_counts cands lines).*1 ↔ m ∈ cands.
Proof.
  unfold rule_counts.
  destruct (init_counts_spec cands []) as (_ & Hk & _); [constructor|].
  set (c0 := foldl (λ c n, odict_set n 0%nat c) [] cands) in *.
  assert (E : ∀ c, (∀ n, n ∈ cands → n ∈ c.*1) →
    (foldl (λ c line,
       foldl (λ c name,
          if negb (bool_decide (name = "")) && PyStr.contains name line
          then odict_set name (odict_get name c + 1) c else c) c cands)
       c lines).*1 = c.*1).
  { induction lines as [|line lines IH]; intros c Hc; simpl; [done|].
    rewrite IH.
    - by apply rule_tick_keys.
    - intros n Hn. rewrite rule_tick_keys by done. by apply Hc. }
  rewrite E.
  - rewrite Hk, elem_of_nil. tauto.
  - intros n Hn. apply Hk. by right.
Qed.

Lemma rule_top1_allowed gs allowed :
  "무처형" ∈ allowed → rule_top1 gs allowed ∈ allowed.
Proof. intros Hl. unfold rule_top1. by case_bool_decide. Qed.

Lemma filter_label_app (A : list string) :
  "무처형" ∉ A → filter (λ c, c ≠ "무처형") (A ++ ["무처형"])%list = A.
Proof.
  intros Hn. rewrite filter_app.
  rewrite (filter_cons_False _ "무처형") by (intros H; by apply H).
  rewrite filter_nil, app_nil_r.
  induction A as [|a A IH]; [done|].
  apply not_elem_of_cons in Hn as [Ha Hn].
  rewrite filter_cons_True by done. by rewrite IH.
Qed.

Lemma rule_top1_candidate gs (A : list string) :
  "무처형" ∉ A → A ≠ [] → rule_top1 gs (A ++ ["무처형"])%list ∈ A.
Proof.
  intros Hl Hne. unfold rule_top1. rewrite filter_label_app by done.
  set (counts := rule_counts A (dialogue_history gs)).
  assert (Hfirst : match A with c :: _ => c | [] => "무처형" end ∈ A).
  { destruct A; [done|]. by left. }
  assert (Hraw :
    match merge_sort item_le counts with
    | (n, c) :: _ =>
        if bool_decide (0 < c)%nat then n
        else match A with c :: _ => c | [] => "무처형" end
    | [] => match A with c :: _ => c | [] => "무처형" end
    end ∈ A).
  { destruct (merge_sort item_le counts) as [|[n c] rest] eqn:Es; [done|].
    case_bool_decide; [|done].
    apply (rule_counts_keys A (dialogue_history gs)).
    apply list_elem_of_fmap. exists (n, c). split; [done|].
    fold counts. rewrite <- (merge_sort_Permutation item_le counts), Es.
    by left. }
  rewrite bool_decide_eq_true_2; [done|]. apply elem_of_app. by left.
Qed.

Lemma label_allowed (A : list string) : "무처형" ∈ (A ++ ["무처형"])%list.
Proof. apply elem_of_app. right. by left. Qed.

(** Every ballot handed to the tally names a living AI player or the
    no-lynch label. *)
Lemma ballots_targets gs your :
  Forall (λ b, b.2 ∈ (alive_ai gs ++ ["무처형"])%list) (ballots gs your).
Proof.
  unfold ballots.
  change (filter (λ n, n ≠ human) (alive_players gs)) with (alive_ai gs).
  set (allowed := (alive_ai gs ++ ["무처형"])%list).
  set (your' := if bool_decide (your ∈ allowed) then your else "무처형").
  assert (Hy : your' ∈ allowed).
  { unfold your'. case_bool_decide; [done|]. apply label_allowed. }
  assert (Hinit : Forall (λ b : string * string, b.2 ∈ allowed)
                         [("당신", your')]) by (by constructor).
  revert Hinit. generalize [("당신", your')].
  induction (ai_votes_by_rule gs allowed) as [|vt l IH]; intros d Hd; simpl;
    [done|].
  apply IH. case_bool_decide as H1; simpl; [|done].
  case_bool_decide as H2; simpl; [|done].
  by apply (vdict_set_values (λ t, t ∈ allowed)).
Qed.

Lemma votes_for_pos_target v living label t :
  (0 < votes_for v living label t)%nat → ∃ b, b ∈ v ∧ b.2 = t.
Proof.
  unfold votes_for, valid_votes. intros Hpos.
  destruct (filter (λ b, b.2 = t) (filter _ v)) as [|b l] eqn:E;
    [simpl in Hpos; lia|].
  assert (Hb : b ∈ filter (λ b, b.2 = t)
                 (filter (λ b, valid_target living label b.2) v)).
  { rewrite E. by left. }
  apply list_elem_of_filter in Hb as [Ht Hb].
  apply list_elem_of_filter in Hb as [_ Hb]. eauto.
Qed.

Lemma day_vote_executed gs your x :
  (tally_votes_plurality (ballots gs your) (alive_players gs) true "무처형").1
    = Some x →
  x ∈ alive_ai gs.
Proof.
  intros (Hne & Htop & Hlab & _)%executed_top.
  destruct (top_name_count _ _ _ _ Hne Htop) as [_ Hpos].
  apply votes_for_pos_target in Hpos as (b & Hb & <-).
  pose proof (ballots_targets gs your) as Hall.
  rewrite Forall_forall in Hall. specialize (Hall b Hb).
  apply elem_of_app in Hall as [?|Hl]; [done|].
  apply list_elem_of_singleton in Hl. exfalso. by apply Hlab.
Qed.

Lemma day_vote_unfold gs your :
  day_vote gs your =
    match (tally_votes_plurality (ballots gs your) (alive_players gs) true
             "무처형").1 with
    | None | Some "" =>
        Some (tally_votes_plurality (ballots gs your) (alive_players gs) true
                "무처형",
              log_append no_lynch_entry (set_phase DAY_VOTE gs))
    | Some x =>
        gs1 ← set_alive x false (set_phase DAY_VOTE gs);
        Some (tally_votes_plurality (ballots gs your) (alive_players gs) true
                "무처형",
              log_append (executed_entry x) gs1)
    end.
Proof.
  unfold day_vote.
  change (alive_players (set_phase DAY_VOTE gs)) with (alive_players gs).
  change (ballots (set_phase DAY_VOTE gs) your) with (ballots gs your).
  destruct (tally_votes_plurality _ _ _ _) as [[x|] counter]; simpl; [|done].
  destruct x as [|a x]; [done|]. simpl.
  by destruct (set_alive _ _ _).
Qed.

(** X13: in the day vote an invalid choice of the human counts as a
    no-lynch ballot; whoever is executed is a living AI player, never the
    human; the step appends exactly one entry to the event log, sets the
    phase, keeps the roster order and every other field, and changes no
    player but the executed one, whose alive flag it clears. *)
Theorem day_vote_spec gs your ex counter gs' :
  day_vote gs your = Some (ex, counter, gs') →
  (your ∉ (alive_ai gs ++ ["무처형"])%list →
   day_vote gs "무처형" = Some (ex, counter, gs')) ∧
  (∀ x, ex = Some x → x ∈ alive_ai gs ∧ x ≠ human) ∧
  phase gs' = DAY_VOTE ∧ round gs' = round gs ∧
  dialogue_history gs' = dialogue_history gs ∧
  last_line_by_name gs' = last_line_by_name gs ∧
  dialogue_round_start_idx gs' = dialogue_round_start_idx gs ∧
  (players gs').*1 = (players gs).*1 ∧
  (∃ entry, log gs' = (log gs ++ [entry])%list) ∧
  (ex = None ∨ ex = Some "" → players gs' = players gs) ∧
  (∀ x, ex = Some x → x ≠ "" →
        (∀ k, k ≠ x →
              players_get k (players gs') = players_get k (players gs)) ∧
        ∃ p, players_get x (players gs) = Some p ∧
             players_get x (players gs')
             = Some (mkPlayer (name p) (role p) false)).
Proof.
  intros Hrun.
  assert (Hco : your ∉ (alive_ai gs ++ ["무처형"])%list →
                ballots gs your = ballots gs "무처형").
  { intros Hn. unfold ballots.
    change (filter (λ n, n ≠ human) (alive_players gs)) with (alive_ai gs).
    rewrite (bool_decide_eq_false_2 (your ∈ _)) by done.
    by rewrite (bool_decide_eq_true_2 ("무처형" ∈ _)) by apply label_allowed. }
  split.
  { intros Hn. rewrite day_vote_unfold, <- Hco by done.
    by rewrite <- day_vote_unfold. }
  rewrite day_vote_unfold in Hrun.
  pose proof (day_vote_executed gs your) as Hex.
  destruct (tally_votes_plurality (ballots gs your) (alive_players gs) true
              "무처형") as [e c] eqn:Et.
  simpl in Hrun, Hex.
  destruct e as [x|].
  - destruct x as [|a x].
    + injection Hrun as <- <- <-. split.
      { intros y [= <-]. specialize (Hex "" eq_refl). split; [done|].
        by apply elem_of_alive_ai in Hex as [? _]. }
      repeat split; try done; eauto.
      all: by simplify_eq.
    + destruct (set_alive (String a x) false (set_phase DAY_VOTE gs))
        as [gs1|] eqn:Es; [|done].
      simpl in Hrun. injection Hrun as <- <- <-.
      unfold set_alive in Es. simpl in Es.
      destruct (players_get (String a x) (players gs)) as [p|] eqn:Ep;
        [|done].
      simpl in Es. injection Es as <-. simpl.
      split.
      { intros y [= <-]. specialize (Hex _ eq_refl). split; [done|].
        by apply elem_of_alive_ai in Hex as [? _]. }
      repeat split; try done; eauto.
      * apply players_set_keys. by rewrite Ep.
      * by intros [[=]|[=]].
      * intros k Hk. simplify_eq. by apply players_get_set_ne.
      * simplify_eq. exists p. split; [done|].
        apply players_get_set_eq.
  - injection Hrun as <- <- <-. repeat split; try done; eauto.
Qed.

Lemma day_vote_spec_witness :
  ∃ ex counter gs',
    day_vote second_day_state "지연" = Some (ex, counter, gs') ∧
    ∀ x, ex = Some x → x ∈ alive_ai second_day_state ∧ x ≠ human.
Proof.
  destruct (day_vote second_day_state "지연") as [[[ex counter] gs']|] eqn:E;
    [|vm_compute in E; discriminate].
  exists ex, counter, gs'. split; [reflexivity|].
  apply (day_vote_spec second_day_state "지연" ex counter gs' E).
Defined.

Lemma votes_for_cons k y v living label t :
  votes_for ((k, y) :: v) living label t
  = ((if bool_decide (valid_target living label y ∧ y = t) then 1 else 0)
     + votes_for v living label t)%nat.
Proof.
  unfold votes_for, valid_votes.
  destruct (decide (valid_target living label y)) as [Hv|Hv].
  - rewrite (filter_cons_True _ (k, y)) by done.
    destruct (decide (y = t)) as [Ht|Ht].
    + rewrite filter_cons_True by done.
      by rewrite bool_decide_eq_true_2.
    + rewrite filter_cons_False by done.
      by rewrite bool_decide_eq_false_2 by tauto.
  - rewrite (filter_cons_False _ (k, y)) by done.
    by rewrite bool_decide_eq_false_2 by tauto.
Qed.

Lemma votes_for_block x (A : list string) living label t :
  valid_target living label x →
  votes_for ((λ v, (v, x)) <$> A) living label t
  = if bool_decide (x = t) then length A else 0%nat.
Proof.
  intros Hx. induction A as [|a A IH].
  - by case_bool_decide.
  - rewrite fmap_cons, votes_for_cons, IH. cbn [length].
    case_bool_decide as E.
    + rewrite bool_decide_eq_true_2 by done. lia.
    + by rewrite bool_decide_eq_false_2 by tauto.
Qed.

Lemma block_ballots gs your :
  NoDup (alive_players gs) →
  "무처형" ∉ alive_players gs →
  alive_ai gs ≠ [] →
  ballots gs your
  = ("당신",
     if bool_decide (your ∈ (alive_ai gs ++ ["무처형"])%list) then your
     else "무처형")
    :: ((λ v, (v, rule_top1 gs (alive_ai gs ++ ["무처형"])%list))
        <$> alive_ai gs).
Proof.
  intros Hnd Hlab Hne. unfold ballots, ai_votes_by_rule.
  change (filter (λ n, n ≠ human) (alive_players gs)) with (alive_ai gs).
  set (A := alive_ai gs) in *.
  set (allowed := (A ++ ["무처형"])%list).
  set (x := rule_top1 gs allowed).
  assert (HndA : NoDup A) by (by apply NoDup_filter).
  assert (Hx : x ∈ allowed) by apply rule_top1_allowed, label_allowed.
  destruct A as [|a0 A0] eqn:EA; [done|]. rewrite <- EA in *.
  rewrite (vdict_fold_fresh x A []) by (done || (intros; apply not_elem_of_nil)).
  rewrite app_nil_l.
  set (d0 := [("당신", if bool_decide (your ∈ allowed) then your else "무처형")]).
  assert (E : ∀ (l : list string) d, (∀ v, v ∈ l → v ∈ A) →
    foldl (λ d vt, if bool_decide (vt.1 ∈ A) && bool_decide (vt.2 ∈ allowed)
                   then vdict_set vt.1 vt.2 d else d)
          d ((λ v, (v, x)) <$> l)
    = foldl (λ d v, vdict_set v x d) d l).
  { induction l as [|v l IH]; intros d Hl; simpl; [done|].
    rewrite bool_decide_eq_true_2 by (apply Hl; by left).
    rewrite bool_decide_eq_true_2 by done. simpl.
    apply IH. intros w Hw. apply Hl. by right. }
  rewrite E by done.
  rewrite vdict_fold_fresh; [done|done|].
  intros v Hv. unfold d0. simpl. rewrite list_elem_of_singleton.
  intros ->. unfold A in Hv. by apply elem_of_alive_ai in Hv as [? _].
Qed.

(** X14: when at least two AI players are alive (living names distinct,
    none empty, none equal to the no-lynch label, each stored in the
    roster) the day vote executes the one player that all AI players vote
    for, whatever the human votes. *)
Theorem day_vote_block_decides gs :
  NoDup (alive_players gs) →
  "무처형" ∉ alive_players gs →
  "" ∉ alive_players gs →
  (2 ≤ length (alive_ai gs))%nat →
  (∀ n, n ∈ alive_players gs → is_Some (players_get n (players gs))) →
  ∃ x, x = rule_top1 gs (alive_ai gs ++ ["무처형"])%list ∧
       x ∈ alive_ai gs ∧
       ∀ your, ∃ counter gs',
         day_vote gs your = Some (Some x, counter, gs').
Proof.
  intros Hnd Hlab Hemp Hlen Hkeys.
  set (A := alive_ai gs) in *.
  assert (HA : ∀ n, n ∈ A → n ∈ alive_players gs).
  { intros n Hn. by apply elem_of_alive_ai in Hn as [_ ?]. }
  assert (HlabA : "무처형" ∉ A) by (intros H; by apply Hlab, HA).
  assert (HneA : A ≠ []) by (intros E; rewrite E in Hlen; simpl in Hlen; lia).
  set (x := rule_top1 gs (A ++ ["무처형"])%list).
  assert (Hx : x ∈ A) by (by apply rule_top1_candidate).
  exists x. split; [done|]. split; [done|].
  intros your.
  set (y := if bool_decide (your ∈ (A ++ ["무처형"])%list) then your
            else "무처형").
  assert (Hb : ballots gs your = ("당신", y) :: ((λ v, (v, x)) <$> A))
    by (by apply block_ballots).
  assert (Hvx : valid_target (alive_players gs) "무처형" x)
    by (right; by apply HA).
  assert (Hmax : ∀ t, t ≠ x →
    (votes_for (ballots gs your) (alive_players gs) "무처형" t
     < votes_for (ballots gs your) (alive_players gs) "무처형" x)%nat).
  { intros t Ht. rewrite Hb, !votes_for_cons, !votes_for_block by done.
    rewrite (bool_decide_eq_false_2 (x = t)) by done.
    rewrite (bool_decide_eq_true_2 (x = x)) by done.
    repeat case_bool_decide; lia. }
  destruct (unique_top (alive_players gs) "무처형" (ballots gs your) x Hmax)
    as [Hne Htop].
  assert (Hex : (tally_votes_plurality (ballots gs your) (alive_players gs)
                   true "무처형").1 = Some x).
  { rewrite tally_unfold, Htop. simpl.
    rewrite bool_decide_eq_false_2 by done.
    rewrite (bool_decide_eq_false_2 (x = "무처형")) by (intros E; by rewrite E in Hx).
    simpl. rewrite bool_decide_eq_true_2; [done|].
    apply elem_of_list_to_set. by apply HA. }
  rewrite day_vote_unfold.
  destruct (tally_votes_plurality (ballots gs your) (alive_players gs) true
              "무처형") as [e c] eqn:Et.
  simpl in Hex. subst e. simpl.
  destruct x as [|a s] eqn:Ex.
  { exfalso. apply Hemp. by apply HA. }
  destruct (Hkeys (String a s)) as [p Hp]; [by apply HA|].
  unfold set_alive. simpl. rewrite Hp. simpl. eauto.
Qed.

Lemma day_vote_block_decides_witness :
  ∃ x, x = rule_top1 second_day_state
             (alive_ai second_day_state ++ ["무처형"])%list ∧
       x ∈ alive_ai second_day_state ∧
       ∀ your, ∃ counter gs',
         day_vote second_day_state your = Some (Some x, counter, gs').
Proof.
  apply day_vote_block_decides.
  - apply (bool_decide_unpack (NoDup (alive_players second_day_state))).
    vm_compute. exact I.
  - apply (bool_decide_unpack ("무처형" ∉ alive_players second_day_state)).
    vm_compute. exact I.
  - apply (bool_decide_unpack ("" ∉ alive_players second_day_state)).
    vm_compute. exact I.
  - vm_compute. lia.
  - apply Forall_forall.
    apply (bool_decide_unpack
             (Forall (λ n, is_Some (players_get n (players second_day_state)))
                     (alive_players second_day_state))).
    vm_compute. exact I.
Defined.

Lemma vdict_set_keys k v d :
  (vdict_set k v d).*1 = if decide (k ∈ d.*1) then d.*1 else (d.*1 ++ [k])%list.
Proof.
  induction d as [|[k' v'] d IH].
  - destruct (decide (k ∈ _)) as [H|H]; [by apply elem_of_nil in H|done].
  - cbn [vdict_set]. case_bool_decide as E.
    + subst. rewrite decide_True; [done|]. by left.
    + rewrite fmap_cons, IH. cbn [fst fmap list_fmap].
      destruct (decide (k ∈ d.*1)) as [Hin|Hin].
      * rewrite decide_True; [done|]. by right.
      * rewrite decide_False; [done|].
        rewrite not_elem_of_cons. split; [congruence|done].
Qed.

Lemma vdict_fold_keys t voters d :
  NoDup d.*1 →
  NoDup (foldl (λ d v, vdict_set v t d) d voters).*1 ∧
  ∀ m, m ∈ (foldl (λ d v, vdict_set v t d) d voters).*1
       ↔ m ∈ d.*1 ∨ m ∈ voters.
Proof.
  revert d. induction voters as [|v voters IH]; intros d Hnd; cbn [foldl].
  - split; [done|]. intros m. rewrite elem_of_nil. tauto.
  - assert (Hnd' : NoDup (vdict_set v t d).*1).
    { rewrite vdict_set_keys. case_decide as Hin; [done|].
      apply NoDup_app. split; [done|]. split; [|apply NoDup_singleton].
      intros x Hx ->%list_elem_of_singleton. done. }
    destruct (IH _ Hnd') as [H1 H2]. split; [done|].
    intros m. rewrite H2, vdict_set_keys, elem_of_cons.
    case_decide as Hin.
    + split; [tauto|]. intros [?|[->|?]]; auto.
    + rewrite elem_of_app, list_elem_of_singleton. tauto.
Qed.

(** X15: [ai_votes_by_rule] gives one ballot to every living AI player and
    to nobody else, and all these ballots name the same target, which is
    one of the allowed choices or else the no-lynch label. *)
Theorem ai_votes_by_rule_spec gs allowed :
  NoDup (ai_votes_by_rule gs allowed).*1 ∧
  (∀ v, v ∈ (ai_votes_by_rule gs allowed).*1 ↔ v ∈ alive_ai gs) ∧
  Forall (λ b, b.2 = rule_top1 gs allowed) (ai_votes_by_rule gs allowed) ∧
  (rule_top1 gs allowed ∈ allowed ∨ rule_top1 gs allowed = "무처형").
Proof.
  unfold ai_votes_by_rule.
  change (filter (λ n, n ≠ human) (alive_players gs)) with (alive_ai gs).
  assert (Htop : rule_top1 gs allowed ∈ allowed
                 ∨ rule_top1 gs allowed = "무처형").
  { unfold rule_top1. case_bool_decide; [by left|by right]. }
  destruct (alive_ai gs) as [|a A] eqn:E.
  - split; [constructor|]. split; [done|]. split; [constructor|done].
  - destruct (vdict_fold_keys (rule_top1 gs allowed) (a :: A) [])
      as [Hnd Hk]; [constructor|].
    split; [done|]. split.
    + intros v. rewrite Hk, elem_of_nil. tauto.
    + split; [|done].
      assert (Hall : ∀ (l : list string) d,
        Forall (λ b : string * string, b.2 = rule_top1 gs allowed) d →
        Forall (λ b : string * string, b.2 = rule_top1 gs allowed)
               (foldl (λ d v, vdict_set v (rule_top1 gs allowed) d) d l)).
      { induction l as [|v l IH]; intros d Hd; simpl; [done|].
        apply IH.
        by apply (vdict_set_values (λ t, t = rule_top1 gs allowed)). }
      apply Hall. constructor.
Qed.

(** ** The memory store *)

Section StoreProofs.

Import Memory.
Local Open Scope Z_scope.

Lemma last_drop_lt {A} (l : list A) n :
  (n < length l)%nat → last (drop n l) = last l.
Proof.
  intros Hn. rewrite !last_lookup, lookup_drop, length_drop. f_equal. lia.
Qed.

(** X16: [append_dialogue] stores the cleaned line last and keeps a suffix
    of the history; with [max_keep >= 1] the history holds
    [min (n + 1) max_keep] lines afterwards, so a history within the bound
    stays within it; with [max_keep = 0] nothing is ever dropped. *)
Theorem append_dialogue_bounded line max_keep d :
  let h := Store.dialogue_history d in
  let h' := Store.dialogue_history (Store.append_dialogue line max_keep d) in
  h' `suffix_of` (h ++ [_clean_str line])%list ∧
  (0 ≤ max_keep → last h' = Some (_clean_str line)) ∧
  (1 ≤ max_keep →
   length h' = Nat.min (length h + 1) (Z.to_nat max_keep)) ∧
  (1 ≤ max_keep → (length h ≤ Z.to_nat max_keep)%nat →
   (length h' ≤ Z.to_nat max_keep)%nat) ∧
  (max_keep = 0 → h' = (h ++ [_clean_str line])%list).
Proof.
  intros h h'. unfold h', Store.append_dialogue. simpl. fold h.
  set (full := (h ++ [_clean_str line])%list).
  assert (Hlen : length full = (length h + 1)%nat)
    by (unfold full; rewrite length_app; simpl; lia).
  assert (Hlast : last full = Some (_clean_str line))
    by (unfold full; apply last_snoc).
  destruct (Z.gtb_spec (Z.of_nat (length full)) max_keep) as [Hgt|Hle].
  - unfold PyStr.slice_from.
    destruct (Z.ltb_spec (- max_keep) 0) as [Hneg|Hpos].
    + (* max_keep >= 1: the last max_keep lines *)
      replace (Z.to_nat (Z.max 0 (Z.of_nat (length full) + - max_keep)))
        with (length full - Z.to_nat max_keep)%nat by lia.
      split; [apply suffix_drop|].
      split; [|split; [|split]].
      * intros _. rewrite last_drop_lt by lia. done.
      * intros _. rewrite length_drop. lia.
      * intros _ _. rewrite length_drop. lia.
      * lia.
    + (* max_keep <= 0: a slice from the front *)
      split; [apply suffix_drop|].
      split; [|split; [|split]]; try lia.
      * intros ?. assert (max_keep = 0) as -> by lia. done.
      * intros ->. done.
  - split; [done|]. split; [done|].
    split; [|split]; intros; lia.
Qed.

Lemma append_dialogue_bounded_witness :
  length (Store.dialogue_history
            (Store.append_dialogue [0x61] 2
               (Store.mkData [[0x62]; [0x63]] [] ∅ ∅ ∅)))
  = Nat.min 3 2.
Proof.
  apply (proj1 (proj2 (proj2
           (append_dialogue_bounded [0x61] 2
              (Store.mkData [[0x62]; [0x63]] [] ∅ ∅ ∅))))).
  lia.
Defined.

(** X17: [mark_dead] records the cleaned name, keeps the earlier entries in
    their order, never enters a name twice, changes no other field, and
    marking the same name again changes nothing. *)
Theorem mark_dead_spec name d :
  let d' := Store.mark_dead name d in
  _clean_str name ∈ Store.dead d' ∧
  Store.dead d `prefix_of` Store.dead d' ∧
  (NoDup (Store.dead d) → NoDup (Store.dead d')) ∧
  (length (Store.dead d') ≤ length (Store.dead d) + 1)%nat ∧
  Store.mark_dead name d' = d' ∧
  Store.dialogue_history d' = Store.dialogue_history d ∧
  Store.revealed_roles d' = Store.revealed_roles d ∧
  Store.suspicions d' = Store.suspicions d ∧
  Store.round_summaries d' = Store.round_summaries d.
Proof.
  intros d'. unfold d', Store.mark_dead.
  case_bool_decide as Hin.
  - rewrite bool_decide_eq_true_2 by done.
    repeat split; try done. lia.
  - simpl. rewrite bool_decide_eq_true_2
      by (apply elem_of_app; right; by left).
    repeat split; try done.
    + apply elem_of_app. right. by left.
    + by apply prefix_app_r.
    + intros Hnd. apply NoDup_app. split; [done|].
      split; [|apply NoDup_singleton].
      intros x Hx ->%list_elem_of_singleton. done.
    + rewrite length_app. simpl. lia.
Qed.

Lemma mark_dead_spec_witness :
  NoDup (Store.dead (Store.mark_dead [0x61; 0xD800]
                       (Store.mkData [] [[0x61]] ∅ ∅ ∅))).
Proof.
  apply (mark_dead_spec [0x61; 0xD800] (Store.mkData [] [[0x61]] ∅ ∅ ∅)).
  simpl. apply NoDup_singleton.
Defined.

Section Summary.

Variable strip : list Z → list Z.
Variable str_of_int : Z → list Z.

(** X18: the summary stored by [set_round_summary] is the cleaned, stripped
    text when that has at most [max_len] code points; otherwise, for
    [max_len >= 1], its first [max_len - 1] code points followed by an
    ellipsis, so exactly [max_len] code points.  It is stored under the
    round's key and no other summary changes.  With [max_len = 0] a longer
    text keeps its length: the bound is not enforced. *)
Theorem set_round_summary_spec round_no summary max_len d :
  let s := strip (_clean_str (default [] summary)) in
  let stored := Store.summary_text strip summary max_len in
  let d' := Store.set_round_summary strip str_of_int round_no summary
              max_len d in
  Store.round_summaries d' !! Store.round_key str_of_int round_no
    = Some stored ∧
  (∀ k, k ≠ Store.round_key str_of_int round_no →
        Store.round_summaries d' !! k = Store.round_summaries d !! k) ∧
  (Z.of_nat (length s) ≤ max_len → stored = s) ∧
  (1 ≤ max_len < Z.of_nat (length s) →
   stored = (take (Z.to_nat (max_len - 1)) s ++ Store.ellipsis)%list ∧
   Z.of_nat (length stored) = max_len) ∧
  (1 ≤ max_len → Z.of_nat (length stored) ≤ max_len) ∧
  (max_len = 0 → s ≠ [] → length stored = length s).
Proof.
  intros s stored d'. unfold d', stored, Store.set_round_summary,
    Store.summary_text. simpl. fold s.
  split; [apply lookup_insert_eq|].
  split; [intros k Hk; by apply lookup_insert_ne|].
  destruct (Z.gtb_spec (Z.of_nat (length s)) max_len) as [Hgt|Hle].
  - unfold Store.slice_to.
    split; [lia|].
    split; [|split].
    + intros [H1 _].
      destruct (Z.ltb_spec (max_len - 1) 0); [lia|].
      split; [done|].
      rewrite length_app, length_take. simpl. lia.
    + intros H1. destruct (Z.ltb_spec (max_len - 1) 0); [lia|].
      rewrite length_app, length_take. simpl. lia.
    + intros -> Hs. simpl.
      rewrite length_app, length_take. simpl.
      destruct s; [done|]. simpl. lia.
  - split; [done|]. split; [lia|]. split; [lia|]. lia.
Qed.

End Summary.

Lemma set_round_summary_spec_witness :
  Z.of_nat (length (Store.summary_text (λ s, s) (Some [0x61; 0x62; 0x63]) 2))
  ≤ 2.
Proof.
  apply (set_round_summary_spec (λ s, s) (λ _, []) 1
           (Some [0x61; 0x62; 0x63]) 2 Store.empty_data).
  lia.
Defined.

Lemma split_once_suffix sep l h t :
  Store.split_once sep l = Some (h, t) → t `suffix_of` l.
Proof.
  revert h. induction l as [|a l IH]; intros h; cbn [Store.split_once].
  - destruct (Store.starts_with sep []); [|done].
    intros [= <- <-]. apply suffix_drop.
  - destruct (Store.starts_with sep (a :: l)).
    + intros [= <- <-]. apply suffix_drop.
    + destruct (Store.split_once sep l) as [[h' t']|]; [|done].
      simpl. intros [= <- <-]. apply suffix_cons_r. by eapply IH.
Qed.

Lemma split_once_None sep l :
  Store.contains sep l = false → Store.split_once sep l = None.
Proof.
  induction l as [|a l IH]; cbn [Store.contains Store.split_once].
  - by destruct (Store.starts_with sep []).
  - destruct (Store.starts_with sep (a :: l)); [done|]. simpl.
    intros H. by rewrite IH.
Qed.

Lemma contains_suffix sub t l :
  t `suffix_of` l → Store.contains sub t = true → Store.contains sub l = true.
Proof.
  intros [k ->] Ht. induction k as [|a k IH]; [done|].
  cbn [app Store.contains]. rewrite IH. apply orb_true_r.
Qed.

Lemma suspect_cases speaker text susp cand :
  Store.suspect speaker text susp cand = susp ∨
  (cand ≠ speaker ∧ Store.contains cand text = true ∧
   (Store.contains Store.marker_susang text = true ∨
    Store.contains Store.marker_uisim text = true) ∧
   Store.suspect speaker text susp cand
   = <[(speaker ++ Store.arrow ++ cand)%list :=
         default 0 (susp !! (speaker ++ Store.arrow ++ cand)%list) + 1]> susp).
Proof.
  unfold Store.suspect.
  case_bool_decide as E; simpl; [by left|].
  destruct (Store.contains cand text); simpl; [|by left].
  destruct (Store.contains Store.marker_susang text) eqn:E1; simpl.
  { right. repeat split; auto. }
  destruct (Store.contains Store.marker_uisim text) eqn:E2; simpl.
  { right. repeat split; auto. }
  by left.
Qed.

Lemma suspect_mono speaker text susp cand key :
  default 0 (susp !! key)
  ≤ default 0 (Store.suspect speaker text susp cand !! key) ∧
  (is_Some (susp !! key) →
   is_Some (Store.suspect speaker text susp cand !! key)).
Proof.
  destruct (suspect_cases speaker text susp cand) as [->|(_ & _ & _ & ->)];
    [split; [lia|done]|].
  destruct (decide ((speaker ++ Store.arrow ++ cand)%list = key)) as [<-|Hne].
  - rewrite lookup_insert_eq. simpl. split; [lia|eauto].
  - by rewrite lookup_insert_ne.
Qed.

Lemma suspect_fold_mono speaker text ts susp key :
  default 0 (susp !! key)
  ≤ default 0 (foldl (Store.suspect speaker text) susp ts !! key) ∧
  (is_Some (susp !! key) →
   is_Some (foldl (Store.suspect speaker text) susp ts !! key)).
Proof.
  revert susp. induction ts as [|c ts IH]; intros susp; simpl.
  - split; [lia|done].
  - destruct (IH (Store.suspect speaker text susp c)) as [H1 H2].
    destruct (suspect_mono speaker text susp c key) as [H3 H4].
    split; [lia|auto].
Qed.

Lemma suspect_line_mono susp l key :
  default 0 (susp !! key) ≤ default 0 (Store.suspect_line susp l !! key) ∧
  (is_Some (susp !! key) → is_Some (Store.suspect_line susp l !! key)).
Proof.
  unfold Store.suspect_line.
  destruct (Store.split_once _ _) as [[speaker text]|];
    [apply suspect_fold_mono|split; [lia|done]].
Qed.

Lemma suspect_fold_quiet speaker text ts susp :
  Store.contains Store.marker_susang text = false →
  Store.contains Store.marker_uisim text = false →
  foldl (Store.suspect speaker text) susp ts = susp.
Proof.
  intros H1 H2. revert susp. induction ts as [|c ts IH]; intros susp; simpl;
    [done|].
  destruct (suspect_cases speaker text susp c)
    as [->|(_ & _ & [E|E] & _)]; [apply IH|congruence|congruence].
Qed.

Lemma suspect_line_quiet susp l :
  Store.contains Store.colon_space (_clean_str l) = false ∨
  (Store.contains Store.marker_susang (_clean_str l) = false ∧
   Store.contains Store.marker_uisim (_clean_str l) = false) →
  Store.suspect_line susp l = susp.
Proof.
  unfold Store.suspect_line. intros [Hc|[H1 H2]].
  - by rewrite split_once_None.
  - destruct (Store.split_once _ _) as [[speaker text]|] eqn:E; [|done].
    apply split_once_suffix in E.
    apply suspect_fold_quiet.
    + destruct (Store.contains Store.marker_susang text) eqn:Et; [|done].
      apply (contains_suffix _ _ _ E) in Et. congruence.
    + destruct (Store.contains Store.marker_uisim text) eqn:Et; [|done].
      apply (contains_suffix _ _ _ E) in Et. congruence.
Qed.

(** X19: [update_suspicions] never lowers a counter and never removes a
    key; it changes nothing but the suspicion table; and lines that have no
    ": " or that contain neither marker word leave the table as it was. *)
Theorem update_suspicions_spec lines d :
  let d' := Store.update_suspicions lines d in
  (∀ key, default 0 (Store.suspicions d !! key)
          ≤ default 0 (Store.suspicions d' !! key)) ∧
  (∀ key, is_Some (Store.suspicions d !! key) →
          is_Some (Store.suspicions d' !! key)) ∧
  (Forall (λ l,
      Store.contains Store.colon_space (_clean_str l) = false ∨
      (Store.contains Store.marker_susang (_clean_str l) = false ∧
       Store.contains Store.marker_uisim (_clean_str l) = false)) lines →
   Store.suspicions d' = Store.suspicions d) ∧
  Store.dialogue_history d' = Store.dialogue_history d ∧
  Store.dead d' = Store.dead d ∧
  Store.revealed_roles d' = Store.revealed_roles d ∧
  Store.round_summaries d' = Store.round_summaries d.
Proof.
  intros d'. unfold d', Store.update_suspicions. simpl.
  generalize (Store.suspicions d) as susp.
  intros susp.
  assert (Hmono : ∀ key,
    default 0 (susp !! key)
    ≤ default 0 (foldl Store.suspect_line susp lines !! key) ∧
    (is_Some (susp !! key) →
     is_Some (foldl Store.suspect_line susp lines !! key))).
  { intros key. revert susp. induction lines as [|l lines IH]; intros susp;
      simpl; [split; [lia|done]|].
    destruct (IH (Store.suspect_line susp l)) as [H1 H2].
    destruct (suspect_line_mono susp l key) as [H3 H4].
    split; [lia|auto]. }
  split; [intros key; apply Hmono|].
  split; [intros key; apply Hmono|].
  split; [|done].
  clear Hmono. revert susp. induction lines as [|l lines IH]; intros susp;
    simpl; [done|].
  intros [Hl Hr]%Forall_cons. rewrite suspect_line_quiet by done. by apply IH.
Qed.

Lemma update_suspicions_spec_witness :
  Store.suspicions
    (Store.update_suspicions [[0xBBFC; 0xC218; 0x3A; 0x20; 0x61]]
       Store.empty_data)
  = Store.suspicions Store.empty_data.
Proof.
  apply (update_suspicions_spec [[0xBBFC; 0xC218; 0x3A; 0x20; 0x61]]
           Store.empty_data).
  constructor; [|constructor]. right. split; reflexivity.
Defined.

Lemma targets_NoDup : NoDup Store.targets.
Proof.
  apply (bool_decide_unpack (NoDup Store.targets)). vm_compute. exact I.
Qed.

Lemma suspect_fold_other speaker text ts susp cand :
  cand ∉ ts →
  foldl (Store.suspect speaker text) susp ts
    !! (speaker ++ Store.arrow ++ cand)%list
  = susp !! (speaker ++ Store.arrow ++ cand)%list.
Proof.
  revert susp. induction ts as [|c ts IH]; intros susp Hn; cbn [foldl];
    [done|].
  apply not_elem_of_cons in Hn as [Hc Hn]. rewrite IH by done.
  destruct (suspect_cases speaker text susp c) as [->|(_ & _ & _ & ->)];
    [done|].
  apply lookup_insert_ne. intros E.
  apply app_inv_head in E. unfold Store.arrow in E. simpl in E. congruence.
Qed.

Lemma suspect_fold_exact speaker text ts susp cand :
  NoDup ts → cand ∈ ts →
  Store.contains Store.marker_susang text = true ∨
  Store.contains Store.marker_uisim text = true →
  default 0 (foldl (Store.suspect speaker text) susp ts
             !! (speaker ++ Store.arrow ++ cand)%list)
  = default 0 (susp !! (speaker ++ Store.arrow ++ cand)%list)
    + (if bool_decide (cand ≠ speaker) && Store.contains cand text
       then 1 else 0).
Proof.
  intros Hnd Hin Hm. revert susp.
  induction Hnd as [|c ts Hc Hnd IH]; intros susp;
    [by apply elem_of_nil in Hin|].
  cbn [foldl]. apply elem_of_cons in Hin as [->|Hin].
  - rewrite suspect_fold_other by done.
    unfold Store.suspect.
    destruct (bool_decide (c = speaker)) eqn:E1; simpl.
    { apply bool_decide_eq_true in E1.
      rewrite bool_decide_eq_false_2 by (intros H; by apply H). simpl. lia. }
    apply bool_decide_eq_false in E1.
    rewrite bool_decide_eq_true_2 by done. simpl.
    destruct (Store.contains c text); simpl; [|lia].
    assert (Store.contains Store.marker_susang text
            || Store.contains Store.marker_uisim text = true) as ->.
    { destruct Hm as [->| ->]; [done|apply orb_true_r]. }
    by rewrite lookup_insert_eq.
  - rewrite IH by done.
    assert (c ≠ cand) by (intros ->; done).
    destruct (suspect_cases speaker text susp c) as [->|(_ & _ & _ & ->)];
      [done|].
    rewrite lookup_insert_ne; [done|]. intros E.
    apply app_inv_head in E. unfold Store.arrow in E. simpl in E. congruence.
Qed.

(** X20: for a line of the form "speaker: text" whose text holds a marker
    word, [update_suspicions] raises the counter "speaker->name" by exactly
    one for each of the six fixed names that occurs in the text and is not
    the speaker, and leaves the counters of the other names as they were. *)
Theorem update_suspicions_one_line l speaker text cand d :
  Store.split_once Store.colon_space (_clean_str l) = Some (speaker, text) →
  Store.contains Store.marker_susang text = true ∨
  Store.contains Store.marker_uisim text = true →
  cand ∈ Store.targets →
  default 0 (Store.suspicions (Store.update_suspicions [l] d)
             !! (speaker ++ Store.arrow ++ cand)%list)
  = default 0 (Store.suspicions d !! (speaker ++ Store.arrow ++ cand)%list)
    + (if bool_decide (cand ≠ speaker) && Store.contains cand text
       then 1 else 0).
Proof.
  intros Hs Hm Hc. unfold Store.update_suspicions. simpl.
  unfold Store.suspect_line. rewrite Hs.
  by apply suspect_fold_exact; [apply targets_NoDup| |].
Qed.

Lemma update_suspicions_one_line_witness :
  default 0 (Store.suspicions
               (Store.update_suspicions
                  [[0xBBFC; 0xC218; 0x3A; 0x20;
                    0xC9C0; 0xC5F0; 0x20; 0xC218; 0xC0C1]]
                  Store.empty_data)
             !! ([0xBBFC; 0xC218] ++ Store.arrow ++ [0xC9C0; 0xC5F0])%list)
  = 0 + 1.
Proof.
  apply (update_suspicions_one_line _ [0xBBFC; 0xC218]
           [0xC9C0; 0xC5F0; 0x20; 0xC218; 0xC0C1] [0xC9C0; 0xC5F0]).
  - vm_compute. reflexivity.
  - left. reflexivity.
  - apply (bool_decide_unpack ([0xC9C0; 0xC5F0] ∈ Store.targets)).
    vm_compute. exact I.
Defined.


End StoreProofs.


Section CleanProofs.

Import Memory Leaves.
Local Open Scope Z_scope.

(** X21: [_clean_str] removes exactly the code points that UTF-8 cannot
    encode, the surrogates, and keeps the others in their order; a string
    without surrogates comes back unchanged. *)
Theorem clean_str_removes_exactly_surrogates s :
  _clean_str s = filter (λ c, encodable c = true) s ∧
  encodable_str (_clean_str s) ∧
  (encodable_str s → _clean_str s = s) ∧
  (length (_clean_str s) ≤ length s)%nat ∧
  (∀ c, 0 ≤ c < 0x110000 → encodable c = negb (is_surrogate c)).
Proof.
  rewrite clean_str_filter. split; [done|]. split; [|split; [|split]].
  - apply Forall_forall. by intros c [? _]%list_elem_of_filter.
  - intros Hs. induction Hs as [|c s Hc Hs IH]; [done|].
    rewrite filter_cons_True by done. by rewrite IH.
  - apply length_filter.
  - intros c Hc. unfold encodable.
    rewrite (proj2 (Z.leb_le 0 c)) by lia.
    by rewrite (proj2 (Z.ltb_lt c 0x110000)) by lia.
Qed.

Lemma clean_str_removes_exactly_surrogates_witness :
  _clean_str [0xC9C0; 0xC5F0; 0x1F600] = [0xC9C0; 0xC5F0; 0x1F600].
Proof.
  apply (clean_str_removes_exactly_surrogates [0xC9C0; 0xC5F0; 0x1F600]).
  repeat constructor.
Defined.

Section Deep.

Context {atom : Type} (atom_eqb : atom → atom → bool).

Lemma clean_str_encodable s : encodable_str (_clean_str s).
Proof.
  rewrite clean_str_filter. apply Forall_forall.
  by intros c [? _]%list_elem_of_filter.
Qed.

Lemma reached_list P Q (xs : list (pyobj atom)) :
  (fix go (xs : list (pyobj atom)) : Prop :=
     match xs with
     | [] => True
     | x :: rest => reached P Q x ∧ go rest
     end) xs ↔ Forall (reached P Q) xs.
Proof.
  induction xs as [|x xs IH]; [split; [constructor|done]|].
  rewrite Forall_cons, <- IH. done.
Qed.

Lemma reached_items P Q (items : list (pyobj atom * pyobj atom)) :
  (fix go (items : list (pyobj atom * pyobj atom)) : Prop :=
     match items with
     | [] => True
     | kv :: rest => reached P Q kv.1 ∧ reached P Q kv.2 ∧ go rest
     end) items
  ↔ Forall (λ kv, reached P Q kv.1 ∧ reached P Q kv.2) items.
Proof.
  induction items as [|kv items IH]; [split; [constructor|done]|].
  rewrite Forall_cons, <- IH. tauto.
Qed.

(** X22: [_sanitize] cleans the strings it reaches and nothing else.
    After it, every string under dictionaries (keys included), lists,
    tuples and sets, at any depth, holds only code points that UTF-8 can
    encode; a value of any other type is returned as it is, so that what
    held of these values before holds of them afterwards, and a string
    inside such a value (a frozenset, say) is not cleaned. *)
Theorem sanitize_leaves_encodable (Q : atom → Prop) (o : pyobj atom) :
  (reached (λ _, True) Q o →
   reached encodable_str Q (_sanitize atom atom_eqb o)) ∧
  (∀ a, _sanitize atom atom_eqb (PAtom a) = PAtom a).
Proof.
  split; [|done].
  induction o as [| s | items IH | xs IH | xs IH | xs IH | a]
    using pyobj_induction; cbn [_sanitize reached]; try done.
  - intros _. apply clean_str_encodable.
  - rewrite !reached_items. intros Hq.
    apply (dict_of_Forall atom_eqb (reached encodable_str Q)
             (reached encodable_str Q)).
    apply Forall_fmap.
    eapply Forall_impl; [apply Forall_and; split; [exact IH|exact Hq]|].
    intros [k v] [[Hk Hv] [? ?]]. split; [by apply Hk|by apply Hv].
  - rewrite !reached_list. intros Hq. apply Forall_fmap.
    eapply Forall_impl; [apply Forall_and; split; [exact IH|exact Hq]|].
    intros x [Hx ?]. by apply Hx.
  - rewrite !reached_list. intros Hq. apply Forall_fmap.
    eapply Forall_impl; [apply Forall_and; split; [exact IH|exact Hq]|].
    intros x [Hx ?]. by apply Hx.
  - rewrite !reached_list. intros Hq.
    apply (set_of_Forall atom_eqb (reached encodable_str Q)).
    apply Forall_fmap.
    eapply Forall_impl; [apply Forall_and; split; [exact IH|exact Hq]|].
    intros x [Hx ?]. by apply Hx.
Qed.

End Deep.

Lemma sanitize_leaves_encodable_witness :
  reached encodable_str (λ _, True)
    (_sanitize frozenset_of_strings (λ a b, bool_decide (a = b))
       tainted_entry).
Proof.
  apply (sanitize_leaves_encodable (λ a b, bool_decide (a = b)) (λ _, True)
           tainted_entry).
  simpl. tauto.
Defined.

(** The lone surrogates of the key and of the list element are gone, the
    one inside the frozenset is still there. *)
Example sanitize_keeps_frozenset :
  _sanitize frozenset_of_strings (λ a b, bool_decide (a = b)) tainted_entry
  = PDict [(PStr [0x61], PList [PStr [0x62]; PAtom [[0x61; 0xD800]]])].
Proof. vm_compute. reflexivity. Qed.

End CleanProofs.
